(** * Batch dispatch engine of gemini-image-processor

    A shallow embedding of [src/gui/workers.py] (the folder scanner and the
    processing worker) and of [on_folder_scanned] in [src/gui/main_window.py],
    with the properties the design document states about them; and of what
    surrounds them: the window's bookkeeping of a run in
    [src/gui/main_window.py], the prompt processor of
    [src/prompt_processor.py] and the finder of
    [src/sky_removal_methods.py], with properties that their code shows.

    Conventions.
    - Python [str] values are [string]s; [str.lower] is the ASCII case map,
      which leaves every other character as it is.  Python's own maps a few
      other characters to ASCII letters as well (U+0130 to "i" and U+0307);
      where that could tell, a name is taken to be ASCII.  White space is
      that of ASCII: the characters 9 to 13 and 28 to 32.
    - Wall-clock time is an integer number of milliseconds ([Z]); a duration of
      [s] seconds is [1000 * s].  [time.sleep d] advances the clock by [d].
    - A thread's [is_cancelled] flag is written by another thread.  It only ever
      goes from [False] to [True], so it is given by the moment it is set.
    - A dict whose order is read is the list of its items (module [Dict]);
      one that is only looked up is a [gmap]. *)

From Stdlib Require Import ZArith Lia Bool List Ascii String.
From stdpp Require Import base option list gmap strings sorting pretty.

Local Open Scope string_scope.
Local Open Scope Z_scope.

(** A step that may run out of fuel: [None] is passed on. *)
Notation "'do' p <- m ; k" :=
  (match m with Some p => k | None => None end)
  (at level 10, p pattern, m at level 100, k at level 200, only parsing).

(** ** Strings *)

Module Str.

(** [c.lower()] for one ASCII character. *)
Definition lower_ascii (c : ascii) : ascii :=
  let n := nat_of_ascii c in
  if (65 <=? n)%nat && (n <=? 90)%nat then ascii_of_nat (n + 32) else c.

(** [s.lower()] *)
Fixpoint lower (s : string) : string :=
  match s with
  | EmptyString => EmptyString
  | String c rest => String (lower_ascii c) (lower rest)
  end.

(** [s.isascii()].  On such a string [lower] is [str.lower] to the letter. *)
Fixpoint isascii (s : string) : bool :=
  match s with
  | EmptyString => true
  | String c rest => (nat_of_ascii c <? 128)%nat && isascii rest
  end.

(** [needle in hay] *)
Fixpoint contains (needle hay : string) : bool :=
  String.prefix needle hay
  || match hay with
     | EmptyString => false
     | String _ rest => contains needle rest
     end.

(** [s.endswith(suffix)] *)
Fixpoint endswith (s suffix : string) : bool :=
  String.eqb s suffix
  || match s with
     | EmptyString => false
     | String _ rest => endswith rest suffix
     end.

(** [s.startswith(prefix)] *)
Definition startswith (s pre : string) : bool := String.prefix pre s.

Definition is_empty (s : string) : bool :=
  match s with EmptyString => true | _ => false end.

(** [s.rstrip("/")] *)
Fixpoint rstrip_sep (s : string) : string :=
  match s with
  | EmptyString => EmptyString
  | String c rest =>
      let r := rstrip_sep rest in
      if is_empty r && Ascii.eqb c "/" then EmptyString else String c r
  end.

(** [s == c * len(s)] *)
Fixpoint all_char (c : ascii) (s : string) : bool :=
  match s with
  | EmptyString => true
  | String d rest => Ascii.eqb d c && all_char c rest
  end.

(** [c in s] for one character. *)
Fixpoint has_char (c : ascii) (s : string) : bool :=
  match s with
  | EmptyString => false
  | String d rest => Ascii.eqb d c || has_char c rest
  end.

End Str.

(** ** [os.path] on POSIX *)

Module Path.

(** [(p[:i], p[i:])] where [i = p.rfind("/") + 1]. *)
Fixpoint rsplit_sep (p : string) : string * string :=
  match p with
  | EmptyString => (EmptyString, EmptyString)
  | String c rest =>
      let '(h, t) := rsplit_sep rest in
      if negb (Str.is_empty h) then (String c h, t)
      else if Ascii.eqb c "/" then (String c EmptyString, t)
      else (EmptyString, String c t)
  end.

(** [os.path.basename] *)
Definition basename (p : string) : string := snd (rsplit_sep p).

(** [os.path.dirname] *)
Definition dirname (p : string) : string :=
  let head := fst (rsplit_sep p) in
  if negb (Str.is_empty head) && negb (Str.all_char "/" head)
  then Str.rstrip_sep head else head.

(** [os.path.join a b] *)
Definition join (a b : string) : string :=
  if Str.startswith b "/" then b
  else if Str.is_empty a || Str.endswith a "/" then a ++ b
  else a ++ "/" ++ b.

(** What [join a b] puts before a relative [b]. *)
Definition glue (a : string) : string :=
  if Str.is_empty a || Str.endswith a "/" then a else a ++ "/".

(** [(t[:d], t[d:])] where [d = t.rfind(".")], if there is a dot. *)
Fixpoint rsplit_dot (t : string) : option (string * string) :=
  match t with
  | EmptyString => None
  | String c rest =>
      match rsplit_dot rest with
      | Some (a, b) => Some (String c a, b)
      | None => if Ascii.eqb c "." then Some (EmptyString, t) else None
      end
  end.

(** [os.path.splitext]: the extension starts at the last dot of the last
    component, unless only dots come before it there. *)
Definition splitext (p : string) : string * string :=
  let '(h, t) := rsplit_sep p in
  match rsplit_dot t with
  | Some (a, b) => if Str.all_char "." a then (p, EmptyString) else (h ++ a, b)
  | None => (p, EmptyString)
  end.

End Path.

(** ** The processing worker ([ProcessingWorker]) *)

Module Worker.

(** One value of the [results] dict:
    [{"success": True, "output_path": p}] or [{"success": False, "error": e}]. *)
Inductive entry :=
| Success (output_path : string)
| Failure (error : string).

(** What the worker does that its environment can observe: the signals it
    emits and its calls of the external transformation. *)
Inductive event :=
| RateLimitWait (wait_time : Z)
    (* progress_updated(-1, "Rate limiting: waiting {wait_time}s before next request...") *)
| Backoff (backoff_time retry max : Z)
    (* progress_updated(-1, "Rate limit hit! Retrying in {backoff_time}s (attempt {retry}/{max})...") *)
| Processing (i total : nat) (name : string)
    (* progress_updated(int((i - 1) / total * 100), "Processing {i}/{total}: {name}") *)
| Complete
    (* progress_updated(100, "Processing complete!") *)
| Dispatch (image_path output_path : string)
    (* sky_remover.gemini_sky_removal(image_path, output_path, ...) is entered *)
| image_processed (image_path output_path : string)
| error_occurred (message image_path : string)
| finished_all (results : gmap string entry).

(** How one call of the external transformation ends. *)
Inductive reply :=
| Returned
| Raised (description : string).   (* [str(e)] of the exception *)

Record outcome := { elapsed : Z; answer : reply }.

(** The worker's parameters and its surroundings: the [n]-th call of the
    transformation (counted from 0 in the run) ends as [remover n]; the
    flag [is_cancelled] is set at time [cancel_at], if ever. *)
Record env := {
  rate_limit_delay : Z;
  output_dir : string;
  remover : nat -> outcome;
  cancel_at : option Z
}.

Record worker := {
  now : Z;                          (* time.time() *)
  last_request_time : Z;
  retry_count : Z;
  calls : nat;                      (* calls of the transformation so far *)
  results : gmap string entry;
  trace : list (Z * event)          (* events so far, oldest first, with their time *)
}.

Definition max_retries : Z := 3.

Definition set_now (t : Z) (w : worker) : worker :=
  {| now := t; last_request_time := last_request_time w; retry_count := retry_count w;
     calls := calls w; results := results w; trace := trace w |}.
Definition set_last_request_time (t : Z) (w : worker) : worker :=
  {| now := now w; last_request_time := t; retry_count := retry_count w;
     calls := calls w; results := results w; trace := trace w |}.
Definition set_retry_count (n : Z) (w : worker) : worker :=
  {| now := now w; last_request_time := last_request_time w; retry_count := n;
     calls := calls w; results := results w; trace := trace w |}.
Definition set_calls (n : nat) (w : worker) : worker :=
  {| now := now w; last_request_time := last_request_time w; retry_count := retry_count w;
     calls := n; results := results w; trace := trace w |}.
Definition set_result (path : string) (r : entry) (w : worker) : worker :=
  {| now := now w; last_request_time := last_request_time w; retry_count := retry_count w;
     calls := calls w; results := <[path := r]> (results w); trace := trace w |}.
Definition emit (ev : event) (w : worker) : worker :=
  {| now := now w; last_request_time := last_request_time w; retry_count := retry_count w;
     calls := calls w; results := results w; trace := trace w ++ [(now w, ev)] |}.

(** [time.sleep(d)] *)
Definition sleep (d : Z) (w : worker) : worker := set_now (now w + d) w.

(** Whether the flag [is_cancelled] is set at time [t]. *)
Definition cancelled_at (e : env) (t : Z) : bool :=
  match cancel_at e with
  | Some c => c <=? t
  | None => false
  end.

(** [self.is_cancelled], read at the worker's current time. *)
Definition is_cancelled (e : env) (w : worker) : bool := cancelled_at e (now w).

(** The [while not self.is_cancelled] loop of [_sleep_with_cancel];
    [None] when [fuel] polls were not enough. *)
Fixpoint sleep_loop (e : env) (fuel : nat) (end_time poll_interval : Z) (w : worker)
  : option worker :=
  if is_cancelled e w then Some w
  else
    let remaining := end_time - now w in
    if remaining <=? 0 then Some w
    else
      match fuel with
      | O => None
      | S fuel' =>
          sleep_loop e fuel' end_time poll_interval (sleep (Z.min poll_interval remaining) w)
      end.

Definition _sleep_with_cancel (e : env) (total_seconds : Z) (message : option event)
    (poll_interval : Z) (w : worker) : option (bool * worker) :=
  if total_seconds <=? 0 then Some (true, w)
  else
    let w1 := match message with Some m => emit m w | None => w end in
    let end_time := now w1 + total_seconds in
    do w2 <- sleep_loop e (S (Z.to_nat (total_seconds / poll_interval))) end_time poll_interval w1;
    Some (negb (is_cancelled e w2), w2).

Definition _wait_for_rate_limit (e : env) (w : worker) : option (bool * worker) :=
  let current_time := now w in
  let time_since_last_request := current_time - last_request_time w in
  if time_since_last_request <? rate_limit_delay e then
    let wait_time := rate_limit_delay e - time_since_last_request in
    do (ok, w1) <- _sleep_with_cancel e wait_time (Some (RateLimitWait wait_time)) 200 w;
    if negb ok then Some (false, w1)
    else Some (true, set_last_request_time (now w1) w1)
  else Some (true, set_last_request_time (now w) w).

(** The test of [_handle_rate_limit_error] on [str(error)]. *)
Definition is_rate_limit_error (error : string) : bool :=
  let error_str := Str.lower error in
  Str.contains "rate limit" error_str
  || Str.contains "quota exceeded" error_str
  || Str.contains "429" error_str.

Definition exhausted_message : string :=
  "Rate limit exceeded after " ++ pretty max_retries
    ++ " retries. Please wait before trying again.".

Definition _handle_rate_limit_error (e : env) (error image_path : string) (w : worker)
  : option (bool * worker) :=
  if is_rate_limit_error error then
    let w1 := set_retry_count (retry_count w + 1) w in
    if retry_count w1 <=? max_retries then
      let backoff_time := 30 * 2 ^ (retry_count w1 - 1) in
      do (ok, w2) <- _sleep_with_cancel e (1000 * backoff_time)
                    (Some (Backoff backoff_time (retry_count w1) max_retries)) 500 w1;
      if negb ok then Some (false, w2) else Some (true, w2)
    else Some (false, emit (error_occurred exhausted_message image_path) w1)
  else Some (false, w).

Definition failed_message (image_path error : string) : string :=
  "Failed to process " ++ Path.basename image_path ++ ": " ++ error.

(** Lines 202-206: the pacing wait, skipped while [i] is 1.  The boolean
    tells whether the attempt goes on ([False]: [break]). *)
Definition pace (e : env) (i : nat) (w : worker) : option (bool * worker) :=
  if (1 <? i)%nat then
    do (ok, w1) <- _wait_for_rate_limit e w;
    if negb ok then Some (false, w1)
    else if is_cancelled e w1 then Some (false, w1)
    else Some (true, w1)
  else Some (true, w).

Definition output_path_for (e : env) (image_path : string) : string :=
  let image_name := fst (Path.splitext (Path.basename image_path)) in
  Path.join (output_dir e) (image_name ++ "_gemini.jpg").

(** Lines 207-215: the progress event and the call of the transformation,
    which takes [elapsed] and returns or raises. *)
Definition call_remover (e : env) (i total : nat) (image_path : string) (w : worker)
  : reply * worker :=
  let w2 := emit (Processing i total (Path.basename image_path)) w in
  let o := remover e (calls w2) in
  (answer o,
   sleep (elapsed o) (set_calls (S (calls w2))
     (emit (Dispatch image_path (output_path_for e image_path)) w2))).

(** The [while self.retry_count <= self.max_retries] loop of [run] for the
    [i]-th image; [None] when [fuel] iterations were not enough. *)
Fixpoint retry_loop (e : env) (fuel : nat) (i total : nat) (image_path : string)
    (w : worker) : option worker :=
  if negb (retry_count w <=? max_retries) then Some w
  else
    match fuel with
    | O => None
    | S fuel' =>
        do (go, w1) <- pace e i w;
        if negb go then Some w1
        else
          let '(r, w3) := call_remover e i total image_path w1 in
          match r with
          | Returned =>
              let output_path := output_path_for e image_path in
              Some (set_result image_path (Success output_path)
                      (emit (image_processed image_path output_path) w3))
          | Raised error =>
              if is_cancelled e w3 then Some w3
              else
                do (handled, w4) <- _handle_rate_limit_error e error image_path w3;
                if is_cancelled e w4 then Some w4
                else if handled then retry_loop e fuel' i total image_path w4
                else
                  Some (set_result image_path (Failure error)
                          (emit (error_occurred (failed_message image_path error) image_path) w4))
          end
    end.

(** The [for i, image_path in enumerate(self.image_paths, 1)] loop. *)
Fixpoint run_items (e : env) (i total : nat) (image_paths : list string) (w : worker)
  : option worker :=
  match image_paths with
  | [] => Some w
  | image_path :: rest =>
      if is_cancelled e w then Some w
      else
        do w1 <- retry_loop e (Z.to_nat (max_retries + 1)) i total image_path (set_retry_count 0 w);
        if is_cancelled e w1 then Some w1
        else run_items e (S i) total rest w1
  end.

(** The worker as [__init__] leaves it, started at time [start]. *)
Definition init (start : Z) : worker :=
  {| now := start; last_request_time := 0; retry_count := 0; calls := 0;
     results := ∅; trace := [] |}.

Definition run (e : env) (image_paths : list string) (start : Z) : option worker :=
  do w <- run_items e 1 (length image_paths) image_paths (init start);
  let w1 := emit Complete w in
  Some (emit (finished_all (results w1)) w1).

(** The calls of the external transformation in a trace: when, and for
    which image. *)
Definition dispatches (tr : list (Z * event)) : list (Z * string) :=
  omap (fun te => match te.2 with Dispatch p _ => Some (te.1, p) | _ => None end) tr.

Definition dispatch_times (tr : list (Z * event)) : list Z := (dispatches tr).*1.
Definition dispatched (tr : list (Z * event)) : list string := (dispatches tr).*2.

(** The backoff sleeps announced in a trace, in seconds. *)
Definition backoffs (tr : list (Z * event)) : list Z :=
  omap (fun te => match te.2 with Backoff b _ _ => Some b | _ => None end) tr.

(** The error events of a trace: message and image. *)
Definition errors (tr : list (Z * event)) : list (string * string) :=
  omap (fun te => match te.2 with error_occurred m p => Some (m, p) | _ => None end) tr.

(** Events that are neither a call, nor a backoff, nor an error. *)
Definition quiet (tr : list (Z * event)) : Prop :=
  dispatches tr = [] /\ backoffs tr = [] /\ errors tr = [].

(** Each time in [times] is at least [delay] after the one before it, and
    the first of them after [last]. *)
Fixpoint spaced (delay last : Z) (times : list Z) : Prop :=
  match times with
  | [] => True
  | t :: rest => last + delay <= t /\ spaced delay t rest
  end.

End Worker.

(** ** The folder scanner ([FolderScannerThread]) *)

Module Scanner.

(** A directory tree as [os.scandir] shows it: the entries of a directory
    in the order in which they are listed, files and directories (there are
    no symbolic links).  [Dir d None] is a directory whose listing fails
    with [OSError]. *)
#[warnings="-register-all"] Inductive node :=
| File (name : string)
| Dir (name : string) (listing : option (list node)).

(** The scanner's surroundings: [os.path.exists]; the flag [is_cancelled],
    whose reads number [cancel_after] and later return [True]; and the loop
    step, if any, in which an exception is raised inside the [try]. *)
Record env := {
  path_exists : string -> bool;
  cancel_after : option nat;
  fault_at : option nat
}.

Record scanner := {
  image_files : list string;
  already_processed : list (string * string);      (* (input, output) *)
  skipped_dir_count : nat;
  skipped_file_count : nat;
  already_processed_count : nat;
  reads : nat                                      (* reads of is_cancelled so far *)
}.

Inductive event :=
| files_found (image_files : list string)
| scan_finished (total : nat).

(** How a loop body ends: it goes on, it leaves the loop by [break], or it
    raises. *)
Inductive signal := Next | Break | Raise.

Definition init : scanner :=
  {| image_files := []; already_processed := []; skipped_dir_count := 0;
     skipped_file_count := 0; already_processed_count := 0; reads := 0 |}.

Definition add_skipped_dirs (k : nat) (sc : scanner) : scanner :=
  {| image_files := image_files sc; already_processed := already_processed sc;
     skipped_dir_count := skipped_dir_count sc + k;
     skipped_file_count := skipped_file_count sc;
     already_processed_count := already_processed_count sc; reads := reads sc |}.
Definition add_skipped_file (sc : scanner) : scanner :=
  {| image_files := image_files sc; already_processed := already_processed sc;
     skipped_dir_count := skipped_dir_count sc;
     skipped_file_count := skipped_file_count sc + 1;
     already_processed_count := already_processed_count sc; reads := reads sc |}.
Definition add_processed (full_path existing_result : string) (sc : scanner) : scanner :=
  {| image_files := image_files sc;
     already_processed := already_processed sc ++ [(full_path, existing_result)];
     skipped_dir_count := skipped_dir_count sc;
     skipped_file_count := skipped_file_count sc;
     already_processed_count := already_processed_count sc + 1; reads := reads sc |}.
Definition add_image (full_path : string) (sc : scanner) : scanner :=
  {| image_files := image_files sc ++ [full_path];
     already_processed := already_processed sc;
     skipped_dir_count := skipped_dir_count sc;
     skipped_file_count := skipped_file_count sc;
     already_processed_count := already_processed_count sc; reads := reads sc |}.
Definition bump_reads (sc : scanner) : scanner :=
  {| image_files := image_files sc; already_processed := already_processed sc;
     skipped_dir_count := skipped_dir_count sc;
     skipped_file_count := skipped_file_count sc;
     already_processed_count := already_processed_count sc; reads := S (reads sc) |}.

(** One read of [self.is_cancelled]. *)
Definition is_cancelled (e : env) (sc : scanner) : bool * scanner :=
  (match cancel_after e with Some n => (n <=? reads sc)%nat | None => false end,
   bump_reads sc).

(** Whether the loop step that made read number [k] raises. *)
Definition raises (e : env) (k : nat) : bool :=
  match fault_at e with Some n => (n =? k)%nat | None => false end.

(** The test of [_is_result_directory] on the lowered last component. *)
Definition is_result_name (name : string) : bool :=
  Str.endswith name "_gemini_results" || Str.contains "gemini_results" name.

Definition _is_result_directory (directory_path : string) : bool :=
  is_result_name (Str.lower (Path.basename (Str.rstrip_sep directory_path))).

(** For a name that is not ASCII the code may answer [True] where this
    answers [false], never the other way round: [str.lower] makes "gemini" of
    "GEMIN" and U+0130, which [Str.lower] leaves alone. *)
Definition _is_result_file (filename : string) : bool :=
  Str.contains "gemini" (Str.lower filename).

Definition image_extensions : list string :=
  [".jpg"; ".jpeg"; ".png"; ".bmp"; ".tiff"; ".tif"; ".webp"].

(** [any(file.lower().endswith(ext) for ext in image_extensions)] *)
Definition has_image_extension (file : string) : bool :=
  existsb (Str.endswith (Str.lower file)) image_extensions.

(** The candidate directories of [_find_existing_result].  The code keeps
    them in a set, whose iteration order is not fixed; here they are tried
    in the order in which they are added. *)
Definition candidate_dirs (image_path : string) : list string :=
  let image_dir := Path.dirname image_path in
  let image_name := fst (Path.splitext (Path.basename image_path)) in
  let parent_dir := Path.dirname image_dir in
  [image_dir; Path.join image_dir (image_name ++ "_gemini_results")]
  ++ (if Str.is_empty parent_dir then []
      else [Path.join parent_dir (Path.basename image_dir ++ "_gemini_results");
            Path.join parent_dir "gemini_results"]).

Definition output_extensions : list string := [".jpg"; ".jpeg"; ".png"; ".webp"].

Definition _find_existing_result (e : env) (image_path : string) : option string :=
  let image_name := fst (Path.splitext (Path.basename image_path)) in
  list_find (path_exists e)
    (directory ← filter (fun d => Str.is_empty d = false) (candidate_dirs image_path);
     (fun ext => Path.join directory (image_name ++ "_gemini") ++ ext) <$> output_extensions)
  ≫= fun found => Some found.2.

(** Lines 71-82: what the loop over [files] does with one file. *)
Definition scan_file (e : env) (root file : string) (sc : scanner) : scanner :=
  if _is_result_file file then add_skipped_file sc
  else if negb (has_image_extension file) then sc
  else
    let full_path := Path.join root file in
    match _find_existing_result e full_path with
    | Some existing_result => add_processed full_path existing_result sc
    | None => add_image full_path sc
    end.

(** Lines 68-82: [for file in files]. *)
Fixpoint scan_files (e : env) (root : string) (files : list string) (sc : scanner)
  : signal * scanner :=
  match files with
  | [] => (Next, sc)
  | file :: rest =>
      let '(cancelled, sc1) := is_cancelled e sc in
      if cancelled then (Break, sc1)
      else if raises e (reads sc) then (Raise, sc1)
      else scan_files e root rest (scan_file e root file sc1)
  end.

Definition dir_names (entries : list node) : list string :=
  omap (fun n => match n with Dir d _ => Some d | File _ => None end) entries.
Definition file_names (entries : list node) : list string :=
  omap (fun n => match n with File f => Some f | Dir _ _ => None end) entries.

(** The directories among [entries] that line 66 leaves in [dirs], each
    walked by [walk_child] at its own path, in order, until one of the
    walks ends the loop. *)
Fixpoint walk_dirs (walk_child : string -> node -> scanner -> signal * scanner)
    (root : string) (entries : list node) (sc : scanner) : signal * scanner :=
  match entries with
  | [] => (Next, sc)
  | File _ :: rest => walk_dirs walk_child root rest sc
  | (Dir d _ as child) :: rest =>
      if _is_result_directory (Path.join root d) then walk_dirs walk_child root rest sc
      else
        let '(s, sc') := walk_child (Path.join root d) child sc in
        match s with
        | Next => walk_dirs walk_child root rest sc'
        | _ => (s, sc')
        end
  end.

(** Lines 58-82: [for root, dirs, files in os.walk(...)], for the directory
    [n] at path [root] and everything below it.  [os.walk] lists a directory,
    yields it, and then walks the directories left in [dirs], in order; a
    directory it cannot list is passed over in silence ([onerror] is not
    given).  The signal is [Break] only for the [break] of line 60. *)
Fixpoint walk (e : env) (root : string) (n : node) (sc : scanner) {struct n}
  : signal * scanner :=
  match n with
  | File _ => (Next, sc)
  | Dir _ None => (Next, sc)
  | Dir _ (Some entries) =>
      let '(cancelled, sc1) := is_cancelled e sc in
      if cancelled then (Break, sc1)
      else if raises e (reads sc) then (Raise, sc1)
      else if _is_result_directory root then (Next, add_skipped_dirs 1 sc1)
      else
        let dirs := dir_names entries in
        let kept := filter (fun d => _is_result_directory (Path.join root d) = false) dirs in
        let sc2 := add_skipped_dirs (length dirs - length kept) sc1 in
        let '(s, sc3) := scan_files e root (file_names entries) sc2 in
        match s with
        | Raise => (Raise, sc3)
        | _ => walk_dirs (walk e) root entries sc3
        end
  end.

(** [run]: the events emitted, and [self.already_processed] afterwards.
    [top] is the directory at [folder_path]. *)
Definition run (e : env) (folder_path : string) (top : node)
  : list event * list (string * string) :=
  let '(s, sc) := walk e folder_path top init in
  match s with
  | Raise => ([scan_finished 0], already_processed sc)
  | _ =>
      if (is_cancelled e sc).1 then ([], already_processed sc)
      else ([files_found (image_files sc);
             scan_finished (length (image_files sc) + already_processed_count sc)],
            already_processed sc)
  end.

(** A name as a directory entry has it: not empty, without separator. *)
Definition name_ok (name : string) : bool :=
  negb (Str.is_empty name) && negb (Str.has_char "/" name).

Fixpoint names_ok (n : node) : bool :=
  match n with
  | File f => name_ok f
  | Dir d None => name_ok d
  | Dir d (Some entries) => name_ok d && forallb names_ok entries
  end.

(** The entries of a listed directory, and all below them, have such names. *)
Definition entries_ok (n : node) : bool :=
  match n with
  | Dir _ (Some entries) => forallb names_ok entries
  | _ => true
  end.

(** The path of the entry reached from [top] through the names [names]. *)
Definition descend (top : string) (names : list string) : string :=
  foldl Path.join top names.

(** A directory name that line 66 keeps. *)
Definition kept_dir (d : string) : Prop :=
  name_ok d = true /\ is_result_name (Str.lower d) = false.

(** [p] is a candidate file below [top]: an image file that is not a
    result file, reached through directories that are kept. *)
Definition candidate (top p : string) : Prop :=
  exists dirs file,
    p = descend top (dirs ++ [file])
    /\ Forall kept_dir dirs
    /\ name_ok file = true
    /\ _is_result_file file = false
    /\ has_image_extension file = true.

(** An entry is dropped if it is a directory that cannot be listed, and
    changed by [f] otherwise. *)
Definition keep_listed (f : node -> node) (child : node) : option node :=
  match child with
  | Dir _ None => None
  | _ => Some (f child)
  end.

(** The tree without the directories below the top that cannot be listed. *)
Fixpoint listable (n : node) : node :=
  match n with
  | File f => File f
  | Dir d None => Dir d None
  | Dir d (Some entries) => Dir d (Some (omap (keep_listed listable) entries))
  end.

(** An entry as [hollow] leaves it: a directory that line 66 drops at
    [root] loses its content, any other entry is changed by [f]. *)
Definition hollow_entry (f : string -> node -> node) (root : string) (child : node) : node :=
  match child with
  | File name => File name
  | Dir d listing =>
      if _is_result_directory (Path.join root d) then Dir d (Some [])
      else f (Path.join root d) child
  end.

(** The tree at [root] with every results directory below it emptied. *)
Fixpoint hollow (root : string) (n : node) : node :=
  match n with
  | File f => File f
  | Dir d None => Dir d None
  | Dir d (Some entries) => Dir d (Some (map (hollow_entry hollow root) entries))
  end.

(** Two states of the scanner that differ at most in [skipped_dir_count],
    which is counted and never used. *)
Definition alike (sc sc' : scanner) : Prop :=
  image_files sc = image_files sc'
  /\ already_processed sc = already_processed sc'
  /\ skipped_file_count sc = skipped_file_count sc'
  /\ already_processed_count sc = already_processed_count sc'
  /\ reads sc = reads sc'.

(** [p] is in one of the scanner's two lists. *)
Definition reported (p : string) (sc : scanner) : Prop :=
  p ∈ image_files sc \/ p ∈ (already_processed sc).*1.

(** The two lists hold what [_find_existing_result] says, and the count
    of the second list is its length. *)
Definition classified (e : env) (sc : scanner) : Prop :=
  already_processed_count sc = length (already_processed sc)
  /\ (forall p, p ∈ image_files sc -> _find_existing_result e p = None)
  /\ (forall p r, (p, r) ∈ already_processed sc -> _find_existing_result e p = Some r).

(** The walk has come to the directory [n] at [root] from [top] through
    directories that are kept. *)
Definition entered (top root : string) (n : node) : Prop :=
  entries_ok n = true
  /\ exists dirs, root = descend top dirs /\ Forall kept_dir dirs.

(** Induction on a tree, with the property at hand for every entry of a
    listed directory. *)
Section node_induction.
Variable P : node -> Prop.
Hypothesis file_case : forall f, P (File f).
Hypothesis unlisted_case : forall d, P (Dir d None).
Hypothesis listed_case : forall d entries, Forall P entries -> P (Dir d (Some entries)).

Fixpoint node_induction (n : node) : P n :=
  match n with
  | File f => file_case f
  | Dir d None => unlisted_case d
  | Dir d (Some entries) =>
      listed_case d entries
        ((fix all (l : list node) : Forall P l :=
            match l with
            | [] => @List.Forall_nil node P
            | x :: l' => @List.Forall_cons node P x l' (node_induction x) (all l')
            end) entries)
  end.
End node_induction.

End Scanner.

(** ** The consumer of a scan ([GeminiSkyRemovalGUI.on_folder_scanned]) *)

Module Consumer.

(** [{path: result for path, result in already_processed
      if path and result and os.path.exists(result)}] *)
Definition processed_map (path_exists : string -> bool)
    (already_processed : list (string * string)) : gmap string string :=
  foldl (fun m pr =>
           if negb (Str.is_empty pr.1) && negb (Str.is_empty pr.2) && path_exists pr.2
           then <[pr.1 := pr.2]> m else m)
        ∅ already_processed.

(** [sorted(...)] on strings: by code point, as [String.le]. *)
Definition sorted (l : list string) : list string := merge_sort String.le l.

(** The pair [(self.pre_existing_results, self.input_files)] it leaves. *)
Definition on_folder_scanned (path_exists : string -> bool)
    (already_processed : list (string * string)) (image_files : list string)
  : gmap string string * list string :=
  let processed := processed_map path_exists already_processed in
  let pending_files :=
    sorted (filter (fun path => processed !! path = None) image_files) in
  (processed, pending_files).

End Consumer.

(** ** Sample runs *)

Module Samples.

(** A worker started at a present-day clock value (in ms). *)
Definition start : Z := 1700000000000.

Definition succeeds : Worker.outcome :=
  {| Worker.elapsed := 1000; Worker.answer := Worker.Returned |}.
Definition throttled : Worker.outcome :=
  {| Worker.elapsed := 1000; Worker.answer := Worker.Raised "HTTP 429 Too Many Requests" |}.

(** The free tier (6 s between requests); every call succeeds after 1 s. *)
Definition all_succeed : Worker.env :=
  {| Worker.rate_limit_delay := 6000; Worker.output_dir := "/out";
     Worker.remover := fun _ => succeeds; Worker.cancel_at := None |}.

(** Every call is answered with a rate-limit error. *)
Definition all_throttled : Worker.env :=
  {| Worker.rate_limit_delay := 6000; Worker.output_dir := "/out";
     Worker.remover := fun _ => throttled; Worker.cancel_at := None |}.

(** The first four calls are answered with a rate-limit error. *)
Definition throttled_at_first : Worker.env :=
  {| Worker.rate_limit_delay := 6000; Worker.output_dir := "/out";
     Worker.remover := fun n => if (n <? 4)%nat then throttled else succeeds;
     Worker.cancel_at := None |}.

(** The first call is answered with a rate-limit error, every later one
    succeeds. *)
Definition throttled_once : Worker.env :=
  {| Worker.rate_limit_delay := 6000; Worker.output_dir := "/out";
     Worker.remover := fun n => if (n <? 1)%nat then throttled else succeeds;
     Worker.cancel_at := None |}.

Definition broken : Worker.outcome :=
  {| Worker.elapsed := 1000; Worker.answer := Worker.Raised "Invalid image data" |}.

(** The first call is answered with a rate-limit error, every later one
    with an error of another kind. *)
Definition throttled_then_broken : Worker.env :=
  {| Worker.rate_limit_delay := 6000; Worker.output_dir := "/out";
     Worker.remover := fun n => if (n <? 1)%nat then throttled else broken;
     Worker.cancel_at := None |}.

(** The run is cancelled 10 s after its start, during the first backoff. *)
Definition cancelled_in_backoff : Worker.env :=
  {| Worker.rate_limit_delay := 6000; Worker.output_dir := "/out";
     Worker.remover := fun _ => throttled; Worker.cancel_at := Some (start + 10000) |}.

(** The run is cancelled 4 s after its start, during the pacing wait before
    the third item. *)
Definition cancelled_in_wait : Worker.env :=
  {| Worker.rate_limit_delay := 6000; Worker.output_dir := "/out";
     Worker.remover := fun _ => succeeds; Worker.cancel_at := Some (start + 4000) |}.

(** A folder of photos with results of an earlier run beside them. *)
Definition photos : Scanner.node :=
  Scanner.Dir "photos"
    (Some [Scanner.File "b.jpg"; Scanner.File "a.PNG"; Scanner.File "notes.txt";
           Scanner.File "x_gemini.jpg"; Scanner.File "Gemini_shot.png";
           Scanner.Dir "sub"
             (Some [Scanner.File "c.jpeg"; Scanner.Dir "locked" None;
                    Scanner.Dir "deep" (Some [Scanner.File "d.webp"])]);
           Scanner.Dir "photos_gemini_results"
             (Some [Scanner.File "b.jpg"; Scanner.File "zz.png"]);
           Scanner.Dir "old_GEMINI_RESULTS_2" (Some [Scanner.File "q.png"])]).

(** One photo and a directory that cannot be listed. *)
Definition with_locked : Scanner.node :=
  Scanner.Dir "photos" (Some [Scanner.File "a.jpg"; Scanner.Dir "locked" None]).

(** The only output on disk. *)
Definition on_disk (p : string) : bool :=
  String.eqb p "/data/photos/sub/c_gemini_results/c_gemini.png".

Definition quiet_scan : Scanner.env :=
  {| Scanner.path_exists := on_disk; Scanner.cancel_after := None;
     Scanner.fault_at := None |}.

(** [stop()] is called before the fourth read of the flag. *)
Definition stopped_scan : Scanner.env :=
  {| Scanner.path_exists := on_disk; Scanner.cancel_after := Some 3%nat;
     Scanner.fault_at := None |}.

(** Something raises in the ninth step of the loops. *)
Definition failing_scan : Scanner.env :=
  {| Scanner.path_exists := on_disk; Scanner.cancel_after := None;
     Scanner.fault_at := Some 8%nat |}.

End Samples.

(** ** Files in a scanned tree *)

Module Tree.
Import Scanner.

(** Whether the directory [n] lists, through the directories named [dirs]
    one in the other, a file named [file]. *)
Fixpoint holds (dirs : list string) (file : string) (n : node) : bool :=
  match n with
  | Dir _ (Some entries) =>
      match dirs with
      | [] =>
          existsb (fun child => match child with
                                | File f => String.eqb f file
                                | Dir _ _ => false
                                end) entries
      | d :: rest =>
          existsb (fun child => match child with
                                | Dir d' _ => String.eqb d' d && holds rest file child
                                | File _ => false
                                end) entries
      end
  | _ => false
  end.

(** The scanner has put [p] in the list that [_find_existing_result]
    tells. *)
Definition filed (e : env) (p : string) (sc : scanner) : Prop :=
  match _find_existing_result e p with
  | Some r => (p, r) ∈ already_processed sc
  | None => p ∈ image_files sc
  end.

End Tree.

(** ** The finder of the command line ([SkyRemovalMethods]) *)

Module Methods.
Import Scanner.

(** [for root, dirs, files in os.walk(directory)]: the image files of the
    directory [n] at [root] and of all below it, in the order of the walk. *)
Fixpoint find_walk (root : string) (n : node) {struct n} : list string :=
  match n with
  | Dir _ (Some entries) =>
      ((Path.join root
        <$> filter (fun file => has_image_extension file = true) (file_names entries))
       ++ (fix below (children : list node) : list string :=
             match children with
             | [] => []
             | File _ :: rest => below rest
             | (Dir d _ as child) :: rest =>
                 (find_walk (Path.join root d) child ++ below rest)%list
             end) entries)%list
  | _ => []
  end.

(** [find_images_recursive] *)
Definition find_images_recursive (directory : string) (top : node) : list string :=
  Consumer.sorted (find_walk directory top).

End Methods.

(** ** Python dicts whose order is observed *)

Module Dict.

(** The items of a dict with [str] keys, in insertion order. *)
Definition t (V : Type) : Type := list (string * V).

(** [d.get(k)] *)
Fixpoint get {V} (k : string) (d : t V) : option V :=
  match d with
  | [] => None
  | (k', v) :: rest => if String.eqb k' k then Some v else get k rest
  end.

(** [d[k] = v]: a key of [d] keeps its place, a new key goes last. *)
Fixpoint set {V} (k : string) (v : V) (d : t V) : t V :=
  match d with
  | [] => [(k, v)]
  | (k', v') :: rest =>
      if String.eqb k' k then (k', v) :: rest else (k', v') :: set k v rest
  end.

(** [del d[k]], for a key of [d]. *)
Definition del {V} (k : string) (d : t V) : t V :=
  filter (fun kv => kv.1 <> k) d.

(** [list(d.keys())] *)
Definition keys {V} (d : t V) : list string := d.*1.

(** [k in d] *)
Definition mem {V} (k : string) (d : t V) : bool :=
  match get k d with Some _ => true | None => false end.

End Dict.

(** ** The prompt processor ([PromptProcessor]) *)

Module Prompt.

(** [c.isspace()] for an ASCII character: the white space of [str.strip]
    and of [\s]. *)
Definition is_space (c : ascii) : bool :=
  let n := nat_of_ascii c in
  ((9 <=? n)%nat && (n <=? 13)%nat) || ((28 <=? n)%nat && (n <=? 32)%nat).

(** [s.lstrip()] *)
Fixpoint lstrip (s : string) : string :=
  match s with
  | EmptyString => EmptyString
  | String c rest => if is_space c then lstrip rest else s
  end.

(** [s.rstrip()] *)
Fixpoint rstrip (s : string) : string :=
  match s with
  | EmptyString => EmptyString
  | String c rest =>
      let r := rstrip rest in
      if Str.is_empty r && is_space c then EmptyString else String c r
  end.

(** [s.strip()] *)
Definition strip (s : string) : string := rstrip (lstrip s).

(** [re.sub(r'\s+', ' ', s)]: every run of white space becomes one space. *)
Fixpoint collapse (s : string) : string :=
  match s with
  | EmptyString => EmptyString
  | String c rest =>
      if is_space c then
        match rest with
        | EmptyString => String " " EmptyString
        | String d _ => if is_space d then collapse rest else String " " (collapse rest)
        end
      else String c (collapse rest)
  end.

(** [s[:n]], for any integer [n]. *)
Definition slice_to (n : Z) (s : string) : string :=
  let len := Z.of_nat (String.length s) in
  let stop := if n <? 0 then Z.max 0 (len + n) else Z.min n len in
  substring 0 (Z.to_nat stop) s.

(** [s.endswith(('.', '!', '?'))] *)
Definition ends_sentence (s : string) : bool :=
  Str.endswith s "." || Str.endswith s "!" || Str.endswith s "?".

(** [_optimize_prompt], where [max_length] is
    [self.settings.get('max_prompt_length', 500)]. *)
Definition _optimize_prompt (max_length : Z) (prompt : string) : string :=
  let prompt1 :=
    if max_length <? Z.of_nat (String.length prompt)
    then slice_to (max_length - 3) prompt ++ "..."
    else prompt in
  let prompt2 := collapse (strip prompt1) in
  if negb (ends_sentence prompt2) then prompt2 ++ "." else prompt2.

(** Whether [s] begins with white space. *)
Definition starts_space (s : string) : bool :=
  match s with
  | EmptyString => false
  | String c _ => is_space c
  end.

(** Whether every white space character of [s] is a space that another
    character, not white space, follows. *)
Fixpoint single_spaced (s : string) : bool :=
  match s with
  | EmptyString => true
  | String c rest =>
      if is_space c then Ascii.eqb c " " && negb (Str.is_empty rest)
                         && negb (starts_space rest) && single_spaced rest
      else single_spaced rest
  end.

(** No white space at the ends of [s], and only single spaces inside. *)
Definition tidy (s : string) : bool := negb (starts_space s) && single_spaced s.

(** What [get_prompt] reads of the processor: for each prompt type the
    ['prompt'] entry of its data, if it has one, and two settings, each with
    the default that [settings.get] gives it. *)
Record processor := {
  prompts_data : gmap string (option string);
  enable_optimization : bool;
  max_prompt_length : Z
}.

(** [get_prompt(prompt_type)], called without template variables; [None]
    is the [KeyError] of a processor that has no ['default'] prompt. *)
Definition get_prompt (pp : processor) (prompt_type : string) : option string :=
  let prompt_type :=
    match prompts_data pp !! prompt_type with
    | Some _ => prompt_type
    | None => "default"
    end in
  match prompts_data pp !! prompt_type with
  | None => None
  | Some prompt_data =>
      let prompt := default "" prompt_data in
      Some (if enable_optimization pp then _optimize_prompt (max_prompt_length pp) prompt
            else prompt)
  end.

End Prompt.

(** ** The main window ([GeminiSkyRemovalGUI]) *)

Module Window.

(** One step of the dict comprehension of [on_folder_scanned], as
    [Consumer.processed_map] takes it. *)
Definition keep_result (path_exists : string -> bool) (m : gmap string string)
    (pr : string * string) : gmap string string :=
  if negb (Str.is_empty pr.1) && negb (Str.is_empty pr.2) && path_exists pr.2
  then <[pr.1 := pr.2]> m else m.

(** The radio button of the API tier that is checked. *)
Inductive tier := Free | Tier1 | Tier3.

(** [self.tiers[...]["delay"]], in ms. *)
Definition delay (t : tier) : Z :=
  match t with
  | Tier3 => 1000
  | Tier1 => 2000
  | Free => 6000
  end.

(** What [start_processing] reads of the widgets. *)
Record controls := {
  api_status : bool;
  auto_save : bool;                 (* self.auto_save.isChecked() *)
  file_list : list string;          (* the items of self.file_list *)
  current_preset : string;          (* self.preset_combo.currentText() *)
  prompt_edit : string;             (* self.prompt_edit.toPlainText() *)
  checked_tier : tier;
  prompt_processor : option Prompt.processor
}.

(** The window's surroundings: [os.path.exists], [os.getcwd()], and
    whether [os.makedirs(d, exist_ok=True)] succeeds. *)
Record env := {
  path_exists : string -> bool;
  getcwd : string;
  makedirs : string -> bool
}.

(** The dicts the window keeps about images.  The trees and labels that
    show them, and the thumbnail cache, are written along and never read
    here. *)
Record state := {
  pre_existing_results : Dict.t string;
  failed_inputs : Dict.t string;
  output_files : gmap string string
}.

Definition set_failed_inputs (f : Dict.t string) (st : state) : state :=
  {| pre_existing_results := pre_existing_results st; failed_inputs := f;
     output_files := output_files st |}.
Definition set_output_files (o : gmap string string) (st : state) : state :=
  {| pre_existing_results := pre_existing_results st; failed_inputs := failed_inputs st;
     output_files := o |}.

(** The arguments of [ProcessingWorker(...)]. *)
Record launch := {
  image_paths : list string;
  output_dir : string;
  prompt_type : string;
  custom_prompt : option string;    (* prompt_kwargs.get("custom_prompt") *)
  rate_limit_delay : Z
}.

Definition add_result_to_tree (input_path output_path : string) (st : state) : state :=
  set_output_files (<[input_path := output_path]> (output_files st)) st.

(** [del self.failed_inputs[p]] if [p] is a key. *)
Definition forget_failure (input_path : string) (st : state) : state :=
  if Dict.mem input_path (failed_inputs st)
  then set_failed_inputs (Dict.del input_path (failed_inputs st)) st
  else st.

(** [get_expected_output_path]; [output_dir] is [None] or a string. *)
Definition get_expected_output_path (e : env) (image_path : string)
    (output_dir : option string) : string :=
  let image_name := fst (Path.splitext (Path.basename image_path)) in
  match output_dir with
  | Some d =>
      if negb (Str.is_empty d) then Path.join d (image_name ++ "_gemini.jpg")
      else Path.join (getcwd e) (image_name ++ "_gemini.jpg")
  | None =>
      let default_dir :=
        Path.join (Path.dirname image_path) (image_name ++ "_gemini_results") in
      Path.join default_dir (image_name ++ "_gemini.jpg")
  end.

(** [filter_existing_outputs]: the pair [(pending, skipped)]. *)
Definition filter_existing_outputs (e : env) (image_paths : list string)
    (output_dir : option string) : list string * list (string * string) :=
  foldl (fun (acc : list string * list (string * string)) image_path =>
           let expected_output := get_expected_output_path e image_path output_dir in
           if negb (Str.is_empty expected_output) && path_exists e expected_output
           then (acc.1, (acc.2 ++ [(image_path, expected_output)])%list)
           else ((acc.1 ++ [image_path])%list, acc.2))
        ([], []) image_paths.

(** [list(dict.fromkeys(l))]: the first occurrences, in order. *)
Definition fromkeys (l : list string) : list string :=
  foldl (fun (keys : list string) k => if bool_decide (k ∈ keys) then keys else (keys ++ [k])%list) [] l.

(** Line 469: [list(dict.fromkeys(path for path in image_paths if path))]. *)
Definition given_paths (image_paths : list string) : list string :=
  fromkeys (filter (fun path => Str.is_empty path = false) image_paths).

(** Lines 474-482: the output directory of a run that saves by itself,
    for a list that is not empty. *)
Definition auto_output_dir (image_paths : list string) : string :=
  match image_paths with
  | [image_path] =>
      let input_dir := Path.dirname image_path in
      let input_filename := fst (Path.splitext (Path.basename image_path)) in
      Path.join input_dir (input_filename ++ "_gemini_results")
  | _ =>
      let input_dirs : gset string := list_to_set (Path.dirname <$> image_paths) in
      match elements input_dirs with
      | [input_dir] =>
          Path.join (Path.dirname input_dir) (Path.basename input_dir ++ "_gemini_results")
      | _ =>
          let first_input_dir := Path.dirname (default "" (head image_paths)) in
          Path.join (Path.dirname first_input_dir) "gemini_results"
      end
  end.

Definition preset_to_type : list (string * string) :=
  [("Default Sky Removal", "default"); ("Conservative Mode", "conservative");
   ("Aggressive Sky Removal", "aggressive");
   ("Building Preservation", "building_preservation");
   ("Urban Scene Focus", "urban_scene"); ("Custom Template", "custom_template")].

(** Lines 484-495: the prompt type and the custom prompt, if any. *)
Definition chosen_prompt (c : controls) : string * option string :=
  let prompt_type := default "default" (Dict.get (current_preset c) preset_to_type) in
  let current_prompt_text := Prompt.strip (prompt_edit c) in
  let default_prompt :=
    match prompt_processor c with
    | Some pp => default "" (Prompt.get_prompt pp prompt_type)
    | None => ""
    end in
  if negb (String.eqb current_prompt_text default_prompt)
     && negb (Str.is_empty current_prompt_text)
  then ("custom", Some current_prompt_text)
  else (prompt_type, None).

(** [load_preset_prompt], called when the preset [preset_name] is chosen:
    the text of the prompt editor becomes the prompt of the preset, if the
    processor gives one.  The editor gives back the text it is set to. *)
Definition load_preset_prompt (preset_name : string) (c : controls) : controls :=
  match prompt_processor c with
  | None => c
  | Some pp =>
      let prompt_type := default "default" (Dict.get preset_name preset_to_type) in
      match Prompt.get_prompt pp prompt_type with
      | Some prompt =>
          {| api_status := api_status c; auto_save := auto_save c;
             file_list := file_list c; current_preset := current_preset c;
             prompt_edit := prompt; checked_tier := checked_tier c;
             prompt_processor := prompt_processor c |}
      | None => c
      end
  end.

(** [clear_results] *)
Definition clear_results (st : state) : state :=
  {| pre_existing_results := pre_existing_results st; failed_inputs := [];
     output_files := ∅ |}.

(** [restore_preexisting_results] *)
Definition restore_preexisting_results (e : env) (st : state) : state :=
  foldl (fun st item =>
           let '(input_path, output_path) := item in
           if Str.is_empty output_path || negb (path_exists e output_path) then st
           else if bool_decide (output_files st !! input_path = Some output_path) then st
           else add_result_to_tree input_path output_path st)
        st (pre_existing_results st).

(** Lines 501-508: what is done with the outputs that are skipped. *)
Definition skip_outputs (skipped_outputs : list (string * string)) (st : state) : state :=
  foldl (fun st item =>
           let '(input_path, output_path) := item in
           let st1 := forget_failure input_path st in
           match output_files st1 !! input_path with
           | Some _ => st1
           | None => add_result_to_tree input_path output_path st1
           end)
        st skipped_outputs.

(** [start_processing(image_paths=..., preserve_outputs=...)]: the window's
    dicts afterwards, and the worker that is started, if one is. *)
Definition start_processing (e : env) (c : controls) (image_paths : option (list string))
    (preserve_outputs : bool) (st : state) : state * option launch :=
  if negb (api_status c) then (st, None)
  else
    let image_paths :=
      match image_paths with
      | None => file_list c
      | Some given => given_paths given
      end in
    match image_paths with
    | [] => (st, None)
    | _ =>
        let output_dir := if auto_save c then Some (auto_output_dir image_paths) else None in
        if match output_dir with Some d => negb (makedirs e d) | None => false end
        then (st, None)
        else
          let '(prompt_type, custom_prompt) := chosen_prompt c in
          let st1 :=
            if preserve_outputs then st
            else restore_preexisting_results e (clear_results st) in
          let '(pending_paths, skipped_outputs) :=
            filter_existing_outputs e image_paths output_dir in
          let st2 := skip_outputs skipped_outputs st1 in
          match pending_paths with
          | [] => (st2, None)
          | _ =>
              (st2,
               Some {| image_paths := pending_paths;
                       output_dir := default "" output_dir;
                       prompt_type := prompt_type;
                       custom_prompt := custom_prompt;
                       rate_limit_delay := delay (checked_tier c) |})
          end
    end.

(** Lines 373-376: one failed image is put with those that are there or
    with those that are not, and its entry is deleted in the latter case. *)
Definition sort_one (e : env) (acc : list string * list string * Dict.t string)
    (path : string) : list string * list string * Dict.t string :=
  let '(existing, missing, failed) := acc in
  if path_exists e path then ((existing ++ [path])%list, missing, failed)
  else (existing, (missing ++ [path])%list, Dict.del path failed).

(** Lines 371-376: [(existing, missing)] and [self.failed_inputs]
    afterwards. *)
Definition sort_failed (e : env) (failed : Dict.t string)
  : list string * list string * Dict.t string :=
  foldl (sort_one e) ([], [], failed) (Dict.keys failed).

(** [retry_failed_images] *)
Definition retry_failed_images (e : env) (c : controls) (st : state)
  : state * option launch :=
  match failed_inputs st with
  | [] => (st, None)
  | _ =>
      let '(existing, missing, failed) := sort_failed e (failed_inputs st) in
      let st1 := set_failed_inputs failed st in
      match existing with
      | [] => (st1, None)
      | _ => start_processing e c (Some existing) true st1
      end
  end.

(** The slot [add_result], connected to [image_processed]. *)
Definition add_result (input_path output_path : string) (st : state) : state :=
  forget_failure input_path (add_result_to_tree input_path output_path st).

(** The slot [handle_error], connected to [error_occurred]. *)
Definition handle_error (error_msg image_path : string) (st : state) : state :=
  set_failed_inputs (Dict.set image_path error_msg (failed_inputs st)) st.

(** [r.get("success", False)] *)
Definition succeeded (r : Worker.entry) : bool :=
  match r with Worker.Success _ => true | Worker.Failure _ => false end.

(** The slot [processing_finished]: [(success_count, total_count)]. *)
Definition processing_finished (results : gmap string Worker.entry) : nat * nat :=
  (length (filter (fun kr => succeeded kr.2 = true) (map_to_list results)), size results).

(** What a signal of the worker does to the window's dicts. *)
Definition deliver (ev : Worker.event) (st : state) : state :=
  match ev with
  | Worker.image_processed input_path output_path => add_result input_path output_path st
  | Worker.error_occurred error_msg image_path => handle_error error_msg image_path st
  | _ => st
  end.

(** The signals of a trace, delivered in order. *)
Definition replay (tr : list (Z * Worker.event)) (st : state) : state :=
  foldl (fun st te => deliver te.2 st) st tr.

(** The dicts [st'] show what [results] holds, and what [st] showed for
    the images that have no entry. *)
Definition shows (results : gmap string Worker.entry) (st st' : state) : Prop :=
  forall p,
    match results !! p with
    | Some (Worker.Success output_path) =>
        output_files st' !! p = Some output_path
        /\ Dict.get p (failed_inputs st') = None
    | Some (Worker.Failure error) =>
        Dict.get p (failed_inputs st') = Some (Worker.failed_message p error)
    | None =>
        output_files st' !! p = output_files st !! p
        /\ Dict.get p (failed_inputs st') = Dict.get p (failed_inputs st)
    end.

(** The worker's surroundings and its list for a [launch]. *)
Definition worker_env (l : launch) (remover : nat -> Worker.outcome) (cancel_at : option Z)
  : Worker.env :=
  {| Worker.rate_limit_delay := rate_limit_delay l; Worker.output_dir := output_dir l;
     Worker.remover := remover; Worker.cancel_at := cancel_at |}.

End Window.

(** ** A sample window *)

Module Desk.

(** One preset prompt, with white space to spare. *)
Definition processor : Prompt.processor :=
  {| Prompt.prompts_data :=
       {[ "default" := Some "  Remove the sky   and keep the  buildings " ]};
     Prompt.enable_optimization := true;
     Prompt.max_prompt_length := 500 |}.

(** Two photos of one folder are listed; the results are saved by the
    window itself, at the pace of tier 1. *)
Definition controls : Window.controls :=
  {| Window.api_status := true; Window.auto_save := true;
     Window.file_list := ["/data/photos/a.PNG"; "/data/photos/b.jpg"];
     Window.current_preset := "Default Sky Removal";
     Window.prompt_edit := "";
     Window.checked_tier := Window.Tier1;
     Window.prompt_processor := Some processor |}.

(** The second photo, and the output of an earlier run for the first. *)
Definition disk : Window.env :=
  {| Window.path_exists := fun p =>
       String.eqb p "/data/photos/b.jpg"
       || String.eqb p "/data/photos_gemini_results/a_gemini.jpg";
     Window.getcwd := "/home/user";
     Window.makedirs := fun _ => true |}.

(** Every file asked for is there. *)
Definition full_disk : Window.env :=
  {| Window.path_exists := fun _ => true; Window.getcwd := "/home/user";
     Window.makedirs := fun _ => true |}.

(** Both photos failed in an earlier run. *)
Definition state : Window.state :=
  {| Window.pre_existing_results := [];
     Window.failed_inputs :=
       [("/data/photos/a.PNG", "Failed to process a.PNG: boom");
        ("/data/photos/b.jpg", "Failed to process b.jpg: boom")];
     Window.output_files := ∅ |}.

End Desk.

(** ** Paths and strings at work *)

Example basename_ex : Path.basename "/data/photos/a.JPG" = "a.JPG".
Proof. reflexivity. Qed.
Example dirname_ex : Path.dirname "/data/photos/a.JPG" = "/data/photos".
Proof. reflexivity. Qed.
Example dirname_root_ex : Path.dirname "/a.JPG" = "/".
Proof. reflexivity. Qed.
Example splitext_ex : Path.splitext "/data/pho.tos/a.b.JPG" = ("/data/pho.tos/a.b", ".JPG").
Proof. reflexivity. Qed.
Example splitext_dot_ex : Path.splitext "/data/pho.tos/.bashrc" = ("/data/pho.tos/.bashrc", "").
Proof. reflexivity. Qed.
Example join_ex : Path.join "/data" "x" = "/data/x" /\ Path.join "/data/" "x" = "/data/x"
  /\ Path.join "" "x" = "x" /\ Path.join "/data" "/x" = "/x".
Proof. repeat split; reflexivity. Qed.
Example lower_ex : Str.lower "Rate LIMIT 429 [Z]@" = "rate limit 429 [z]@".
Proof. reflexivity. Qed.

(** * The processing worker: pacing, retries, cancellation *)

Module WorkerProofs.
Import Worker.

Lemma filter_none {A} (P : A -> Prop) `{!forall x, Decision (P x)} (l : list A) :
  (forall x, x ∈ l -> ~ P x) -> filter P l = [].
Proof.
  induction l as [|x l IH]; intros Hl; [done|].
  rewrite filter_cons_False by (apply Hl; left).
  apply IH. intros y Hy. apply Hl. by right.
Qed.

Section worker_facts.
Variable e : env.

Lemma sleep_loop_spec fuel end_time poll w :
  0 < poll ->
  end_time - now w <= Z.of_nat fuel * poll ->
  now w <= end_time ->
  exists t,
    sleep_loop e fuel end_time poll w = Some (set_now t w)
    /\ now w <= t <= end_time
    /\ (cancelled_at e t = false -> t = end_time).
Proof.
  intros Hpoll. revert w.
  induction fuel as [|fuel IH]; intros w Hfuel Hle; simpl sleep_loop;
    unfold is_cancelled.
  - destruct (cancelled_at e (now w)) eqn:Hc.
    + exists (now w). destruct w; simpl in *. split; [done|]. split; [lia|congruence].
    + destruct (Z.leb_spec (end_time - now w) 0) as [H0|H0]; [|simpl in Hfuel; lia].
      exists (now w). destruct w; simpl in *. split; [done|]. split; lia.
  - destruct (cancelled_at e (now w)) eqn:Hc.
    + exists (now w). destruct w; simpl in *. split; [done|]. split; [lia|congruence].
    + destruct (Z.leb_spec (end_time - now w) 0) as [H0|H0].
      * exists (now w). destruct w; simpl in *. split; [done|]. split; lia.
      * destruct (IH (sleep (Z.min poll (end_time - now w)) w)) as (t & Ht & Hr & Hn).
        { simpl. rewrite Nat2Z.inj_succ in Hfuel. nia. }
        { simpl. lia. }
        exists t. split.
        { rewrite Ht. destruct w; reflexivity. }
        split; [simpl in Hr; lia | done].
Qed.

Lemma sleep_with_cancel_skip total message poll w :
  total <= 0 -> _sleep_with_cancel e total message poll w = Some (true, w).
Proof.
  intros H. unfold _sleep_with_cancel.
  destruct (Z.leb_spec total 0); [done | lia].
Qed.

Lemma sleep_with_cancel_spec total m poll w :
  0 < poll -> 0 < total ->
  exists t,
    _sleep_with_cancel e total (Some m) poll w
      = Some (negb (cancelled_at e t), set_now t (emit m w))
    /\ now w <= t <= now w + total
    /\ (cancelled_at e t = false -> t = now w + total).
Proof.
  intros Hpoll Htot. unfold _sleep_with_cancel.
  destruct (Z.leb_spec total 0); [lia|].
  destruct (sleep_loop_spec (S (Z.to_nat (total / poll))) (now (emit m w) + total)
              poll (emit m w) Hpoll) as (t & Ht & Hr & Hn).
  - rewrite Nat2Z.inj_succ, Z2Nat.id by (apply Z.div_pos; lia).
    pose proof (Z.mul_succ_div_gt total poll Hpoll). lia.
  - lia.
  - exists t. rewrite Ht. simpl in *. auto.
Qed.

Lemma quiet_nil : quiet [].
Proof. done. Qed.

Lemma quiet_app a b : quiet a -> quiet b -> quiet (a ++ b).
Proof.
  unfold quiet, dispatches, backoffs, errors.
  intros (Ha1&Ha2&Ha3) (Hb1&Hb2&Hb3). rewrite !omap_app, Ha1, Ha2, Ha3, Hb1, Hb2, Hb3. done.
Qed.

Lemma wait_for_rate_limit_spec w :
  exists b w' new,
    _wait_for_rate_limit e w = Some (b, w')
    /\ trace w' = (trace w ++ new)%list /\ quiet new
    /\ calls w' = calls w /\ results w' = results w /\ retry_count w' = retry_count w
    /\ (b = true -> last_request_time w' = now w'
                    /\ last_request_time w + rate_limit_delay e <= now w')
    /\ (b = false -> is_cancelled e w' = true)
    /\ (cancel_at e = None -> b = true).
Proof.
  unfold _wait_for_rate_limit.
  destruct (Z.ltb_spec (now w - last_request_time w) (rate_limit_delay e)) as [Hlt|Hge].
  - destruct (sleep_with_cancel_spec
                (rate_limit_delay e - (now w - last_request_time w))
                (RateLimitWait (rate_limit_delay e - (now w - last_request_time w)))
                200 w) as (t & -> & Hr & Hn); [lia..|].
    destruct (cancelled_at e t) eqn:Hc; simpl.
    + eexists false, _, _. split; [done|]. simpl.
      split_and!; try done. unfold cancelled_at in Hc. intros Hnone.
      by rewrite Hnone in Hc.
    + eexists true, _, _. split; [done|]. simpl.
      split_and!; try done. lia.
  - eexists true, _, []. split; [done|]. simpl. rewrite app_nil_r.
    split_and!; try done. lia.
Qed.

Lemma pace_spec i w :
  exists b w' new,
    pace e i w = Some (b, w')
    /\ trace w' = (trace w ++ new)%list /\ quiet new
    /\ calls w' = calls w /\ results w' = results w /\ retry_count w' = retry_count w
    /\ (b = true -> is_cancelled e w = false -> is_cancelled e w' = false)
    /\ (b = true -> (1 < i)%nat ->
          last_request_time w' = now w'
          /\ last_request_time w + rate_limit_delay e <= now w')
    /\ (b = true -> (i <= 1)%nat -> w' = w)
    /\ (b = false -> is_cancelled e w' = true)
    /\ (cancel_at e = None -> b = true).
Proof.
  unfold pace. destruct (Nat.ltb_spec 1 i) as [Hi|Hi].
  - destruct (wait_for_rate_limit_spec w)
      as (b & w' & new & -> & Htr & Hq & Hc & Hres & Hrc & Ht & Hf & Hn).
    destruct b; simpl.
    + destruct (is_cancelled e w') eqn:Hcan.
      * eexists false, w', new. split_and!; try done.
        intros Hnone. unfold is_cancelled, cancelled_at in Hcan. by rewrite Hnone in Hcan.
      * eexists true, w', new. split_and!; try done; [intros; by apply Ht | intros; lia].
    + eexists false, w', new. split_and!; try done.
  - eexists true, w, []. rewrite app_nil_r. split_and!; try done; lia.
Qed.

Lemma dispatches_app a b : dispatches (a ++ b) = (dispatches a ++ dispatches b)%list.
Proof. apply omap_app. Qed.
Lemma backoffs_app a b : backoffs (a ++ b) = (backoffs a ++ backoffs b)%list.
Proof. apply omap_app. Qed.
Lemma errors_app a b : errors (a ++ b) = (errors a ++ errors b)%list.
Proof. apply omap_app. Qed.

Lemma handle_permanent error image_path w :
  is_rate_limit_error error = false ->
  _handle_rate_limit_error e error image_path w = Some (false, w).
Proof. intros H. unfold _handle_rate_limit_error. by rewrite H. Qed.

Lemma handle_exhausted error image_path w :
  is_rate_limit_error error = true ->
  max_retries < retry_count w + 1 ->
  _handle_rate_limit_error e error image_path w
  = Some (false, emit (error_occurred exhausted_message image_path)
                   (set_retry_count (retry_count w + 1) w)).
Proof.
  intros H Hrc. unfold _handle_rate_limit_error. rewrite H. simpl.
  destruct (Z.leb_spec (retry_count w + 1) max_retries); [lia | done].
Qed.

Lemma handle_backoff error image_path w :
  is_rate_limit_error error = true ->
  0 <= retry_count w -> retry_count w + 1 <= max_retries ->
  exists t,
    _handle_rate_limit_error e error image_path w
    = Some (negb (cancelled_at e t),
            set_now t (emit (Backoff (30 * 2 ^ retry_count w) (retry_count w + 1) max_retries)
                         (set_retry_count (retry_count w + 1) w)))
    /\ now w <= t <= now w + 1000 * (30 * 2 ^ retry_count w)
    /\ (cancelled_at e t = false -> t = now w + 1000 * (30 * 2 ^ retry_count w)).
Proof.
  intros H H0 Hrc. unfold _handle_rate_limit_error. rewrite H. simpl.
  destruct (Z.leb_spec (retry_count w + 1) max_retries); [|lia].
  replace (retry_count w + 1 - 1) with (retry_count w) by lia.
  assert (0 < 2 ^ retry_count w) by (apply Z.pow_pos_nonneg; lia).
  destruct (sleep_with_cancel_spec (1000 * (30 * 2 ^ retry_count w))
              (Backoff (30 * 2 ^ retry_count w) (retry_count w + 1) max_retries) 500
              (set_retry_count (retry_count w + 1) w)) as (t & -> & Hr & Hn); [lia..|].
  exists t. simpl in *. split; [by destruct (cancelled_at e t)|]. done.
Qed.

(** What [_handle_rate_limit_error] leaves alone, whatever the error. *)
Lemma handle_frame error image_path w :
  0 <= retry_count w ->
  exists b w' new,
    _handle_rate_limit_error e error image_path w = Some (b, w')
    /\ trace w' = (trace w ++ new)%list /\ dispatches new = []
    /\ (forall m p, (m, p) ∈ errors new -> p = image_path)
    /\ calls w' = calls w /\ results w' = results w
    /\ (b = true -> retry_count w' = retry_count w + 1 /\ retry_count w' <= max_retries)
    /\ last_request_time w' = last_request_time w.
Proof.
  intros H0. destruct (is_rate_limit_error error) eqn:Herr.
  - destruct (Z.le_gt_cases (retry_count w + 1) max_retries) as [Hle|Hgt].
    + destruct (handle_backoff error image_path w Herr H0 Hle) as (t & -> & _).
      eexists _, _, _. split; [done|]. simpl. split_and!; try done.
      intros ?? Hin. inversion Hin.
    + rewrite handle_exhausted by (done || lia).
      eexists _, _, _. split; [done|]. simpl. split_and!; try done.
      intros ?? Hin. apply list_elem_of_singleton in Hin. by inversion Hin.
  - rewrite handle_permanent by done.
    eexists _, _, []. split; [done|]. rewrite app_nil_r. split_and!; try done.
    intros ?? Hin. inversion Hin.
Qed.

Lemma call_remover_spec i total image_path w :
  exists w',
    call_remover e i total image_path w = (answer (remover e (calls w)), w')
    /\ trace w' = (trace w ++ [(now w, Processing i total (Path.basename image_path));
                               (now w, Dispatch image_path (output_path_for e image_path))])%list
    /\ calls w' = S (calls w) /\ results w' = results w
    /\ retry_count w' = retry_count w
    /\ last_request_time w' = last_request_time w
    /\ now w' = now w + elapsed (remover e (calls w)).
Proof.
  eexists. split; [reflexivity|]. simpl. rewrite <- app_assoc. done.
Qed.

Lemma retry_loop_S fuel i total image_path w :
  retry_loop e (S fuel) i total image_path w =
  if negb (retry_count w <=? max_retries) then Some w
  else
    match pace e i w with
    | None => None
    | Some (go, w1) =>
        if negb go then Some w1
        else
          let '(r, w3) := call_remover e i total image_path w1 in
          match r with
          | Returned =>
              Some (set_result image_path (Success (output_path_for e image_path))
                      (emit (image_processed image_path (output_path_for e image_path)) w3))
          | Raised error =>
              if is_cancelled e w3 then Some w3
              else
                match _handle_rate_limit_error e error image_path w3 with
                | None => None
                | Some (handled, w4) =>
                    if is_cancelled e w4 then Some w4
                    else if handled then retry_loop e fuel i total image_path w4
                    else
                      Some (set_result image_path (Failure error)
                              (emit (error_occurred (failed_message image_path error)
                                       image_path) w4))
                end
          end
    end.
Proof. reflexivity. Qed.

(** One item, whatever happens: the loop ends; it calls the transformation
    only for its own image and only while the flag is unset; it reports
    errors only for its own image; it touches no other entry of [results],
    and none at all without a call. *)
Lemma retry_loop_advances fuel i total image_path w :
  0 <= retry_count w ->
  max_retries + 1 - retry_count w <= Z.of_nat fuel ->
  is_cancelled e w = false ->
  exists w' new,
    retry_loop e fuel i total image_path w = Some w'
    /\ trace w' = (trace w ++ new)%list
    /\ (forall t p, (t, p) ∈ dispatches new -> cancelled_at e t = false /\ p = image_path)
    /\ (forall m p, (m, p) ∈ errors new -> p = image_path)
    /\ calls w' = (calls w + length (dispatches new))%nat
    /\ (forall q, q <> image_path -> results w' !! q = results w !! q)
    /\ (dispatches new = [] -> results w' = results w).
Proof.
  revert w. induction fuel as [|fuel IH]; intros w H0 Hfuel Hcan.
  { simpl retry_loop.
    destruct (Z.leb_spec (retry_count w) max_retries); simpl; [unfold max_retries in *; lia|].
    exists w, []. rewrite app_nil_r. split_and!; try done; intros ?? Hin; inversion Hin. }
  rewrite retry_loop_S.
  destruct (Z.leb_spec (retry_count w) max_retries) as [Hrc|Hrc]; cbn [negb].
  2:{ exists w, []. rewrite app_nil_r. split_and!; try done; intros ?? Hin; inversion Hin. }
  destruct (pace_spec i w)
    as (go & w1 & new1 & -> & Htr1 & (Hd1 & _ & He1) & Hc1 & Hres1 & Hrc1 & Hcan1 & _).
  destruct go; cbn [negb].
  2:{ exists w1, new1. rewrite Hd1, He1. split_and!; try done.
      - intros ?? Hin. inversion Hin.
      - intros ?? Hin. inversion Hin.
      - simpl. lia.
      - intros. by rewrite Hres1. }
  specialize (Hcan1 eq_refl Hcan).
  destruct (call_remover_spec i total image_path w1)
    as (w3 & -> & Htr3 & Hc3 & Hres3 & Hrc3 & _ & _).
  set (mid := [(now w1, Processing i total (Path.basename image_path));
               (now w1, Dispatch image_path (output_path_for e image_path))]) in *.
  assert (Hmid : dispatches mid = [(now w1, image_path)]) by done.
  assert (Hemid : errors mid = []) by done.
  assert (Hdisp : forall rest, dispatches rest = [] ->
            forall t p, (t, p) ∈ dispatches (new1 ++ mid ++ rest)
            -> cancelled_at e t = false /\ p = image_path).
  { intros rest Hrest t p. rewrite !dispatches_app, Hd1, Hrest, Hmid. simpl.
    intros Hin. apply list_elem_of_singleton in Hin. by inversion Hin; subst. }
  assert (Herrs : forall rest, (forall m p, (m, p) ∈ errors rest -> p = image_path) ->
            forall m p, (m, p) ∈ errors (new1 ++ mid ++ rest) -> p = image_path).
  { intros rest Hrest m p. rewrite !errors_app, He1, Hemid. simpl. apply Hrest. }
  assert (Hlen : forall rest, dispatches rest = [] ->
            length (dispatches (new1 ++ mid ++ rest)) = 1%nat).
  { intros rest Hrest. by rewrite !dispatches_app, Hd1, Hrest, Hmid. }
  assert (Hne : forall rest, dispatches (new1 ++ mid ++ rest) <> []).
  { intros rest. rewrite !dispatches_app, Hd1, Hmid. simpl. done. }
  destruct (answer (remover e (calls w1))) as [|error].
  - exists (set_result image_path (Success (output_path_for e image_path))
              (emit (image_processed image_path (output_path_for e image_path)) w3)),
      (new1 ++ mid ++ [(now w3, image_processed image_path (output_path_for e image_path))])%list.
    split; [done|]. cbn [calls results trace now set_result emit]. split_and!.
    + rewrite Htr3, Htr1. by rewrite <- !app_assoc.
    + by apply Hdisp.
    + apply Herrs. intros ?? Hin. inversion Hin.
    + rewrite Hlen by done. lia.
    + intros q Hq. rewrite lookup_insert_ne by done. by rewrite Hres3, Hres1.
    + intros Hnil. by apply Hne in Hnil.
  - destruct (is_cancelled e w3) eqn:Hcan3.
    { exists w3, (new1 ++ mid ++ [])%list. split; [done|]. split_and!.
      + rewrite Htr3, Htr1. by rewrite app_nil_r, <- !app_assoc.
      + by apply Hdisp.
      + apply Herrs. intros ?? Hin. inversion Hin.
      + rewrite Hlen by done. lia.
      + intros. by rewrite Hres3, Hres1.
      + intros Hnil. by apply Hne in Hnil. }
    destruct (handle_frame error image_path w3)
      as (handled & w4 & new4 & -> & Htr4 & Hd4 & He4 & Hc4 & Hres4 & Hrc4 & _); [lia|].
    destruct (is_cancelled e w4) eqn:Hcan4.
    { exists w4, (new1 ++ mid ++ new4)%list. split; [done|]. split_and!.
      + rewrite Htr4, Htr3, Htr1. by rewrite <- !app_assoc.
      + by apply Hdisp.
      + by apply Herrs.
      + rewrite Hlen by done. lia.
      + intros. by rewrite Hres4, Hres3, Hres1.
      + intros Hnil. by apply Hne in Hnil. }
    destruct handled.
    + destruct (Hrc4 eq_refl) as [Hrc4a Hrc4b].
      destruct (IH w4) as (w' & new' & -> & Htr' & Hd' & He' & Hc' & Hres' & _);
        [lia | rewrite Nat2Z.inj_succ in Hfuel; lia | done |].
      exists w', (new1 ++ mid ++ (new4 ++ new'))%list. split; [done|]. split_and!.
      * rewrite Htr', Htr4, Htr3, Htr1. by rewrite <- !app_assoc.
      * intros t p. rewrite !dispatches_app, Hd1, Hd4, Hmid. simpl.
        intros Hin. apply elem_of_cons in Hin as [Heq|Hin]; [by inversion Heq; subst|].
        by apply Hd'.
      * apply Herrs. intros m p. rewrite errors_app.
        intros Hin. apply elem_of_app in Hin as [Hin|Hin]; [by eapply He4 | by eapply He'].
      * rewrite !dispatches_app, Hd1, Hd4, Hmid. simpl. lia.
      * intros q Hq. rewrite Hres' by done. by rewrite Hres4, Hres3, Hres1.
      * intros Hnil. by apply Hne in Hnil.
    + exists (set_result image_path (Failure error)
                (emit (error_occurred (failed_message image_path error) image_path) w4)),
        (new1 ++ mid ++ (new4 ++ [(now w4, error_occurred (failed_message image_path error)
                                               image_path)]))%list.
      split; [done|]. cbn [calls results trace now set_result emit]. split_and!.
      * rewrite Htr4, Htr3, Htr1. by rewrite <- !app_assoc.
      * apply Hdisp. by rewrite dispatches_app, Hd4.
      * apply Herrs. intros m p. rewrite errors_app.
        intros Hin. apply elem_of_app in Hin as [Hin|Hin]; [by eapply He4|].
        apply list_elem_of_singleton in Hin. by inversion Hin.
      * rewrite Hlen by (by rewrite dispatches_app, Hd4). lia.
      * intros q Hq. rewrite lookup_insert_ne by done. by rewrite Hres4, Hres3, Hres1.
      * intros Hnil. by apply Hne in Hnil.
Qed.

Lemma run_items_cons i total image_path rest w :
  run_items e i total (image_path :: rest) w =
  if is_cancelled e w then Some w
  else
    match retry_loop e (Z.to_nat (max_retries + 1)) i total image_path
            (set_retry_count 0 w) with
    | None => None
    | Some w1 => if is_cancelled e w1 then Some w1 else run_items e (S i) total rest w1
    end.
Proof. reflexivity. Qed.

(** The whole list, whatever happens. *)
Lemma run_items_advances i total image_paths w :
  exists w' new,
    run_items e i total image_paths w = Some w'
    /\ trace w' = (trace w ++ new)%list
    /\ (forall t p, (t, p) ∈ dispatches new -> cancelled_at e t = false /\ p ∈ image_paths)
    /\ (forall m p, (m, p) ∈ errors new -> p ∈ image_paths)
    /\ (forall q, q ∉ (dispatches new).*2 -> results w' !! q = results w !! q).
Proof.
  revert i w. induction image_paths as [|image_path rest IH]; intros i w.
  { exists w, []. rewrite app_nil_r. split_and!; try done; intros ?? Hin; inversion Hin. }
  rewrite run_items_cons.
  destruct (is_cancelled e w) eqn:Hcan.
  { exists w, []. rewrite app_nil_r. split_and!; try done; intros ?? Hin; inversion Hin. }
  destruct (retry_loop_advances (Z.to_nat (max_retries + 1)) i total image_path
              (set_retry_count 0 w))
    as (w1 & new1 & -> & Htr1 & Hd1 & He1 & _ & Hres1 & Hnil1); [done..|].
  cbn [trace results set_retry_count] in *.
  assert (Hkeep : forall q, q ∉ (dispatches new1).*2 -> results w1 !! q = results w !! q).
  { intros q Hq. destruct (dispatches new1) as [|[t p] ds] eqn:Hds.
    - by rewrite Hnil1.
    - apply Hres1. intros ->. apply Hq.
      destruct (Hd1 t p) as [_ ->]; [left|]. simpl. left. }
  destruct (is_cancelled e w1) eqn:Hcan1.
  { exists w1, new1. split; [done|]. split_and!; try done.
    - intros t p Hin. destruct (Hd1 t p Hin) as [? ->]. split; [done | left].
    - intros m p Hin. rewrite (He1 m p Hin). left. }
  destruct (IH (S i) w1) as (w2 & new2 & -> & Htr2 & Hd2 & He2 & Hres2).
  exists w2, (new1 ++ new2)%list. split; [done|]. split_and!.
  - rewrite Htr2, Htr1. by rewrite <- app_assoc.
  - intros t p. rewrite dispatches_app. intros Hin.
    apply elem_of_app in Hin as [Hin|Hin].
    + destruct (Hd1 t p Hin) as [? ->]. split; [done | left].
    + destruct (Hd2 t p Hin). split; [done | by right].
  - intros m p. rewrite errors_app. intros Hin.
    apply elem_of_app in Hin as [Hin|Hin].
    + rewrite (He1 m p Hin). left.
    + right. by eapply He2.
  - intros q. rewrite dispatches_app, fmap_app. intros Hq.
    rewrite Hres2, Hkeep; [done|..]; intros Hin; apply Hq, elem_of_app; auto.
Qed.

Lemma never_cancelled w : cancel_at e = None -> is_cancelled e w = false.
Proof. intros H. unfold is_cancelled, cancelled_at. by rewrite H. Qed.

(** One iteration of the retry loop when nothing cancels the run: the
    pacing wait, the call, and what the call answered. *)
Lemma retry_iteration fuel i total image_path w :
  cancel_at e = None ->
  retry_count w <= max_retries ->
  exists w3 new,
    quiet new
    /\ trace w3 = (trace w ++ new
                     ++ [(now w3 - elapsed (remover e (calls w)),
                          Processing i total (Path.basename image_path));
                         (now w3 - elapsed (remover e (calls w)),
                          Dispatch image_path (output_path_for e image_path))])%list
    /\ calls w3 = S (calls w) /\ results w3 = results w
    /\ retry_count w3 = retry_count w
    /\ retry_loop e (S fuel) i total image_path w =
       match answer (remover e (calls w)) with
       | Returned =>
           Some (set_result image_path (Success (output_path_for e image_path))
                   (emit (image_processed image_path (output_path_for e image_path)) w3))
       | Raised error =>
           match _handle_rate_limit_error e error image_path w3 with
           | None => None
           | Some (handled, w4) =>
               if handled then retry_loop e fuel i total image_path w4
               else
                 Some (set_result image_path (Failure error)
                         (emit (error_occurred (failed_message image_path error)
                                  image_path) w4))
           end
       end.
Proof.
  intros Hnone Hrc. rewrite retry_loop_S.
  destruct (Z.leb_spec (retry_count w) max_retries); [|lia]. cbn [negb].
  destruct (pace_spec i w)
    as (go & w1 & new1 & -> & Htr1 & Hq1 & Hc1 & Hres1 & Hrc1 & _ & _ & _ & _ & Hgo).
  rewrite (Hgo Hnone). cbn [negb].
  destruct (call_remover_spec i total image_path w1)
    as (w3 & -> & Htr3 & Hc3 & Hres3 & Hrc3 & _ & Hnow3).
  exists w3, new1. rewrite Hc1 in *. split; [done|]. split_and!.
  - rewrite Htr3, Htr1, <- app_assoc.
    by replace (now w3 - elapsed (remover e (calls w))) with (now w1) by lia.
  - lia.
  - congruence.
  - congruence.
  - destruct (answer (remover e (calls w))) as [|error]; [done|].
    rewrite (never_cancelled w3 Hnone).
    destruct (_handle_rate_limit_error e error image_path w3) as [[handled w4]|]; [|done].
    by rewrite (never_cancelled w4 Hnone).
Qed.

Lemma retry_step_backoff fuel i total image_path w d :
  cancel_at e = None ->
  0 <= retry_count w -> retry_count w + 1 <= max_retries ->
  answer (remover e (calls w)) = Raised d -> is_rate_limit_error d = true ->
  exists w4 new,
    retry_loop e (S fuel) i total image_path w = retry_loop e fuel i total image_path w4
    /\ trace w4 = (trace w ++ new)%list
    /\ backoffs new = [30 * 2 ^ retry_count w] /\ errors new = []
    /\ (dispatches new).*2 = [image_path]
    /\ calls w4 = S (calls w) /\ results w4 = results w
    /\ retry_count w4 = retry_count w + 1.
Proof.
  intros Hnone H0 Hrc Hans Herr.
  destruct (retry_iteration fuel i total image_path w Hnone)
    as (w3 & new & (Hq1 & Hq2 & Hq3) & Htr & Hc & Hres & Hrc3 & ->); [lia|].
  rewrite Hans.
  destruct (handle_backoff d image_path w3 Herr) as (t & -> & _ & _); [lia..|].
  unfold cancelled_at. rewrite Hnone. cbn [negb].
  eexists _, _. split; [done|]. cbn [trace calls results retry_count set_now emit set_retry_count].
  rewrite Htr, <- !app_assoc. split; [done|].
  rewrite !backoffs_app, !errors_app, !dispatches_app, Hq1, Hq2, Hq3, Hrc3. done.
Qed.

Lemma retry_step_exhausted fuel i total image_path w d :
  cancel_at e = None ->
  retry_count w = max_retries ->
  answer (remover e (calls w)) = Raised d -> is_rate_limit_error d = true ->
  exists w' new,
    retry_loop e (S fuel) i total image_path w = Some w'
    /\ trace w' = (trace w ++ new)%list
    /\ backoffs new = []
    /\ errors new = [(exhausted_message, image_path);
                      (failed_message image_path d, image_path)]
    /\ (dispatches new).*2 = [image_path]
    /\ calls w' = S (calls w)
    /\ results w' = <[image_path := Failure d]> (results w).
Proof.
  intros Hnone Hrc Hans Herr.
  destruct (retry_iteration fuel i total image_path w Hnone)
    as (w3 & new & (Hq1 & Hq2 & Hq3) & Htr & Hc & Hres & Hrc3 & ->); [lia|].
  rewrite Hans, handle_exhausted by (done || lia).
  eexists _, _. split; [done|]. cbn [trace calls results retry_count set_result emit set_retry_count].
  rewrite Htr, <- !app_assoc. split; [done|].
  rewrite !backoffs_app, !errors_app, !dispatches_app, Hq1, Hq2, Hq3, Hres. done.
Qed.

Lemma retry_step_permanent fuel i total image_path w d :
  cancel_at e = None ->
  retry_count w <= max_retries ->
  answer (remover e (calls w)) = Raised d -> is_rate_limit_error d = false ->
  exists w' new,
    retry_loop e (S fuel) i total image_path w = Some w'
    /\ trace w' = (trace w ++ new)%list
    /\ backoffs new = []
    /\ errors new = [(failed_message image_path d, image_path)]
    /\ (dispatches new).*2 = [image_path]
    /\ calls w' = S (calls w)
    /\ results w' = <[image_path := Failure d]> (results w).
Proof.
  intros Hnone Hrc Hans Herr.
  destruct (retry_iteration fuel i total image_path w Hnone)
    as (w3 & new & (Hq1 & Hq2 & Hq3) & Htr & Hc & Hres & Hrc3 & ->); [lia|].
  rewrite Hans, handle_permanent by done.
  eexists _, _. split; [done|]. cbn [trace calls results retry_count set_result emit].
  rewrite Htr, <- !app_assoc. split; [done|].
  rewrite !backoffs_app, !errors_app, !dispatches_app, Hq1, Hq2, Hq3, Hres. done.
Qed.

Lemma retry_step_success fuel i total image_path w :
  cancel_at e = None ->
  retry_count w <= max_retries ->
  answer (remover e (calls w)) = Returned ->
  exists w' new,
    retry_loop e (S fuel) i total image_path w = Some w'
    /\ trace w' = (trace w ++ new)%list
    /\ backoffs new = [] /\ errors new = []
    /\ (dispatches new).*2 = [image_path]
    /\ calls w' = S (calls w)
    /\ results w' = <[image_path := Success (output_path_for e image_path)]> (results w).
Proof.
  intros Hnone Hrc Hans.
  destruct (retry_iteration fuel i total image_path w Hnone)
    as (w3 & new & (Hq1 & Hq2 & Hq3) & Htr & Hc & Hres & Hrc3 & ->); [lia|].
  rewrite Hans.
  eexists _, _. split; [done|]. cbn [trace calls results retry_count set_result emit].
  rewrite Htr, <- !app_assoc. split; [done|].
  rewrite !backoffs_app, !errors_app, !dispatches_app, Hq1, Hq2, Hq3, Hres. done.
Qed.

(** Four rate-limit errors in a row on one item. *)
Lemma four_rate_limit_errors i total image_path w d :
  cancel_at e = None ->
  retry_count w = 0 ->
  (forall k, (k < 4)%nat ->
     answer (remover e (calls w + k)) = Raised (d k) /\ is_rate_limit_error (d k) = true) ->
  exists w' new,
    retry_loop e 4 i total image_path w = Some w'
    /\ trace w' = (trace w ++ new)%list
    /\ backoffs new = [30; 60; 120]
    /\ errors new = [(exhausted_message, image_path);
                      (failed_message image_path (d 3%nat), image_path)]
    /\ (dispatches new).*2 = [image_path; image_path; image_path; image_path]
    /\ calls w' = (calls w + 4)%nat
    /\ results w' = <[image_path := Failure (d 3%nat)]> (results w).
Proof.
  intros Hnone Hrc Hd.
  destruct (Hd 0%nat) as [Ha0 He0]; [lia|]. rewrite Nat.add_0_r in Ha0.
  destruct (retry_step_backoff 3 i total image_path w (d 0%nat))
    as (w1 & n1 & -> & Ht1 & Hb1 & He1 & Hd1 & Hc1 & Hr1 & Hrc1);
    [done | unfold max_retries; lia.. | done | done |].
  destruct (Hd 1%nat) as [Ha1 He1']; [lia|].
  replace (calls w + 1)%nat with (calls w1) in Ha1 by lia.
  destruct (retry_step_backoff 2 i total image_path w1 (d 1%nat))
    as (w2 & n2 & -> & Ht2 & Hb2 & He2 & Hd2 & Hc2 & Hr2 & Hrc2);
    [done | unfold max_retries; lia.. | done | done |].
  destruct (Hd 2%nat) as [Ha2 He2']; [lia|].
  replace (calls w + 2)%nat with (calls w2) in Ha2 by lia.
  destruct (retry_step_backoff 1 i total image_path w2 (d 2%nat))
    as (w3 & n3 & -> & Ht3 & Hb3 & He3 & Hd3 & Hc3 & Hr3 & Hrc3);
    [done | unfold max_retries; lia.. | done | done |].
  destruct (Hd 3%nat) as [Ha3 He3']; [lia|].
  replace (calls w + 3)%nat with (calls w3) in Ha3 by lia.
  destruct (retry_step_exhausted 0 i total image_path w3 (d 3%nat))
    as (w4 & n4 & -> & Ht4 & Hb4 & He4 & Hd4 & Hc4 & Hr4);
    [done | unfold max_retries; lia | done | done |].
  exists w4, (n1 ++ n2 ++ n3 ++ n4)%list. split; [done|]. split_and!.
  - rewrite Ht4, Ht3, Ht2, Ht1. by rewrite <- !app_assoc.
  - rewrite !backoffs_app, Hb1, Hb2, Hb3, Hb4, Hrc2, Hrc1, Hrc. done.
  - rewrite !errors_app, He1, He2, He3, He4. done.
  - rewrite !dispatches_app, !fmap_app, Hd1, Hd2, Hd3, Hd4. done.
  - lia.
  - rewrite Hr4, Hr3, Hr2, Hr1. done.
Qed.

(** One item from any point of its retry loop, with nothing cancelling the
    run: [k] rate-limit errors, each answered by its backoff, and then the
    call that settles the item.  A rate-limit error settles it only when the
    budget of [m] retries is spent. *)
Lemma retry_loop_course (m : nat) : forall fuel i total image_path w,
  cancel_at e = None ->
  0 <= retry_count w -> retry_count w + Z.of_nat m = max_retries ->
  (m < fuel)%nat ->
  exists w' new (k : nat),
    retry_loop e fuel i total image_path w = Some w'
    /\ trace w' = (trace w ++ new)%list
    /\ (k <= m)%nat
    /\ (forall j, (j < k)%nat ->
          exists d, answer (remover e (calls w + j)) = Raised d
                    /\ is_rate_limit_error d = true)
    /\ match answer (remover e (calls w + k)) with
       | Returned => True
       | Raised d => is_rate_limit_error d = true -> k = m
       end
    /\ backoffs new = (fun j => 30 * 2 ^ (retry_count w + Z.of_nat j)) <$> seq 0 k
    /\ (dispatches new).*2 = replicate (S k) image_path
    /\ results w'
       = <[image_path := match answer (remover e (calls w + k)) with
                         | Returned => Success (output_path_for e image_path)
                         | Raised d => Failure d
                         end]> (results w).
Proof.
  induction m as [|m IH]; intros fuel i total image_path w Hnone H0 Hrc Hfuel;
    (destruct fuel as [|fuel]; [lia|]);
    destruct (answer (remover e (calls w))) as [|d] eqn:Hans.
  - destruct (retry_step_success fuel i total image_path w)
      as (w' & new & -> & Htr & Hb & He & Hdis & _ & Hres); [done | lia | done |].
    exists w', new, 0%nat. rewrite Nat.add_0_r, Hans.
    split_and!; try done; try lia; try congruence; intros j Hj; lia.
  - destruct (is_rate_limit_error d) eqn:Herr.
    + destruct (retry_step_exhausted fuel i total image_path w d)
        as (w' & new & -> & Htr & Hb & He & Hdis & _ & Hres); [done | lia | done | done |].
      exists w', new, 0%nat. rewrite Nat.add_0_r, Hans.
      split_and!; try done; try lia; try congruence; intros j Hj; lia.
    + destruct (retry_step_permanent fuel i total image_path w d)
        as (w' & new & -> & Htr & Hb & He & Hdis & _ & Hres); [done | lia | done | done |].
      exists w', new, 0%nat. rewrite Nat.add_0_r, Hans.
      split_and!; try done; try lia; try congruence; intros j Hj; lia.
  - destruct (retry_step_success fuel i total image_path w)
      as (w' & new & -> & Htr & Hb & He & Hdis & _ & Hres); [done | lia | done |].
    exists w', new, 0%nat. rewrite Nat.add_0_r, Hans.
    split_and!; try done; try lia; try congruence; intros j Hj; lia.
  - destruct (is_rate_limit_error d) eqn:Herr.
    + destruct (retry_step_backoff fuel i total image_path w d)
        as (w1 & n1 & -> & Ht1 & Hb1 & He1 & Hd1 & Hc1 & Hr1 & Hrc1);
        [done | lia | lia | done | done |].
      destruct (IH fuel i total image_path w1)
        as (w' & new & k & -> & Htr & Hk & Hd & Hlast & Hb & Hdis & Hres);
        [done | lia | lia | lia |].
      replace (calls w1 + k)%nat with (calls w + S k)%nat in Hlast, Hres by lia.
      exists w', (n1 ++ new)%list, (S k). split; [done|]. split_and!.
      * rewrite Htr, Ht1. by rewrite <- app_assoc.
      * lia.
      * intros [|j] Hj.
        { rewrite Nat.add_0_r. eauto. }
        replace (calls w + S j)%nat with (calls w1 + j)%nat by lia. apply Hd. lia.
      * destruct (answer (remover e (calls w + S k))); [done|].
        intros Hrl. by rewrite (Hlast Hrl).
      * rewrite backoffs_app, Hb1, Hb. cbn [seq fmap list_fmap app].
        rewrite Z.add_0_r. f_equal. rewrite <- seq_shift, <- list_fmap_compose.
        apply list_fmap_ext. intros _ j _. simpl. f_equal. f_equal. lia.
      * rewrite dispatches_app, fmap_app, Hd1, Hdis. done.
      * by rewrite Hres, Hr1.
    + destruct (retry_step_permanent fuel i total image_path w d)
        as (w' & new & -> & Htr & Hb & He & Hdis & _ & Hres); [done | lia | done | done |].
      exists w', new, 0%nat. rewrite Nat.add_0_r, Hans.
      split_and!; try done; try lia; try congruence; intros j Hj; lia.
Qed.

Lemma run_items_app i total before after w :
  cancel_at e = None ->
  run_items e i total (before ++ after) w =
  match run_items e i total before w with
  | Some w0 => run_items e (i + length before) total after w0
  | None => None
  end.
Proof.
  intros Hnone. revert i w. induction before as [|p before IH]; intros i w.
  { simpl. by rewrite Nat.add_0_r. }
  rewrite <- app_comm_cons, !run_items_cons, (never_cancelled w Hnone).
  destruct (retry_loop e (Z.to_nat (max_retries + 1)) i total p (set_retry_count 0 w))
    as [w1|]; [|done].
  rewrite (never_cancelled w1 Hnone), IH. simpl length.
  by rewrite Nat.add_succ_r.
Qed.

(** With nothing cancelling the run, an item that may still be tried is
    handed to the transformation at least once. *)
Lemma retry_loop_dispatches_once fuel i total image_path w :
  cancel_at e = None ->
  0 <= retry_count w <= max_retries ->
  max_retries + 1 - retry_count w <= Z.of_nat fuel ->
  exists w' new,
    retry_loop e fuel i total image_path w = Some w'
    /\ trace w' = (trace w ++ new)%list
    /\ (1 <= length (dispatches new))%nat.
Proof.
  intros Hnone Hrc Hfuel. destruct fuel as [|fuel]; [simpl in Hfuel; lia|].
  destruct (retry_iteration fuel i total image_path w Hnone)
    as (w3 & new & (Hq1 & Hq2 & Hq3) & Htr & Hc & Hres & Hrc3 & ->); [lia|].
  set (mid := [(now w3 - elapsed (remover e (calls w)),
                Processing i total (Path.basename image_path));
               (now w3 - elapsed (remover e (calls w)),
                Dispatch image_path (output_path_for e image_path))]) in *.
  assert (Hlen : forall rest, (1 <= length (dispatches (new ++ mid ++ rest)))%nat).
  { intros rest. rewrite !dispatches_app, Hq1, !length_app. simpl. lia. }
  destruct (answer (remover e (calls w))) as [|error].
  - exists (set_result image_path (Success (output_path_for e image_path))
              (emit (image_processed image_path (output_path_for e image_path)) w3)),
      (new ++ mid ++ [(now w3, image_processed image_path (output_path_for e image_path))])%list.
    split; [done|]. cbn [trace set_result emit]. split; [|done].
    rewrite Htr. by rewrite <- !app_assoc.
  - destruct (handle_frame error image_path w3)
      as (handled & w4 & new4 & -> & Htr4 & Hd4 & He4 & Hc4 & Hres4 & Hrc4 & _); [lia|].
    destruct handled.
    + destruct (Hrc4 eq_refl) as [Hrc4a Hrc4b].
      destruct (retry_loop_advances fuel i total image_path w4)
        as (w' & new' & -> & Htr' & _);
        [lia | rewrite Nat2Z.inj_succ in Hfuel; lia | by apply never_cancelled |].
      exists w', (new ++ mid ++ (new4 ++ new'))%list. split; [done|]. split; [|done].
      rewrite Htr', Htr4, Htr. by rewrite <- !app_assoc.
    + exists (set_result image_path (Failure error)
                (emit (error_occurred (failed_message image_path error) image_path) w4)),
        (new ++ mid ++ (new4 ++ [(now w4, error_occurred (failed_message image_path error)
                                              image_path)]))%list.
      split; [done|]. cbn [trace set_result emit]. split; [|done].
      rewrite Htr4, Htr. by rewrite <- !app_assoc.
Qed.

Lemma last_cons_default (t : Z) (l : list Z) (d : Z) : List.last (t :: l) d = List.last l t.
Proof.
  revert t d. induction l as [|x l IH]; intros t d; [done|].
  change (List.last (t :: x :: l) d) with (List.last (x :: l) d). by rewrite !IH.
Qed.

Lemma last_app_default (a b : list Z) (d : Z) :
  List.last (a ++ b) d = List.last b (List.last a d).
Proof.
  revert d. induction a as [|t a IH]; intros d; [done|].
  rewrite <- app_comm_cons, !last_cons_default. apply IH.
Qed.

Lemma spaced_app delay last a b :
  spaced delay last (a ++ b) <-> spaced delay last a /\ spaced delay (List.last a last) b.
Proof.
  revert last. induction a as [|t a IH]; intros last; [simpl; tauto|].
  rewrite last_cons_default. simpl. rewrite IH. tauto.
Qed.

(** The first item never touches [last_request_time]. *)
Lemma retry_loop_first fuel total image_path w w' :
  0 <= retry_count w ->
  retry_loop e fuel 1 total image_path w = Some w' ->
  last_request_time w' = last_request_time w.
Proof.
  revert w. induction fuel as [|fuel IH]; intros w H0.
  { simpl. by destruct (retry_count w <=? max_retries); simpl; intros ?; simplify_eq. }
  rewrite retry_loop_S.
  destruct (Z.leb_spec (retry_count w) max_retries) as [Hrc|Hrc]; cbn [negb];
    [|by intros ?; simplify_eq].
  change (pace e 1 w) with (Some (true, w)). cbn [negb].
  destruct (call_remover_spec 1 total image_path w)
    as (w3 & -> & _ & _ & _ & Hrc3 & Hl3 & _).
  destruct (answer (remover e (calls w))) as [|error]; [by intros ?; simplify_eq|].
  destruct (is_cancelled e w3); [by intros ?; simplify_eq|].
  destruct (handle_frame error image_path w3)
    as (handled & w4 & new4 & -> & _ & _ & _ & _ & _ & Hrc4 & Hl4); [lia|].
  destruct (is_cancelled e w4); [intros ?; simplify_eq; congruence|].
  destruct handled; [|intros ?; simplify_eq; simpl; congruence].
  intros Hrun. rewrite (IH w4) by (destruct (Hrc4 eq_refl); lia || done). congruence.
Qed.

(** From the second item on, every call waits for its slot: it comes at
    least [rate_limit_delay] after the time recorded last, and is recorded
    in turn. *)
Lemma retry_loop_paced fuel i total image_path w :
  (1 < i)%nat ->
  0 <= retry_count w ->
  max_retries + 1 - retry_count w <= Z.of_nat fuel ->
  exists w' new,
    retry_loop e fuel i total image_path w = Some w'
    /\ trace w' = (trace w ++ new)%list
    /\ spaced (rate_limit_delay e) (last_request_time w) (dispatch_times new)
    /\ (is_cancelled e w' = false ->
          last_request_time w' = List.last (dispatch_times new) (last_request_time w)).
Proof.
  intros Hi. revert w. induction fuel as [|fuel IH]; intros w H0 Hfuel.
  { simpl retry_loop.
    destruct (Z.leb_spec (retry_count w) max_retries); simpl; [unfold max_retries in *; lia|].
    exists w, []. by rewrite app_nil_r. }
  rewrite retry_loop_S.
  destruct (Z.leb_spec (retry_count w) max_retries) as [Hrc|Hrc]; cbn [negb].
  2:{ exists w, []. by rewrite app_nil_r. }
  destruct (pace_spec i w)
    as (go & w1 & new1 & -> & Htr1 & (Hd1 & _) & _ & _ & Hrc1 & _ & Hslot & _ & Hstop & _).
  assert (Ht1 : dispatch_times new1 = []) by (unfold dispatch_times; by rewrite Hd1).
  destruct go; cbn [negb].
  2:{ exists w1, new1. rewrite Ht1. split_and!; try done.
      intros Hno. by rewrite (Hstop eq_refl) in Hno. }
  destruct (Hslot eq_refl Hi) as [Hlast1 Hwait].
  destruct (call_remover_spec i total image_path w1)
    as (w3 & -> & Htr3 & _ & _ & Hrc3 & Hl3 & _).
  set (mid := [(now w1, Processing i total (Path.basename image_path));
               (now w1, Dispatch image_path (output_path_for e image_path))]) in *.
  assert (Htimes : forall rest,
            dispatch_times (new1 ++ mid ++ rest) = now w1 :: dispatch_times rest).
  { intros rest. unfold dispatch_times. by rewrite !dispatches_app, Hd1. }
  assert (Hquiet : forall rest, dispatches rest = [] ->
            spaced (rate_limit_delay e) (last_request_time w)
              (dispatch_times (new1 ++ mid ++ rest))
            /\ last_request_time w1
               = List.last (dispatch_times (new1 ++ mid ++ rest)) (last_request_time w)).
  { intros rest Hrest. rewrite Htimes. unfold dispatch_times. rewrite Hrest. simpl.
    split; [split; [lia|done]|done]. }
  destruct (answer (remover e (calls w1))) as [|error].
  - exists (set_result image_path (Success (output_path_for e image_path))
              (emit (image_processed image_path (output_path_for e image_path)) w3)),
      (new1 ++ mid ++ [(now w3, image_processed image_path (output_path_for e image_path))])%list.
    split; [done|]. cbn [trace last_request_time set_result emit].
    destruct (Hquiet [(now w3, image_processed image_path (output_path_for e image_path))])
      as [Hsp Hla]; [done|].
    split_and!; [|done|intros _; congruence].
    rewrite Htr3, Htr1. by rewrite <- !app_assoc.
  - destruct (is_cancelled e w3) eqn:Hcan3.
    { exists w3, (new1 ++ mid ++ [])%list. destruct (Hquiet []) as [Hsp Hla]; [done|].
      split; [done|]. split_and!; [|done|intros _; congruence].
      rewrite Htr3, Htr1. by rewrite app_nil_r, <- !app_assoc. }
    destruct (handle_frame error image_path w3)
      as (handled & w4 & new4 & -> & Htr4 & Hd4 & _ & _ & _ & Hrc4 & Hl4); [lia|].
    destruct (is_cancelled e w4) eqn:Hcan4.
    { exists w4, (new1 ++ mid ++ new4)%list. destruct (Hquiet new4) as [Hsp Hla]; [done|].
      split; [done|]. split_and!; [|done|intros _; congruence].
      rewrite Htr4, Htr3, Htr1. by rewrite <- !app_assoc. }
    destruct handled.
    + destruct (Hrc4 eq_refl) as [Hrc4a Hrc4b].
      destruct (IH w4) as (w' & new' & -> & Htr' & Hsp' & Hla');
        [lia | rewrite Nat2Z.inj_succ in Hfuel; lia |].
      exists w', (new1 ++ mid ++ (new4 ++ new'))%list. split; [done|].
      split; [rewrite Htr', Htr4, Htr3, Htr1; by rewrite <- !app_assoc|].
      rewrite Htimes. unfold dispatch_times in *. rewrite dispatches_app, Hd4, app_nil_l.
      replace (last_request_time w4) with (now w1) in * by congruence.
      split.
      * simpl. split; [lia|done].
      * intros Hno. rewrite (Hla' Hno). by rewrite last_cons_default.
    + exists (set_result image_path (Failure error)
                (emit (error_occurred (failed_message image_path error) image_path) w4)),
        (new1 ++ mid ++ (new4 ++ [(now w4, error_occurred (failed_message image_path error)
                                               image_path)]))%list.
      split; [done|]. cbn [trace last_request_time set_result emit].
      destruct (Hquiet (new4 ++ [(now w4, error_occurred (failed_message image_path error)
                                            image_path)])%list) as [Hsp Hla].
      { by rewrite dispatches_app, Hd4. }
      split_and!; [|done|intros _; congruence].
      rewrite Htr4, Htr3, Htr1. by rewrite <- !app_assoc.
Qed.

Lemma run_items_paced i total image_paths w :
  (1 < i)%nat ->
  exists w' new,
    run_items e i total image_paths w = Some w'
    /\ trace w' = (trace w ++ new)%list
    /\ spaced (rate_limit_delay e) (last_request_time w) (dispatch_times new)
    /\ (is_cancelled e w' = false ->
          last_request_time w' = List.last (dispatch_times new) (last_request_time w)).
Proof.
  revert i w. induction image_paths as [|image_path rest IH]; intros i w Hi.
  { exists w, []. by rewrite app_nil_r. }
  rewrite run_items_cons.
  destruct (is_cancelled e w) eqn:Hcan.
  { exists w, []. by rewrite app_nil_r. }
  destruct (retry_loop_paced (Z.to_nat (max_retries + 1)) i total image_path
              (set_retry_count 0 w) Hi)
    as (w1 & new1 & -> & Htr1 & Hsp1 & Hla1); [done..|].
  cbn [trace last_request_time set_retry_count] in *.
  destruct (is_cancelled e w1) eqn:Hcan1.
  { exists w1, new1. split; [done|]. split; [done|]. split; [done|].
    intros Hno. congruence. }
  destruct (IH (S i) w1) as (w2 & new2 & -> & Htr2 & Hsp2 & Hla2); [lia|].
  rewrite (Hla1 eq_refl) in Hsp2, Hla2.
  exists w2, (new1 ++ new2)%list. split; [done|].
  unfold dispatch_times in *. rewrite dispatches_app, fmap_app. split_and!.
  - rewrite Htr2, Htr1. by rewrite <- app_assoc.
  - by apply spaced_app.
  - intros Hno. rewrite (Hla2 Hno). by rewrite last_app_default.
Qed.

End worker_facts.


(** [run] always returns: neither loop runs out of fuel. *)
Lemma run_returns (e : env) (image_paths : list string) (start : Z) :
  is_Some (run e image_paths start).
Proof.
  unfold run.
  destruct (run_items_advances e 1 (length image_paths) image_paths (init start))
    as (w & new & -> & _). eauto.
Qed.

(** What the pacing does achieve: the calls for the first item apart, every
    call comes at least [rate_limit_delay] after the one before it.  Nothing
    ties the first of them to the calls for the first item, whose time is
    not recorded. *)
Lemma later_items_paced (e : env) (first : string) (others : list string) (start : Z) :
  exists w head tail,
    run e (first :: others) start = Some w
    /\ dispatches (trace w) = (head ++ tail)%list
    /\ (forall t p, (t, p) ∈ head -> p = first)
    /\ spaced (rate_limit_delay e) 0 tail.*1.
Proof.
  unfold run. rewrite run_items_cons.
  destruct (is_cancelled e (init start)) eqn:Hcan.
  { eexists _, [], []. split; [done|]. split; [reflexivity|]. split; [|by simpl].
    intros ?? Hin. inversion Hin. }
  destruct (retry_loop_advances e (Z.to_nat (max_retries + 1)) 1
              (length (first :: others)) first (set_retry_count 0 (init start)))
    as (w1 & new1 & Hrun1 & Htr1 & Hd1 & _); [done..|].
  assert (Hlast1 : last_request_time w1 = 0).
  { by rewrite (retry_loop_first e _ _ _ (set_retry_count 0 (init start)) w1
                  (Z.le_refl 0) Hrun1). }
  rewrite Hrun1. simpl in Htr1.
  assert (Hhead : forall t p, (t, p) ∈ dispatches new1 -> p = first).
  { intros t p Hin. by destruct (Hd1 t p Hin). }
  destruct (is_cancelled e w1) eqn:Hcan1.
  { eexists _, (dispatches new1), []. split; [done|].
    cbn [trace emit]. rewrite Htr1, !dispatches_app, !app_nil_r.
    split; [done|]. split; [done|by simpl]. }
  destruct (run_items_paced e 2 (length (first :: others)) others w1)
    as (w2 & new2 & -> & Htr2 & Hsp2 & _); [lia|].
  eexists _, (dispatches new1), (dispatches new2). split; [done|].
  cbn [trace emit]. rewrite Htr2, Htr1, !dispatches_app, !app_nil_r.
  split; [done|]. split; [done|]. by rewrite <- Hlast1.
Qed.



(** C2.  With nothing cancelling the run.  The [n]-th rate-limit error of an
    item, for [n] = 1, 2, 3, is answered by announcing and sleeping a backoff
    of exactly [30 * 2^(n-1)] seconds, after which the item is to be tried
    again.  Every item, whatever its calls are answered, goes this way: its
    first [k <= 3] calls raise rate-limit errors, the backoffs slept are the
    first [k] of 30 s, 60 s, 120 s, in this order, and the call after them
    settles the item: it returns, or it raises an error of another kind, or it
    is the fourth call and raises a rate-limit error; the item is recorded as
    a success in the first case and as failed in the others.  So an item whose
    four calls are all answered with a rate-limit error goes through the
    backoffs 30 s, 60 s, 120 s and is then recorded as failed. *)
Theorem backoff_sequence (e : env) (i total : nat) (image_path : string) (w : worker) :
  cancel_at e = None ->
  (forall n w0 error, 1 <= n <= 3 -> retry_count w0 = n - 1 ->
     is_rate_limit_error error = true ->
     exists w1,
       _handle_rate_limit_error e error image_path w0 = Some (true, w1)
       /\ trace w1 = (trace w0 ++ [(now w0, Backoff (30 * 2 ^ (n - 1)) n max_retries)])%list
       /\ now w1 = now w0 + 1000 * (30 * 2 ^ (n - 1))
       /\ retry_count w1 = n)
  /\ exists w' new (k : nat),
       retry_loop e (Z.to_nat (max_retries + 1)) i total image_path (set_retry_count 0 w)
       = Some w'
       /\ trace w' = (trace w ++ new)%list
       /\ (k <= 3)%nat
       /\ (forall j, (j < k)%nat ->
             exists d, answer (remover e (calls w + j)) = Raised d
                       /\ is_rate_limit_error d = true)
       /\ match answer (remover e (calls w + k)) with
          | Returned => True
          | Raised d => is_rate_limit_error d = true -> k = 3%nat
          end
       /\ backoffs new = take k [30; 60; 120]
       /\ (dispatches new).*2 = replicate (S k) image_path
       /\ results w' !! image_path
          = Some match answer (remover e (calls w + k)) with
                 | Returned => Success (output_path_for e image_path)
                 | Raised d => Failure d
                 end
       /\ ((forall j, (j < 4)%nat ->
              exists d, answer (remover e (calls w + j)) = Raised d
                        /\ is_rate_limit_error d = true) ->
           backoffs new = [30; 60; 120]
           /\ exists d, results w' !! image_path = Some (Failure d)).
Proof.
  intros Hnone. split.
  - intros n w0 error Hn Hrc Herr.
    destruct (handle_backoff e error image_path w0 Herr) as (t & -> & _ & Ht);
      [unfold max_retries; lia..|].
    assert (Hc : cancelled_at e t = false) by (unfold cancelled_at; by rewrite Hnone).
    rewrite Hc, (Ht Hc). cbn [negb]. eexists. split; [done|].
    cbn [trace now retry_count set_now emit set_retry_count].
    replace (retry_count w0) with (n - 1) by lia.
    replace (n - 1 + 1) with n by lia. done.
  - destruct (retry_loop_course e 3 (Z.to_nat (max_retries + 1)) i total image_path
                (set_retry_count 0 w))
      as (w' & new & k & Hrun & Htr & Hk & Hd & Hlast & Hb & Hdis & Hres);
      [done | simpl; lia | reflexivity | unfold max_retries; simpl; lia |].
    cbn [calls set_retry_count retry_count trace results] in *.
    assert (Hseq : backoffs new = take k [30; 60; 120]).
    { rewrite Hb. destruct k as [|[|[|[|k]]]]; [reflexivity.. | lia]. }
    assert (Hentry : results w' !! image_path
                     = Some match answer (remover e (calls w + k)) with
                            | Returned => Success (output_path_for e image_path)
                            | Raised d => Failure d
                            end).
    { rewrite Hres. apply lookup_insert_eq. }
    exists w', new, k. split; [exact Hrun|]. split; [exact Htr|]. split_and!; try done.
    intros Hall.
    assert (k = 3%nat) as ->.
    { destruct (decide (k = 3%nat)) as [|Hne]; [done|].
      destruct (Hall k) as (d & Hans & Hrl); [lia|].
      rewrite Hans in Hlast. by apply Hlast. }
    split; [exact Hseq|].
    destruct (Hall 3%nat) as (d & Hans & _); [lia|].
    exists d. by rewrite Hentry, Hans.
Qed.

(** C3, as the code has it.  With nothing cancelling the run, when the four
    calls for an item (listed once) are all answered with a rate-limit error,
    the item is reported by two error events: first one whose message names
    the exhausted retry budget, then the one that every failed item gets.
    The final mapping, carried by the last event of the run, records the item
    as failed with the text of the last error. *)
Theorem retries_exhausted_reported (e : env) (before after : list string)
    (image_path : string) (start : Z) (w0 : worker) (d : nat -> string) :
  cancel_at e = None ->
  image_path ∉ before -> image_path ∉ after ->
  run_items e 1 (length (before ++ image_path :: after)) before (init start) = Some w0 ->
  (forall k, (k < 4)%nat ->
     answer (remover e (calls w0 + k)) = Raised (d k) /\ is_rate_limit_error (d k) = true) ->
  exists w,
    run e (before ++ image_path :: after) start = Some w
    /\ filter (fun mp => mp.2 = image_path) (errors (trace w))
       = [(exhausted_message, image_path); (failed_message image_path (d 3%nat), image_path)]
    /\ results w !! image_path = Some (Failure (d 3%nat))
    /\ last (trace w) = Some (now w, finished_all (results w)).
Proof.
  intros Hnone Hbefore Hafter Hrun0 Hd. unfold run.
  rewrite run_items_app, Hrun0, run_items_cons by done.
  rewrite (never_cancelled e w0 Hnone).
  destruct (run_items_advances e 1 (length (before ++ image_path :: after)) before (init start))
    as (w0' & new0 & Hrun0' & Htr0 & _ & He0 & _).
  rewrite Hrun0 in Hrun0'. injection Hrun0' as <-. simpl in Htr0.
  change (Z.to_nat (max_retries + 1)) with 4%nat.
  destruct (four_rate_limit_errors e (1 + length before)
              (length (before ++ image_path :: after)) image_path (set_retry_count 0 w0) d)
    as (w1 & new1 & -> & Htr1 & _ & He1 & _ & _ & Hres1); [done..|].
  rewrite (never_cancelled e w1 Hnone).
  destruct (run_items_advances e (S (1 + length before))
              (length (before ++ image_path :: after)) after w1)
    as (w2 & new2 & -> & Htr2 & Hd2 & He2 & Hres2).
  cbn [trace results set_retry_count] in *.
  eexists. split; [done|]. cbn [trace results now emit]. split_and!.
  - rewrite Htr2, Htr1, Htr0, !errors_app, !filter_app, He1. simpl.
    rewrite !app_nil_r.
    assert (Hnone0 : filter (fun mp : string * string => mp.2 = image_path) (errors new0) = []).
    { apply filter_none. intros [m p] Hin Heq. simpl in Heq. subst p.
      by apply Hbefore, (He0 m). }
    assert (Hnone2 : filter (fun mp : string * string => mp.2 = image_path) (errors new2) = []).
    { apply filter_none. intros [m p] Hin Heq. simpl in Heq. subst p.
      by apply Hafter, (He2 m). }
    rewrite Hnone0, Hnone2. simpl.
    rewrite !filter_cons_True by done. by rewrite filter_nil.
  - rewrite Hres2, Hres1; [apply lookup_insert_eq|].
    intros Hin. apply Hafter. apply list_elem_of_fmap in Hin as ([t p] & -> & Hin).
    by destruct (Hd2 t p Hin).
  - by rewrite last_snoc.
Qed.

(** C4.  With nothing cancelling the run, for every error that a call of the
    transformation raises, at the first call of an item or after any number
    of retries.  The item is called again if and only if the text of the
    error, in lower case, contains "rate limit", "quota exceeded" or "429",
    and fewer than three retries have been made.  An error without any of the
    three ends the item at once: no backoff, no further call, one error
    event, and a failure entry with the text of the error.  An error with one
    of them is answered by the backoff of the retry that is due, after which
    the loop goes on with the next call of the same item, one retry further;
    or, when three retries have been made, by the report that the retries are
    exhausted, and the item is recorded as failed. *)
Theorem transient_iff_markers (e : env) (i total : nat) (image_path : string) (w : worker)
    (error : string) :
  cancel_at e = None ->
  0 <= retry_count w <= max_retries ->
  answer (remover e (calls w)) = Raised error ->
  let marked :=
    Str.contains "rate limit" (Str.lower error)
    || Str.contains "quota exceeded" (Str.lower error)
    || Str.contains "429" (Str.lower error) in
  let attempts (n : Z) := Z.to_nat (max_retries + 1 - n) in
  exists w' new,
    retry_loop e (attempts (retry_count w)) i total image_path w = Some w'
    /\ trace w' = (trace w ++ new)%list
    /\ ((1 < length (dispatches new))%nat <-> marked = true /\ retry_count w < max_retries)
    /\ (marked = false ->
          (dispatches new).*2 = [image_path] /\ backoffs new = []
          /\ errors new = [(failed_message image_path error, image_path)]
          /\ results w' = <[image_path := Failure error]> (results w))
    /\ (marked = true -> retry_count w < max_retries ->
          exists w1 mid,
            retry_loop e (attempts (retry_count w)) i total image_path w
            = retry_loop e (attempts (retry_count w1)) i total image_path w1
            /\ trace w1 = (trace w ++ mid)%list
            /\ (dispatches mid).*2 = [image_path]
            /\ backoffs mid = [30 * 2 ^ retry_count w] /\ errors mid = []
            /\ retry_count w1 = retry_count w + 1
            /\ calls w1 = S (calls w) /\ results w1 = results w)
    /\ (marked = true -> retry_count w = max_retries ->
          (dispatches new).*2 = [image_path] /\ backoffs new = []
          /\ errors new = [(exhausted_message, image_path);
                           (failed_message image_path error, image_path)]
          /\ results w' = <[image_path := Failure error]> (results w)).
Proof.
  intros Hnone Hrc Hans marked attempts.
  assert (Hm : marked = is_rate_limit_error error) by reflexivity.
  clearbody marked. subst marked.
  assert (Hfuel : attempts (retry_count w) = S (Z.to_nat (max_retries - retry_count w))).
  { unfold attempts. rewrite <- Z2Nat.inj_succ by lia. f_equal. lia. }
  rewrite Hfuel.
  destruct (is_rate_limit_error error) eqn:Herr.
  - destruct (Z.eq_dec (retry_count w) max_retries) as [Heq|Hne].
    + destruct (retry_step_exhausted e (Z.to_nat (max_retries - retry_count w)) i total
                  image_path w error)
        as (w' & new & Hrun & Htr & Hb & He & Hdis & _ & Hres); [done..|].
      exists w', new. split_and!; try done; try lia.
      split; [|lia]. rewrite <- (length_fmap snd), Hdis. simpl. lia.
    + destruct (retry_step_backoff e (Z.to_nat (max_retries - retry_count w)) i total
                  image_path w error)
        as (w1 & mid & Hrun & Htr1 & Hb1 & He1 & Hd1 & Hc1 & Hr1 & Hrc1);
        [done | lia | lia | done | done |].
      assert (Hnext : attempts (retry_count w1) = Z.to_nat (max_retries - retry_count w)).
      { unfold attempts. f_equal. lia. }
      destruct (retry_loop_dispatches_once e (Z.to_nat (max_retries - retry_count w)) i
                  total image_path w1)
        as (w' & new2 & Hrun2 & Htr2 & Hlen); [done | lia | lia |].
      exists w', (mid ++ new2)%list. split_and!; try done; try lia.
      * by rewrite Hrun.
      * rewrite Htr2, Htr1. by rewrite <- app_assoc.
      * split; [intros _; split; [done | lia]|]. intros _.
        rewrite dispatches_app, length_app.
        assert (length (dispatches mid) = 1%nat) as ->; [|lia].
        by rewrite <- (length_fmap snd), Hd1.
      * intros _ _. exists w1, mid. rewrite Hnext. by split_and!.
  - destruct (retry_step_permanent e (Z.to_nat (max_retries - retry_count w)) i total
                image_path w error)
      as (w' & new & Hrun & Htr & Hb & He & Hdis & _ & Hres); [done | lia | done | done |].
    exists w', new. split_and!; try done.
    split; [|by intros [? _]]. rewrite <- (length_fmap snd), Hdis. simpl. lia.
Qed.

(** C1 fails on the code.  With a delay of 6 s between requests and calls
    that take 1 s, the second item is handed to the transformation 1 s after
    the first, with no pacing wait; only the third item waits.  The first
    call is never recorded in [last_request_time]. *)
Example second_dispatch_not_paced :
  (Worker.run Samples.all_succeed ["/in/a.jpg"; "/in/b.jpg"; "/in/c.png"] Samples.start
     ≫= fun w => Some (dispatch_times (trace w)))
  = Some [1700000000000; 1700000001000; 1700000007000]
  /\ rate_limit_delay Samples.all_succeed = 6000.
Proof. split; vm_compute; reflexivity. Qed.

(** One rate-limit error and then a success: one backoff of 30 s. *)
Example one_backoff_then_success :
  (retry_loop Samples.throttled_once 4 2 3 "/in/b.jpg"
     (set_retry_count 0 (init Samples.start))
     ≫= fun w => Some (backoffs (trace w), results w !! "/in/b.jpg", retry_count w))
  = Some ([30], Some (Success "/out/b_gemini.jpg"), 1).
Proof. vm_compute. reflexivity. Qed.

Lemma backoff_sequence_witness :
  exists w' new (k : nat),
    retry_loop Samples.throttled_once (Z.to_nat (max_retries + 1)) 2 3 "/in/b.jpg"
      (set_retry_count 0 (init Samples.start)) = Some w'
    /\ trace w' = (trace (init Samples.start) ++ new)%list
    /\ (k <= 3)%nat
    /\ (forall j, (j < k)%nat ->
          exists d, answer (remover Samples.throttled_once (calls (init Samples.start) + j))
                    = Raised d
                    /\ is_rate_limit_error d = true)
    /\ match answer (remover Samples.throttled_once (calls (init Samples.start) + k)) with
       | Returned => True
       | Raised d => is_rate_limit_error d = true -> k = 3%nat
       end
    /\ backoffs new = take k [30; 60; 120]
    /\ (dispatches new).*2 = replicate (S k) "/in/b.jpg"
    /\ results w' !! "/in/b.jpg"
       = Some match answer (remover Samples.throttled_once
                              (calls (init Samples.start) + k)) with
              | Returned => Success (output_path_for Samples.throttled_once "/in/b.jpg")
              | Raised d => Failure d
              end
    /\ ((forall j, (j < 4)%nat ->
           exists d, answer (remover Samples.throttled_once (calls (init Samples.start) + j))
                     = Raised d
                     /\ is_rate_limit_error d = true) ->
        backoffs new = [30; 60; 120]
        /\ exists d, results w' !! "/in/b.jpg" = Some (Failure d)).
Proof.
  apply (backoff_sequence Samples.throttled_once 2 3 "/in/b.jpg" (init Samples.start)).
  reflexivity.
Defined.

(** C3 as stated fails: an item whose retries are exhausted is reported by
    two error events, not by exactly one. *)
Lemma exhaustion_emits_two_errors :
  exists w,
    Worker.run Samples.all_throttled ["/in/a.jpg"] Samples.start = Some w
    /\ errors (trace w)
       = [("Rate limit exceeded after 3 retries. Please wait before trying again.",
           "/in/a.jpg");
          ("Failed to process a.jpg: HTTP 429 Too Many Requests", "/in/a.jpg")]
    /\ length (errors (trace w)) <> 1%nat.
Proof. eexists. split; [vm_compute; reflexivity|]. split; [reflexivity|]. simpl. lia. Qed.

Lemma retries_exhausted_reported_witness :
  exists w,
    Worker.run Samples.throttled_at_first ([] ++ "/in/a.jpg" :: ["/in/b.jpg"]) Samples.start
    = Some w
    /\ filter (fun mp => mp.2 = "/in/a.jpg") (errors (trace w))
       = [(exhausted_message, "/in/a.jpg");
          (failed_message "/in/a.jpg" "HTTP 429 Too Many Requests", "/in/a.jpg")]
    /\ results w !! "/in/a.jpg" = Some (Failure "HTTP 429 Too Many Requests")
    /\ last (trace w) = Some (now w, finished_all (results w)).
Proof.
  apply (retries_exhausted_reported Samples.throttled_at_first [] ["/in/b.jpg"]
           "/in/a.jpg" Samples.start (init Samples.start)
           (fun _ => "HTTP 429 Too Many Requests")).
  - reflexivity.
  - apply not_elem_of_nil.
  - intros H. apply list_elem_of_singleton in H. discriminate H.
  - reflexivity.
  - intros k Hk. destruct k as [|[|[|[|k]]]]; [split; reflexivity..|lia].
Defined.

(** An error of another kind after one retry ends the item at once. *)
Example permanent_error_after_retry :
  (retry_loop Samples.throttled_then_broken 4 2 3 "/in/b.jpg"
     (set_retry_count 0 (init Samples.start))
     ≫= fun w => Some (backoffs (trace w), errors (trace w), (dispatches (trace w)).*2,
                        results w !! "/in/b.jpg"))
  = Some ([30], [("Failed to process b.jpg: Invalid image data", "/in/b.jpg")],
          ["/in/b.jpg"; "/in/b.jpg"], Some (Failure "Invalid image data")).
Proof. vm_compute. reflexivity. Qed.

Lemma transient_iff_markers_witness :
  let e := Samples.throttled_then_broken in
  let w := set_retry_count 1 (set_calls 1 (init Samples.start)) in
  let error := "Invalid image data" in
  let marked :=
    Str.contains "rate limit" (Str.lower error)
    || Str.contains "quota exceeded" (Str.lower error)
    || Str.contains "429" (Str.lower error) in
  let attempts (n : Z) := Z.to_nat (max_retries + 1 - n) in
  exists w' new,
    retry_loop e (attempts (retry_count w)) 2 3 "/in/b.jpg" w = Some w'
    /\ trace w' = (trace w ++ new)%list
    /\ ((1 < length (dispatches new))%nat <-> marked = true /\ retry_count w < max_retries)
    /\ (marked = false ->
          (dispatches new).*2 = ["/in/b.jpg"] /\ backoffs new = []
          /\ errors new = [(failed_message "/in/b.jpg" error, "/in/b.jpg")]
          /\ results w' = <["/in/b.jpg" := Failure error]> (results w))
    /\ (marked = true -> retry_count w < max_retries ->
          exists w1 mid,
            retry_loop e (attempts (retry_count w)) 2 3 "/in/b.jpg" w
            = retry_loop e (attempts (retry_count w1)) 2 3 "/in/b.jpg" w1
            /\ trace w1 = (trace w ++ mid)%list
            /\ (dispatches mid).*2 = ["/in/b.jpg"]
            /\ backoffs mid = [30 * 2 ^ retry_count w] /\ errors mid = []
            /\ retry_count w1 = retry_count w + 1
            /\ calls w1 = S (calls w) /\ results w1 = results w)
    /\ (marked = true -> retry_count w = max_retries ->
          (dispatches new).*2 = ["/in/b.jpg"] /\ backoffs new = []
          /\ errors new = [(exhausted_message, "/in/b.jpg");
                           (failed_message "/in/b.jpg" error, "/in/b.jpg")]
          /\ results w' = <["/in/b.jpg" := Failure error]> (results w)).
Proof.
  apply (transient_iff_markers Samples.throttled_then_broken 2 3 "/in/b.jpg"
           (set_retry_count 1 (set_calls 1 (init Samples.start))) "Invalid image data").
  - reflexivity.
  - unfold max_retries. simpl. lia.
  - reflexivity.
Defined.


(** A run cancelled in a backoff sleep, and one cancelled in a pacing wait
    before the third of three items. *)
Example cancelled_runs :
  (Worker.run Samples.cancelled_in_backoff ["/in/a.jpg"; "/in/b.jpg"] Samples.start
     ≫= fun w => Some (dispatched (trace w), map_to_list (results w)))
  = Some (["/in/a.jpg"], [])
  /\ (Worker.run Samples.cancelled_in_wait ["/in/a.jpg"; "/in/b.jpg"; "/in/c.png"] Samples.start
        ≫= fun w => Some (dispatched (trace w), dom (results w)))
     = Some (["/in/a.jpg"; "/in/b.jpg"], {["/in/a.jpg"; "/in/b.jpg"]}).
Proof. split; vm_compute; reflexivity. Qed.

End WorkerProofs.

(** * The folder scanner: pruning, classification, completion *)

Module ScannerProofs.
Import Scanner.

Section string_facts.

Lemma append_nil_l (s : string) : "" ++ s = s.
Proof. reflexivity. Qed.

Lemma append_cons (c : ascii) (a b : string) : String c a ++ b = String c (a ++ b).
Proof. reflexivity. Qed.

Lemma append_nil_r (s : string) : s ++ "" = s.
Proof. induction s as [|c s IH]; [done|]. by rewrite append_cons, IH. Qed.

Lemma append_assoc (a b c : string) : (a ++ b) ++ c = a ++ b ++ c.
Proof. induction a as [|x a IH]; [done|]. by rewrite !append_cons, IH. Qed.

Lemma is_empty_app_r (a b : string) : Str.is_empty b = false -> Str.is_empty (a ++ b) = false.
Proof. destruct a; [done|]. by rewrite append_cons. Qed.

Lemma name_ok_inv (y : string) :
  name_ok y = true -> Str.is_empty y = false /\ Str.has_char "/" y = false.
Proof.
  unfold name_ok. rewrite andb_true_iff, !negb_true_iff. tauto.
Qed.

Lemma has_char_cons (c d : ascii) (s : string) :
  Str.has_char c (String d s) = Ascii.eqb d c || Str.has_char c s.
Proof. reflexivity. Qed.

(** A string without separator is its own last component. *)
Lemma rsplit_sep_plain (y : string) :
  Str.has_char "/" y = false -> Path.rsplit_sep y = ("", y).
Proof.
  induction y as [|c y IH]; [done|]. rewrite has_char_cons, orb_false_iff.
  intros [Hc Hy]. simpl. by rewrite (IH Hy), Hc.
Qed.

Lemma rsplit_sep_app (a y : string) :
  Str.has_char "/" y = false -> Path.rsplit_sep (a ++ "/" ++ y) = (a ++ "/", y).
Proof.
  intros Hy. induction a as [|c a IH].
  - change ("" ++ "/" ++ y) with (String "/" y). simpl.
    by rewrite (rsplit_sep_plain y Hy).
  - change (String c a ++ "/" ++ y) with (String c (a ++ "/" ++ y)).
    simpl. rewrite IH. by rewrite is_empty_app_r.
Qed.

Lemma endswith_cons (c : ascii) (a suffix : string) :
  Str.endswith (String c a) suffix
  = String.eqb (String c a) suffix || Str.endswith a suffix.
Proof. reflexivity. Qed.

Lemma endswith_sep_inv (a : string) :
  Str.endswith a "/" = true -> exists a0, a = a0 ++ "/".
Proof.
  induction a as [|c a IH]; [done|]. rewrite endswith_cons.
  rewrite orb_true_iff. intros [Heq|Hrest].
  - apply String.eqb_eq in Heq. exists "". by rewrite Heq.
  - destruct (IH Hrest) as [a0 ->]. exists (String c a0). by rewrite append_cons.
Qed.

Lemma startswith_sep_name (y : string) :
  name_ok y = true -> Str.startswith y "/" = false.
Proof.
  intros [Hne Hy]%name_ok_inv. destruct y as [|c y]; [done|].
  rewrite has_char_cons, orb_false_iff in Hy. destruct Hy as [Hc _].
  unfold Str.startswith.
  change (String.prefix "/" (String c y))
    with (if ascii_dec "/" c then String.prefix "" y else false).
  destruct (ascii_dec "/" c) as [<-|]; [|done].
  by rewrite Ascii.eqb_refl in Hc.
Qed.

Lemma endswith_sep_name (a y : string) :
  name_ok y = true -> Str.endswith (a ++ y) "/" = false.
Proof.
  intros [Hne Hy]%name_ok_inv.
  assert (Hbase : Str.endswith y "/" = false).
  { clear Hne. induction y as [|c y IH]; [done|].
    rewrite has_char_cons, orb_false_iff in Hy. destruct Hy as [Hc Hy].
    rewrite endswith_cons, (IH Hy), orb_false_r.
    apply String.eqb_neq. intros Heq. injection Heq as -> _. done. }
  induction a as [|c a IH]; [done|].
  rewrite append_cons, endswith_cons, IH, orb_false_r.
  apply String.eqb_neq. intros Heq. injection Heq as _ Heq.
  destruct a; destruct y; done.
Qed.

(** [os.path.join] with an entry name: the name is appended, after a
    separator unless there is one already or nothing comes before. *)
Lemma join_name (a y : string) :
  name_ok y = true -> Path.join a y = Path.glue a ++ y.
Proof.
  intros Hy. unfold Path.join, Path.glue. rewrite (startswith_sep_name y Hy).
  destruct (Str.is_empty a || Str.endswith a "/"); [done|].
  by rewrite append_assoc.
Qed.

Lemma glue_cases (a : string) : Path.glue a = "" \/ exists a0, Path.glue a = a0 ++ "/".
Proof.
  unfold Path.glue. destruct (Str.is_empty a) eqn:He; simpl.
  - left. by destruct a.
  - right. destruct (Str.endswith a "/") eqn:Hs; [by apply endswith_sep_inv | by exists a].
Qed.

Lemma basename_join (a y : string) :
  name_ok y = true -> Path.basename (Path.join a y) = y.
Proof.
  intros Hy. rewrite (join_name a y Hy). destruct (name_ok_inv y Hy) as [_ Hs].
  unfold Path.basename. destruct (glue_cases a) as [->|[a0 ->]].
  - by rewrite append_nil_l, rsplit_sep_plain.
  - by rewrite append_assoc, rsplit_sep_app.
Qed.

Lemma rstrip_sep_plain (y : string) : Str.has_char "/" y = false -> Str.rstrip_sep y = y.
Proof.
  induction y as [|c y IH]; [done|]. rewrite has_char_cons, orb_false_iff.
  intros [Hc Hy]. simpl. by rewrite (IH Hy), Hc, andb_false_r.
Qed.

Lemma rstrip_sep_name (a y : string) :
  name_ok y = true -> Str.rstrip_sep (a ++ y) = a ++ y.
Proof.
  intros [Hne Hy]%name_ok_inv. induction a as [|c a IH].
  - by apply rstrip_sep_plain.
  - rewrite append_cons. simpl. by rewrite IH, is_empty_app_r.
Qed.

Lemma is_result_directory_join (root d : string) :
  name_ok d = true ->
  _is_result_directory (Path.join root d) = is_result_name (Str.lower d).
Proof.
  intros Hd. unfold _is_result_directory.
  rewrite <- (basename_join root d Hd) at 2.
  by rewrite (join_name root d Hd), rstrip_sep_name.
Qed.

Lemma has_char_app (c : ascii) (a b : string) :
  Str.has_char c (a ++ b) = Str.has_char c a || Str.has_char c b.
Proof.
  induction a as [|x a IH]; [done|].
  by rewrite append_cons, !has_char_cons, IH, orb_assoc.
Qed.

Lemma concat_cons2 (x y : string) (rest : list string) :
  String.concat "/" (x :: y :: rest) = x ++ "/" ++ String.concat "/" (y :: rest).
Proof. reflexivity. Qed.

Lemma split_first_sep (x y A B : string) :
  Str.has_char "/" x = false -> Str.has_char "/" y = false ->
  x ++ "/" ++ A = y ++ "/" ++ B -> x = y /\ A = B.
Proof.
  revert y. induction x as [|c x IH]; intros [|d y] Hx Hy Heq.
  - rewrite !append_nil_l in Heq. split; [done|]. by simplify_eq.
  - rewrite append_nil_l, append_cons in Heq. injection Heq as <- _.
    by rewrite has_char_cons, Ascii.eqb_refl in Hy.
  - rewrite append_nil_l, append_cons in Heq. injection Heq as -> _.
    by rewrite has_char_cons, Ascii.eqb_refl in Hx.
  - rewrite !append_cons in Heq. injection Heq as -> Heq.
    rewrite has_char_cons, orb_false_iff in Hx, Hy.
    destruct (IH y) as [-> ->]; tauto.
Qed.

Lemma concat_names_inj (xs ys : list string) :
  Forall (fun x => name_ok x = true) xs ->
  Forall (fun y => name_ok y = true) ys ->
  xs <> [] -> ys <> [] ->
  String.concat "/" xs = String.concat "/" ys -> xs = ys.
Proof.
  revert ys. induction xs as [|x xs IH]; intros ys Hxs Hys Hx Hy Heq; [done|].
  destruct ys as [|y ys]; [done|].
  apply Forall_cons in Hxs as [[_ Hsx]%name_ok_inv Hxs].
  apply Forall_cons in Hys as [[_ Hsy]%name_ok_inv Hys].
  destruct xs as [|x' xs]; destruct ys as [|y' ys].
  - simpl in Heq. by subst.
  - rewrite concat_cons2 in Heq. simpl in Heq. subst x.
    by rewrite has_char_app, has_char_app, orb_true_r in Hsx.
  - rewrite concat_cons2 in Heq. simpl in Heq. subst y.
    by rewrite has_char_app, has_char_app, orb_true_r in Hsy.
  - rewrite !concat_cons2 in Heq.
    destruct (split_first_sep _ _ _ _ Hsx Hsy Heq) as [-> Hrest].
    f_equal. by apply IH.
Qed.

Lemma foldl_join_names (a0 x : string) (rest : list string) :
  name_ok x = true ->
  Forall (fun y => name_ok y = true) rest ->
  foldl Path.join (a0 ++ x) rest = a0 ++ String.concat "/" (x :: rest).
Proof.
  revert a0 x. induction rest as [|y rest IH]; intros a0 x Hx Hrest; [done|].
  apply Forall_cons in Hrest as [Hy Hrest]. simpl foldl.
  rewrite (join_name _ y Hy). unfold Path.glue.
  rewrite is_empty_app_r by (by apply name_ok_inv).
  rewrite endswith_sep_name by done. simpl orb. cbv iota.
  rewrite concat_cons2, <- !append_assoc.
  rewrite (IH ((a0 ++ x) ++ "/") y Hy Hrest). done.
Qed.

Lemma descend_names (top x : string) (rest : list string) :
  Forall (fun y => name_ok y = true) (x :: rest) ->
  descend top (x :: rest) = Path.glue top ++ String.concat "/" (x :: rest).
Proof.
  intros [Hx Hrest]%Forall_cons. unfold descend. simpl foldl.
  rewrite (join_name top x Hx). by apply foldl_join_names.
Qed.

(** Different chains of names below [top] give different paths. *)
Lemma descend_inj (top : string) (xs ys : list string) :
  Forall (fun x => name_ok x = true) xs ->
  Forall (fun y => name_ok y = true) ys ->
  xs <> [] -> ys <> [] ->
  descend top xs = descend top ys -> xs = ys.
Proof.
  intros Hxs Hys Hx Hy Heq.
  destruct xs as [|x xs]; [done|]. destruct ys as [|y ys]; [done|].
  rewrite !descend_names in Heq by done.
  apply (inj (String.append (Path.glue top))) in Heq.
  by apply concat_names_inj.
Qed.

Lemma descend_snoc (top : string) (names : list string) (name : string) :
  descend top (names ++ [name]) = Path.join (descend top names) name.
Proof. unfold descend. by rewrite foldl_app. Qed.

End string_facts.

Section scanner_facts.
Variable e : env.

(** A property of the scanner's state that the counters do not touch. *)
Variable I : scanner -> Prop.
(** What is known of a directory when the walk enters it. *)
Variable R : string -> node -> Prop.
Hypothesis I_reads : forall sc, I sc -> I (bump_reads sc).
Hypothesis I_dirs : forall k sc, I sc -> I (add_skipped_dirs k sc).
Hypothesis I_file : forall root d entries file sc,
  R root (Dir d (Some entries)) -> _is_result_directory root = false ->
  File file ∈ entries -> I sc -> I (scan_file e root file sc).
Hypothesis R_child : forall root d entries d' listing,
  R root (Dir d (Some entries)) -> _is_result_directory root = false ->
  Dir d' listing ∈ entries ->
  _is_result_directory (Path.join root d') = false ->
  R (Path.join root d') (Dir d' listing).

Lemma elem_of_file_names entries file : file ∈ file_names entries -> File file ∈ entries.
Proof.
  unfold file_names. intros Hin. apply list_elem_of_omap in Hin as (n & Hn & Heq).
  destruct n; by simplify_eq.
Qed.

Lemma scan_files_inv root files sc :
  (forall file sc, file ∈ files -> I sc -> I (scan_file e root file sc)) ->
  I sc -> I (scan_files e root files sc).2.
Proof.
  revert sc. induction files as [|file rest IH]; intros sc Hstep Hsc; [done|].
  simpl. destruct (cancel_after e) as [c|]; simpl.
  - destruct (c <=? reads sc)%nat; [by apply I_reads|].
    destruct (raises e (reads sc)); [by apply I_reads|].
    apply IH; [|apply Hstep; [left|by apply I_reads]].
    intros ????. apply Hstep; [by right|done].
  - destruct (raises e (reads sc)); [by apply I_reads|].
    apply IH; [|apply Hstep; [left|by apply I_reads]].
    intros ????. apply Hstep; [by right|done].
Qed.

Lemma walk_dirs_inv f root entries sc :
  Forall (fun child => forall path sc, R path child -> I sc -> I (f path child sc).2) entries ->
  (forall d' listing, Dir d' listing ∈ entries ->
     _is_result_directory (Path.join root d') = false ->
     R (Path.join root d') (Dir d' listing)) ->
  I sc -> I (walk_dirs f root entries sc).2.
Proof.
  revert sc. induction entries as [|child rest IH]; intros sc Hall Hchild Hsc; [done|].
  apply Forall_cons in Hall as [Hhead Hall].
  assert (Hrest : forall d' listing, Dir d' listing ∈ rest ->
            _is_result_directory (Path.join root d') = false ->
            R (Path.join root d') (Dir d' listing)).
  { intros ????. apply Hchild; [by right|done]. }
  destruct child as [f0|d listing]; simpl; [by apply IH|].
  destruct (_is_result_directory (Path.join root d)) eqn:Hres; [by apply IH|].
  specialize (Hhead (Path.join root d) sc (Hchild d listing ltac:(left) Hres) Hsc).
  destruct (f (Path.join root d) (Dir d listing) sc) as [s sc'].
  destruct s; [by apply IH|done..].
Qed.

Lemma walk_inv n : forall root sc, R root n -> I sc -> I (walk e root n sc).2.
Proof.
  induction n as [f|d|d entries IH] using node_induction; intros root sc HR Hsc; [done..|].
  simpl walk. unfold is_cancelled.
  destruct (match cancel_after e with Some n => (n <=? reads sc)%nat | None => false end);
    [by apply I_reads|].
  destruct (raises e (reads sc)); [by apply I_reads|].
  destruct (_is_result_directory root) eqn:Hroot; [by apply I_dirs, I_reads|].
  set (sc2 := add_skipped_dirs _ _).
  assert (Hsc2 : I sc2) by (by apply I_dirs, I_reads).
  pose proof (scan_files_inv root (file_names entries) sc2) as Hfiles.
  destruct (scan_files e root (file_names entries) sc2) as [s sc3].
  assert (Hsc3 : I sc3).
  { apply Hfiles; [|done]. intros file sc' Hin Hsc'.
    eapply I_file; [done..|by apply elem_of_file_names|done]. }
  assert (Hdirs : I (walk_dirs (walk e) root entries sc3).2).
  { apply walk_dirs_inv; [done| |done].
    intros d' listing Hin Hres. by eapply R_child. }
  by destruct s.
Qed.

End scanner_facts.

Section scanner_results.
Variable e : env.

Lemma scan_file_cases root file sc :
  (scan_file e root file sc = add_skipped_file sc /\ _is_result_file file = true)
  \/ (scan_file e root file sc = sc /\ _is_result_file file = false
      /\ has_image_extension file = false)
  \/ (_is_result_file file = false /\ has_image_extension file = true
      /\ ((exists r, _find_existing_result e (Path.join root file) = Some r
             /\ scan_file e root file sc = add_processed (Path.join root file) r sc)
          \/ (_find_existing_result e (Path.join root file) = None
              /\ scan_file e root file sc = add_image (Path.join root file) sc))).
Proof.
  unfold scan_file. destruct (_is_result_file file); [by left|].
  destruct (has_image_extension file); simpl; [|right; by left].
  right; right. split; [done|]. split; [done|].
  destruct (_find_existing_result e (Path.join root file)) as [r|]; [left; eauto|by right].
Qed.

(** The scanner sorts every path by [_find_existing_result]. *)
Lemma walk_classified n root sc :
  classified e sc -> classified e (walk e root n sc).2.
Proof.
  apply (walk_inv e (classified e) (fun _ _ => True)); try done.
  intros root' _ _ file sc' _ _ _ (Hcount & Himg & Hproc).
  destruct (scan_file_cases root' file sc')
    as [[-> _]|[[-> _]|(_ & _ & [(r & Hfind & ->)|[Hfind ->]])]]; try done.
  - split_and!; simpl.
    + rewrite length_app, Hcount. simpl. lia.
    + done.
    + intros p r'. rewrite elem_of_app, list_elem_of_singleton.
      intros [Hin|Heq]; [by apply Hproc|by simplify_eq].
  - split_and!; simpl; try done.
    intros p. rewrite elem_of_app, list_elem_of_singleton.
    intros [Hin| ->]; [by apply Himg|done].
Qed.

Lemma entries_ok_file d entries file :
  entries_ok (Dir d (Some entries)) = true -> File file ∈ entries -> name_ok file = true.
Proof.
  simpl. rewrite forallb_forall. intros Hall Hin. apply list_elem_of_In in Hin.
  by apply (Hall (File file)).
Qed.

Lemma entries_ok_dir d entries d' listing :
  entries_ok (Dir d (Some entries)) = true -> Dir d' listing ∈ entries ->
  name_ok d' = true /\ entries_ok (Dir d' listing) = true.
Proof.
  simpl. rewrite forallb_forall. intros Hall Hin. apply list_elem_of_In in Hin.
  specialize (Hall _ Hin). destruct listing as [sub|]; simpl in *; [|done].
  by apply andb_true_iff in Hall.
Qed.

(** Everything the scanner reports is a candidate file below [top]. *)
Lemma walk_candidates top n root sc :
  entered top root n ->
  (forall p, reported p sc -> candidate top p) ->
  forall p, reported p (walk e root n sc).2 -> candidate top p.
Proof.
  apply (walk_inv e (fun sc => forall p, reported p sc -> candidate top p) (entered top));
    try done.
  - intros root' d entries file sc' (Hok & dirs & -> & Hdirs) Hroot Hin Hsc' p.
    destruct (scan_file_cases (descend top dirs) file sc')
      as [[-> _]|[[-> _]|(Hres & Hext & Hadd)]]; try apply Hsc'.
    assert (Hcand : candidate top (Path.join (descend top dirs) file)).
    { exists dirs, file. split; [by rewrite descend_snoc|].
      split; [done|]. split; [by eapply entries_ok_file|]. done. }
    destruct Hadd as [(r & Hfind & ->)|[Hfind ->]]; unfold reported; simpl.
    + rewrite fmap_app, elem_of_app. simpl. rewrite list_elem_of_singleton.
      intros [Hp|[Hp| ->]]; [apply Hsc'; by left|apply Hsc'; by right|done].
    + rewrite elem_of_app, list_elem_of_singleton.
      intros [[Hp| ->]|Hp]; [apply Hsc'; by left|done|apply Hsc'; by right].
  - intros root' d entries d' listing (Hok & dirs & -> & Hdirs) Hroot Hin Hres.
    destruct (entries_ok_dir d entries d' listing Hok Hin) as [Hname Hsub].
    split; [done|]. exists (dirs ++ [d'])%list. split; [by rewrite descend_snoc|].
    apply Forall_app. split; [done|]. apply Forall_singleton. split; [done|].
    by rewrite <- (is_result_directory_join (descend top dirs)).
Qed.

End scanner_results.

Section scanner_run.
Variable e : env.

Lemma run_reports folder_path top :
  (run e folder_path top).2 = already_processed (walk e folder_path top init).2
  /\ (forall l, files_found l ∈ (run e folder_path top).1 ->
        l = image_files (walk e folder_path top init).2).
Proof.
  unfold run. destruct (walk e folder_path top init) as [s sc].
  assert (Hnot : forall l, files_found l ∈ [scan_finished 0] -> l = image_files sc).
  { intros l Hin. apply list_elem_of_singleton in Hin. done. }
  assert (Hemit : (if (is_cancelled e sc).1 then ([], already_processed sc)
                   else ([files_found (image_files sc);
                          scan_finished (length (image_files sc) + already_processed_count sc)],
                         already_processed sc)).2 = already_processed sc
                  /\ forall l, files_found l ∈
                       (if (is_cancelled e sc).1 then ([], already_processed sc)
                        else ([files_found (image_files sc);
                               scan_finished (length (image_files sc)
                                              + already_processed_count sc)],
                              already_processed sc)).1 -> l = image_files sc).
  { destruct (is_cancelled e sc).1; simpl; split; try done.
    - intros l Hin. inversion Hin.
    - intros l Hin. apply elem_of_cons in Hin as [Heq|Hin]; [by simplify_eq|].
      apply list_elem_of_singleton in Hin. done. }
  destruct s; simpl; try done.
Qed.

Lemma scan_files_no_raise root files sc :
  fault_at e = None -> (scan_files e root files sc).1 <> Raise.
Proof.
  intros Hf. revert sc. induction files as [|file rest IH]; intros sc; [done|].
  simpl. unfold raises. rewrite Hf.
  destruct (match cancel_after e with Some n => (n <=? reads sc)%nat | None => false end);
    [done|apply IH].
Qed.

Lemma walk_dirs_no_raise f root entries sc :
  Forall (fun child => forall path sc, (f path child sc).1 <> Raise) entries ->
  (walk_dirs f root entries sc).1 <> Raise.
Proof.
  revert sc. induction entries as [|child rest IH]; intros sc Hall; [done|].
  apply Forall_cons in Hall as [Hhead Hall].
  destruct child as [f0|d listing]; simpl; [by apply IH|].
  destruct (_is_result_directory (Path.join root d)); [by apply IH|].
  specialize (Hhead (Path.join root d) sc).
  destruct (f (Path.join root d) (Dir d listing) sc) as [s sc'].
  destruct s; [by apply IH|done..].
Qed.

Lemma walk_no_raise n : forall root sc, fault_at e = None -> (walk e root n sc).1 <> Raise.
Proof.
  induction n as [f|d|d entries IH] using node_induction; intros root sc Hf; [done..|].
  simpl walk. unfold is_cancelled, raises. rewrite Hf.
  destruct (match cancel_after e with Some n => (n <=? reads sc)%nat | None => false end);
    [done|].
  destruct (_is_result_directory root); [done|].
  set (sc2 := add_skipped_dirs _ _).
  pose proof (scan_files_no_raise root (file_names entries) sc2 Hf) as Hfiles.
  destruct (scan_files e root (file_names entries) sc2) as [s sc3].
  assert (Hdirs : (walk_dirs (walk e) root entries sc3).1 <> Raise).
  { apply walk_dirs_no_raise. eapply Forall_impl; [exact IH|]. simpl. auto. }
  by destruct s.
Qed.

End scanner_run.


Section pruning.
Variable e : env.

Lemma walk_dirs_dir f root d listing rest sc :
  walk_dirs f root (Dir d listing :: rest) sc
  = if _is_result_directory (Path.join root d) then walk_dirs f root rest sc
    else
      let '(s, sc') := f (Path.join root d) (Dir d listing) sc in
      match s with
      | Next => walk_dirs f root rest sc'
      | _ => (s, sc')
      end.
Proof. reflexivity. Qed.

Lemma hollow_dir root d listing : exists listing', hollow root (Dir d listing) = Dir d listing'.
Proof. destruct listing; simpl; eauto. Qed.

Lemma names_hollow root entries :
  file_names (map (hollow_entry hollow root) entries) = file_names entries
  /\ dir_names (map (hollow_entry hollow root) entries) = dir_names entries.
Proof.
  unfold file_names, dir_names.
  induction entries as [|child rest [IHf IHd]]; [done|].
  destruct child as [f|d listing]; rewrite map_cons.
  - cbn [hollow_entry omap list_omap]. by rewrite <- IHf, <- IHd.
  - unfold hollow_entry at 1 3.
    destruct (_is_result_directory (Path.join root d)).
    + cbn [omap list_omap]. by rewrite <- IHf, <- IHd.
    + destruct (hollow_dir (Path.join root d) d listing) as [listing' ->].
      cbn [omap list_omap]. by rewrite <- IHf, <- IHd.
Qed.

Lemma walk_dirs_hollow root entries sc :
  Forall (fun child => forall path sc,
            walk e path (hollow path child) sc = walk e path child sc) entries ->
  walk_dirs (walk e) root (map (hollow_entry hollow root) entries) sc
  = walk_dirs (walk e) root entries sc.
Proof.
  revert sc. induction entries as [|child rest IH]; intros sc Hall; [done|].
  apply Forall_cons in Hall as [Hhead Hall]. rewrite map_cons.
  destruct child as [f|d listing].
  - cbn [hollow_entry walk_dirs]. by apply IH.
  - unfold hollow_entry at 1. rewrite (walk_dirs_dir _ root d listing).
    destruct (_is_result_directory (Path.join root d)) eqn:Hres.
    + rewrite walk_dirs_dir, Hres. by apply IH.
    + destruct (hollow_dir (Path.join root d) d listing) as [listing' Heq].
      rewrite Heq, walk_dirs_dir, Hres, <- Heq, Hhead.
      destruct (walk e (Path.join root d) (Dir d listing) sc) as [s sc'].
      destruct s; [by apply IH|done..].
Qed.

(** The scan never looks into a results directory: what is in it is of no
    account, down to the counters. *)
Lemma walk_hollow n : forall root sc, walk e root (hollow root n) sc = walk e root n sc.
Proof.
  induction n as [f|d|d entries IH] using node_induction; intros root sc; [done..|].
  cbn [hollow walk]. destruct (names_hollow root entries) as [-> ->].
  destruct (is_cancelled e sc) as [cancelled sc1].
  destruct cancelled; [done|].
  destruct (raises e (reads sc)); [done|].
  destruct (_is_result_directory root); [done|].
  destruct (scan_files e root (file_names entries) _) as [s sc3].
  destruct s; [by apply walk_dirs_hollow..|done].
Qed.

Lemma run_hollow folder_path top :
  run e folder_path (hollow folder_path top) = run e folder_path top.
Proof. unfold run. by rewrite walk_hollow. Qed.

End pruning.

Lemma run_candidates (e : env) (folder_path : string) (top : node) (p : string) :
  entries_ok top = true ->
  (exists l, files_found l ∈ (run e folder_path top).1 /\ p ∈ l)
  \/ p ∈ ((run e folder_path top).2).*1 ->
  candidate folder_path p.
Proof.
  intros Hok Hp. destruct (run_reports e folder_path top) as [Hproc Hfound].
  apply (walk_candidates e folder_path top folder_path init).
  - split; [done|]. by exists [].
  - intros q [Hq|Hq]; inversion Hq.
  - destruct Hp as [(l & Hl & Hp)|Hp].
    + left. by rewrite <- (Hfound l Hl).
    + right. by rewrite <- Hproc.
Qed.

(** C10.  A file whose name contains "gemini", in any letter case, is no
    candidate: its path is neither in the pending list that the scan emits
    nor an input of the already-processed list, whatever its extension and
    whatever exists on disk. *)
Theorem result_files_excluded (e : env) (folder_path : string) (top : node) (p : string) :
  entries_ok top = true ->
  Str.contains "gemini" (Str.lower (Path.basename p)) = true ->
  (forall l, files_found l ∈ (run e folder_path top).1 -> p ∉ l)
  /\ p ∉ ((run e folder_path top).2).*1.
Proof.
  intros Hok Hgem.
  assert (Hnot : ~ candidate folder_path p).
  { intros (dirs & file & -> & _ & Hname & Hres & _).
    rewrite descend_snoc, basename_join in Hgem by done.
    unfold _is_result_file in Hres. congruence. }
  split.
  - intros l Hl Hp. apply Hnot, (run_candidates e folder_path top p Hok). left. eauto.
  - intros Hp. apply Hnot, (run_candidates e folder_path top p Hok). by right.
Qed.

(** C5.  A directory whose name matches the results-directory pattern is
    pruned with everything in it.  The scan does not descend into it: the
    scan of a tree is the scan of the tree with every such directory
    emptied.  Nothing in it is reported: no path that leads from the scanned
    folder through such a directory is in the pending list that the scan
    emits or an input of the already-processed list.  If the scanned folder
    itself matches, both lists are empty. *)
Theorem result_directories_pruned (e : env) (folder_path : string) (top : node) :
  entries_ok top = true ->
  run e folder_path (hollow folder_path top) = run e folder_path top
  /\ (forall dirs file,
     Forall (fun d => name_ok d = true) dirs -> name_ok file = true ->
     Exists (fun d => is_result_name (Str.lower d) = true) dirs ->
     (forall l, files_found l ∈ (run e folder_path top).1 ->
        descend folder_path (dirs ++ [file]) ∉ l)
     /\ descend folder_path (dirs ++ [file]) ∉ ((run e folder_path top).2).*1)
  /\ (_is_result_directory folder_path = true ->
        (forall l, files_found l ∈ (run e folder_path top).1 -> l = [])
        /\ (run e folder_path top).2 = []).
Proof.
  intros Hok. split; [apply run_hollow|]. split.
  - intros dirs file Hdirs Hfile Hex.
    assert (Hnot : ~ candidate folder_path (descend folder_path (dirs ++ [file]))).
    { intros (dirs' & file' & Heq & Hkept & Hname' & _).
      apply descend_inj in Heq.
      - apply app_inj_tail in Heq as [-> _].
        apply Exists_exists in Hex as (d & Hd & Hres).
        rewrite Forall_forall in Hkept. destruct (Hkept d Hd) as [_ Hno]. congruence.
      - apply Forall_app. split; [done|]. by apply Forall_singleton.
      - apply Forall_app. split; [|by apply Forall_singleton].
        eapply Forall_impl; [exact Hkept|]. by intros d [? _].
      - by destruct dirs.
      - by destruct dirs'. }
    split.
    + intros l Hl Hp. apply Hnot, (run_candidates e folder_path top _ Hok). left. eauto.
    + intros Hp. apply Hnot, (run_candidates e folder_path top _ Hok). by right.
  - intros Hres. destruct (run_reports e folder_path top) as [-> Hfound].
    assert (Hempty : image_files (walk e folder_path top init).2 = []
                     /\ already_processed (walk e folder_path top init).2 = []).
    { destruct top as [f|d [entries|]]; [done| |done].
      simpl walk. rewrite Hres. unfold is_cancelled.
      by repeat case_match. }
    destruct Hempty as [Himg Hproc]. split; [|done].
    intros l Hl. by rewrite (Hfound l Hl).
Qed.

(** C6.  What [on_folder_scanned] hands to the consumer from a scan, whatever
    is on disk by then: the pending files are sorted, none of them is a key
    of the already-processed mapping, and none is an input of the scanner's
    already-processed list. *)
Theorem pending_sorted_and_disjoint (e : env) (folder_path : string) (top : node)
    (image_files : list string) (still_exists : string -> bool) :
  files_found image_files ∈ (run e folder_path top).1 ->
  let already_processed := (run e folder_path top).2 in
  let handed := Consumer.on_folder_scanned still_exists already_processed image_files in
  StronglySorted String.le handed.2
  /\ (forall p, p ∈ handed.2 -> handed.1 !! p = None /\ p ∉ already_processed.*1).
Proof.
  intros Hfound. simpl. unfold Consumer.sorted. split.
  - apply Sorted_StronglySorted; [apply _|]. apply Sorted_merge_sort; apply _.
  - intros p Hp. rewrite merge_sort_Permutation in Hp.
    apply list_elem_of_filter in Hp as [Hnone Hin]. split; [done|].
    destruct (run_reports e folder_path top) as [Hproc Himg].
    rewrite (Himg _ Hfound) in Hin. rewrite Hproc.
    destruct (walk_classified e top folder_path init) as (_ & Hpend & Hdone).
    { split_and!; [done|intros ? Hq; inversion Hq|intros ?? Hq; inversion Hq]. }
    intros Hkey. apply list_elem_of_fmap in Hkey as ([q r] & -> & Hqr).
    simpl in Hin. specialize (Hpend q Hin). rewrite (Hdone q r Hqr) in Hpend. done.
Qed.

Lemma run_emits (e : env) (folder_path : string) (top : node) :
  fault_at e = None ->
  (is_cancelled e (walk e folder_path top init).2).1 = false ->
  exists l,
    run e folder_path top
    = ([files_found l; scan_finished (length l + length (run e folder_path top).2)],
       (run e folder_path top).2)
    /\ l = image_files (walk e folder_path top init).2.
Proof.
  intros Hf Hc. pose proof (walk_no_raise e top folder_path init Hf) as Hs.
  destruct (walk_classified e top folder_path init) as (Hcount & _).
  { split_and!; [done|intros ? Hq; inversion Hq|intros ?? Hq; inversion Hq]. }
  unfold run in *. destruct (walk e folder_path top init) as [s sc].
  simpl in *. exists (image_files sc).
  destruct s; [| |done]; rewrite Hc; simpl; by rewrite Hcount.
Qed.

(** C9, as the code has it.  When no step of the scan raises: if the flag is
    still unset at the last read, the scan emits the pending list and then
    the completion event with the total count, pending plus already
    processed; if the flag is set by then, as it is when the scan was
    cancelled during the walk, the scan emits nothing. *)
Theorem scan_emits_unless_cancelled (e : env) (folder_path : string) (top : node) :
  fault_at e = None ->
  ((forall k, cancel_after e = Some k -> (reads (walk e folder_path top init).2 < k)%nat) ->
   exists l,
     (run e folder_path top).1
     = [files_found l; scan_finished (length l + length (run e folder_path top).2)])
  /\ (forall k, cancel_after e = Some k -> (k <= reads (walk e folder_path top init).2)%nat ->
      (run e folder_path top).1 = []).
Proof.
  intros Hf. split.
  - intros Hk. destruct (run_emits e folder_path top Hf) as (l & Hrun & _).
    + unfold is_cancelled. simpl. destruct (cancel_after e) as [k|]; [|done].
      apply Nat.leb_gt. by apply Hk.
    + exists l. by rewrite Hrun at 1.
  - intros k Hk Hle. pose proof (walk_no_raise e top folder_path init Hf) as Hs.
    unfold run. destruct (walk e folder_path top init) as [s sc].
    assert (Hc : (is_cancelled e sc).1 = true).
    { unfold is_cancelled. simpl. rewrite Hk. by apply Nat.leb_le. }
    simpl in *. destruct s; [| |done]; by rewrite Hc.
Qed.

Section listing_failures.
Variable e : env.

Lemma alike_refl sc : alike sc sc.
Proof. by repeat split. Qed.

Lemma alike_bump sc sc' : alike sc sc' -> alike (bump_reads sc) (bump_reads sc').
Proof. intros (?&?&?&?&?). repeat split; simpl; congruence. Qed.

Lemma alike_dirs j k sc sc' :
  alike sc sc' -> alike (add_skipped_dirs j sc) (add_skipped_dirs k sc').
Proof. intros (?&?&?&?&?). by repeat split. Qed.

Lemma scan_file_alike root file sc sc' :
  alike sc sc' -> alike (scan_file e root file sc) (scan_file e root file sc').
Proof.
  intros (?&?&?&?&?). unfold scan_file.
  repeat case_match; repeat split; simpl; congruence.
Qed.

Lemma scan_files_alike root files sc sc' :
  alike sc sc' ->
  (scan_files e root files sc').1 = (scan_files e root files sc).1
  /\ alike (scan_files e root files sc).2 (scan_files e root files sc').2.
Proof.
  revert sc sc'. induction files as [|file rest IH]; intros sc sc' Hsc; [done|].
  simpl. destruct Hsc as (Hi & Hp & Hf & Hc & Hr). rewrite <- Hr.
  assert (Hb : alike (bump_reads sc) (bump_reads sc')) by (by apply alike_bump).
  destruct (match cancel_after e with Some n => (n <=? reads sc)%nat | None => false end);
    [done|].
  destruct (raises e (reads sc)); [done|].
  by apply IH, scan_file_alike.
Qed.

Lemma listable_cons child rest :
  omap (keep_listed listable) (child :: rest)
  = match child with
    | Dir _ None => omap (keep_listed listable) rest
    | _ => listable child :: omap (keep_listed listable) rest
    end.
Proof. by destruct child as [f|d [sub|]]. Qed.

Lemma file_names_cons child rest :
  file_names (child :: rest)
  = match child with
    | File f => f :: file_names rest
    | Dir _ _ => file_names rest
    end.
Proof. by destruct child. Qed.

Lemma file_names_listable entries :
  file_names (omap (keep_listed listable) entries) = file_names entries.
Proof.
  induction entries as [|child rest IH]; [done|].
  rewrite listable_cons, (file_names_cons child).
  destruct child as [f|d [sub|]]; [| |done].
  - change (listable (File f)) with (File f). by rewrite file_names_cons, IH.
  - change (listable (Dir d (Some sub)))
      with (Dir d (Some (omap (keep_listed listable) sub))).
    by rewrite file_names_cons.
Qed.

Lemma walk_dirs_listable root entries sc sc' :
  Forall (fun child => forall path sc sc', alike sc sc' ->
            (walk e path (listable child) sc').1 = (walk e path child sc).1
            /\ alike (walk e path child sc).2 (walk e path (listable child) sc').2) entries ->
  alike sc sc' ->
  (walk_dirs (walk e) root (omap (keep_listed listable) entries) sc').1
  = (walk_dirs (walk e) root entries sc).1
  /\ alike (walk_dirs (walk e) root entries sc).2
       (walk_dirs (walk e) root (omap (keep_listed listable) entries) sc').2.
Proof.
  revert sc sc'. induction entries as [|child rest IH]; intros sc sc' Hall Hsc; [done|].
  apply Forall_cons in Hall as [Hhead Hall]. rewrite listable_cons.
  destruct child as [f|d [sub|]].
  - change (listable (File f)) with (File f). cbn [walk_dirs]. by apply IH.
  - specialize (Hhead (Path.join root d) sc sc' Hsc).
    change (walk_dirs (walk e) root
              (listable (Dir d (Some sub)) :: omap (keep_listed listable) rest) sc')
      with (if _is_result_directory (Path.join root d)
            then walk_dirs (walk e) root (omap (keep_listed listable) rest) sc'
            else
              let '(s, sc1) := walk e (Path.join root d) (listable (Dir d (Some sub))) sc' in
              match s with
              | Next => walk_dirs (walk e) root (omap (keep_listed listable) rest) sc1
              | _ => (s, sc1)
              end).
    change (walk_dirs (walk e) root (Dir d (Some sub) :: rest) sc)
      with (if _is_result_directory (Path.join root d)
            then walk_dirs (walk e) root rest sc
            else
              let '(s, sc1) := walk e (Path.join root d) (Dir d (Some sub)) sc in
              match s with
              | Next => walk_dirs (walk e) root rest sc1
              | _ => (s, sc1)
              end).
    destruct (_is_result_directory (Path.join root d)); [by apply IH|].
    destruct (walk e (Path.join root d) (listable (Dir d (Some sub))) sc') as [s' sc1'].
    destruct (walk e (Path.join root d) (Dir d (Some sub)) sc) as [s sc1].
    simpl in Hhead. destruct Hhead as [-> Hsc1].
    destruct s; [by apply IH|done..].
  - cbn [walk_dirs walk].
    destruct (_is_result_directory (Path.join root d)); by apply IH.
Qed.

(** A directory that cannot be listed leaves no mark on the scan. *)
Lemma walk_listable n : forall root sc sc',
  alike sc sc' ->
  (walk e root (listable n) sc').1 = (walk e root n sc).1
  /\ alike (walk e root n sc).2 (walk e root (listable n) sc').2.
Proof.
  induction n as [f|d|d entries IH] using node_induction; intros root sc sc' Hsc;
    [done..|].
  cbn [listable walk]. unfold is_cancelled.
  pose proof Hsc as (_ & _ & _ & _ & Hr). rewrite <- Hr.
  destruct (match cancel_after e with Some n => (n <=? reads sc)%nat | None => false end);
    [split; [done|by apply alike_bump]|].
  destruct (raises e (reads sc)); [split; [done|by apply alike_bump]|].
  destruct (_is_result_directory root);
    [split; [done|by apply alike_dirs, alike_bump]|].
  rewrite file_names_listable.
  set (sc2 := add_skipped_dirs _ (bump_reads sc)).
  set (sc2' := add_skipped_dirs _ (bump_reads sc')).
  destruct (scan_files_alike root (file_names entries) sc2 sc2') as [Hs Hsc3];
    [by apply alike_dirs, alike_bump|].
  destruct (scan_files e root (file_names entries) sc2') as [s' sc3'].
  destruct (scan_files e root (file_names entries) sc2) as [s sc3].
  simpl in Hs, Hsc3. subst s'.
  destruct s; [by apply walk_dirs_listable..|done].
Qed.

Lemma run_listable folder_path top :
  run e folder_path (listable top) = run e folder_path top.
Proof.
  destruct (walk_listable top folder_path init init (alike_refl init)) as [Hs Hsc].
  unfold run.
  destruct (walk e folder_path (listable top) init) as [s' sc'].
  destruct (walk e folder_path top init) as [s sc].
  simpl in Hs, Hsc. subst s'. destruct Hsc as (Hi & Hp & _ & Hc & Hr).
  unfold is_cancelled. simpl. by rewrite Hi, Hp, Hc, Hr.
Qed.

End listing_failures.

(** C8, as the code has it.  A failure to list a directory never leaves the
    scan as an exception.  A directory below the scanned folder that cannot
    be listed is passed over: the scan emits exactly what it emits for the
    tree without such directories.  If the scanned folder itself cannot be
    listed, and nothing cancels the scan, it emits an empty pending list and
    a completion count of 0.  An exception raised in the loop is caught: the
    scan then emits the completion count 0 and no pending list. *)
Theorem listing_failure_passed_over (e : env) (folder_path : string) :
  (forall top, run e folder_path (listable top) = run e folder_path top)
  /\ (forall d, cancel_after e = None ->
        run e folder_path (Dir d None) = ([files_found []; scan_finished 0], []))
  /\ (forall top, (walk e folder_path top init).1 = Raise ->
        (run e folder_path top).1 = [scan_finished 0]).
Proof.
  split_and!.
  - apply run_listable.
  - intros d Hc. unfold run, is_cancelled. simpl. by rewrite Hc.
  - intros top Hs. unfold run. destruct (walk e folder_path top init) as [s sc].
    simpl in Hs. by subst s.
Qed.

Example photos_gemini_results_is_result_name :
  _is_result_directory "/data/photos/photos_gemini_results" = true
  /\ _is_result_directory "/data/photos/old_GEMINI_RESULTS_2/" = true
  /\ _is_result_directory "/data/photos/sub" = false.
Proof. repeat split; reflexivity. Qed.

Example scan_of_photos :
  run Samples.quiet_scan "/data/photos" Samples.photos
  = ([files_found ["/data/photos/b.jpg"; "/data/photos/a.PNG"; "/data/photos/sub/deep/d.webp"];
      scan_finished 4],
     [("/data/photos/sub/c.jpeg", "/data/photos/sub/c_gemini_results/c_gemini.png")]).
Proof. vm_compute. reflexivity. Qed.

Lemma result_files_excluded_witness :
  (forall l, files_found l ∈ (run Samples.quiet_scan "/data/photos" Samples.photos).1 ->
     "/data/photos/Gemini_shot.png" ∉ l)
  /\ "/data/photos/Gemini_shot.png"
       ∉ ((run Samples.quiet_scan "/data/photos" Samples.photos).2).*1.
Proof.
  apply (result_files_excluded Samples.quiet_scan "/data/photos" Samples.photos
           "/data/photos/Gemini_shot.png"); reflexivity.
Defined.

Lemma result_directories_pruned_witness :
  (forall l, files_found l ∈ (run Samples.quiet_scan "/data/photos" Samples.photos).1 ->
     descend "/data/photos" (["photos_gemini_results"] ++ ["b.jpg"]) ∉ l)
  /\ descend "/data/photos" (["photos_gemini_results"] ++ ["b.jpg"])
       ∉ ((run Samples.quiet_scan "/data/photos" Samples.photos).2).*1.
Proof.
  destruct (result_directories_pruned Samples.quiet_scan "/data/photos" Samples.photos)
    as (_ & H & _); [reflexivity|].
  apply (H ["photos_gemini_results"] "b.jpg").
  - apply Forall_singleton. reflexivity.
  - reflexivity.
  - apply Exists_cons_hd. reflexivity.
Defined.

Lemma pending_sorted_and_disjoint_witness :
  let found := ["/data/photos/b.jpg"; "/data/photos/a.PNG"; "/data/photos/sub/deep/d.webp"] in
  let already_processed := (run Samples.quiet_scan "/data/photos" Samples.photos).2 in
  let handed := Consumer.on_folder_scanned Samples.on_disk already_processed found in
  StronglySorted String.le handed.2
  /\ (forall p, p ∈ handed.2 -> handed.1 !! p = None /\ p ∉ already_processed.*1).
Proof.
  apply (pending_sorted_and_disjoint Samples.quiet_scan "/data/photos" Samples.photos
           ["/data/photos/b.jpg"; "/data/photos/a.PNG"; "/data/photos/sub/deep/d.webp"]
           Samples.on_disk).
  vm_compute. left.
Defined.

Example handed_to_consumer :
  (Consumer.on_folder_scanned Samples.on_disk
     (run Samples.quiet_scan "/data/photos" Samples.photos).2
     ["/data/photos/b.jpg"; "/data/photos/a.PNG"; "/data/photos/sub/deep/d.webp"]).2
  = ["/data/photos/a.PNG"; "/data/photos/b.jpg"; "/data/photos/sub/deep/d.webp"].
Proof. vm_compute. reflexivity. Qed.

(** C8 as stated fails: with a directory that cannot be listed in the tree,
    the scan still emits the files it found and their count, not "nothing
    found". *)
Lemma unlisted_directory_keeps_results :
  run Samples.quiet_scan "/data/photos" Samples.with_locked
  = ([files_found ["/data/photos/a.jpg"]; scan_finished 1], []).
Proof. vm_compute. reflexivity. Qed.

Lemma listing_failure_passed_over_witness :
  run Samples.quiet_scan "/data/photos" (listable Samples.with_locked)
  = run Samples.quiet_scan "/data/photos" Samples.with_locked
  /\ run Samples.quiet_scan "/data/photos" (Dir "photos" None)
     = ([files_found []; scan_finished 0], [])
  /\ (run Samples.failing_scan "/data/photos" Samples.photos).1 = [scan_finished 0].
Proof.
  destruct (listing_failure_passed_over Samples.quiet_scan "/data/photos") as (H1 & H2 & _).
  destruct (listing_failure_passed_over Samples.failing_scan "/data/photos") as (_ & _ & H3).
  split; [apply H1|]. split; [apply H2; reflexivity|]. apply H3. reflexivity.
Defined.

(** C9 as stated fails: a scan that is cancelled during the walk emits
    neither the pending list nor the completion event. *)
Lemma cancelled_scan_emits_nothing :
  run Samples.stopped_scan "/data/photos" Samples.photos = ([], []).
Proof. vm_compute. reflexivity. Qed.

Lemma scan_emits_unless_cancelled_witness :
  (exists l,
     (run Samples.quiet_scan "/data/photos" Samples.photos).1
     = [files_found l;
        scan_finished (length l + length (run Samples.quiet_scan "/data/photos" Samples.photos).2)])
  /\ (run Samples.stopped_scan "/data/photos" Samples.photos).1 = [].
Proof.
  destruct (scan_emits_unless_cancelled Samples.quiet_scan "/data/photos" Samples.photos)
    as [H1 _]; [reflexivity|].
  destruct (scan_emits_unless_cancelled Samples.stopped_scan "/data/photos" Samples.photos)
    as [_ H2]; [reflexivity|].
  split.
  - apply H1. intros k Hk. discriminate Hk.
  - apply (H2 3%nat); [reflexivity|]. vm_compute. lia.
Defined.

End ScannerProofs.

(** * The processing worker: what every run does *)

Module WorkerRuns.
Import Worker WorkerProofs.

Section run_facts.
Variable e : env.

(** The polling loop notices a flag set at [c] at its first poll at or
    after [c]. *)
Lemma sleep_loop_latency fuel end_time poll w c :
  0 < poll ->
  end_time - now w <= Z.of_nat fuel * poll ->
  cancel_at e = Some c ->
  now w < c <= end_time ->
  exists t,
    sleep_loop e fuel end_time poll w = Some (set_now t w)
    /\ c <= t < c + poll /\ t <= end_time.
Proof.
  intros Hpoll Hfuel Hc. revert w Hfuel.
  induction fuel as [|fuel IH]; intros w Hfuel Hnow.
  { simpl in Hfuel. lia. }
  simpl sleep_loop. unfold is_cancelled, cancelled_at. rewrite Hc.
  destruct (Z.leb_spec c (now w)); [lia|].
  destruct (Z.leb_spec (end_time - now w) 0); [lia|].
  set (w1 := sleep (Z.min poll (end_time - now w)) w).
  assert (Hnow1 : now w1 = now w + Z.min poll (end_time - now w)) by done.
  destruct (Z.lt_ge_cases (now w1) c) as [Hlt|Hge].
  - destruct (IH w1) as (t & Ht & Hr); [rewrite Nat2Z.inj_succ in Hfuel; lia | lia |].
    exists t. rewrite Ht. split; [by destruct w|done].
  - exists (now w1). split; [|lia].
    destruct fuel; simpl; unfold is_cancelled, cancelled_at; rewrite Hc;
      (destruct (Z.leb_spec c (now w1)); [by destruct w | lia]).
Qed.

(** One item, whatever happens: at most one call for each value that
    [retry_count] can still take, all of them for the item's own image. *)
Lemma retry_loop_bounded fuel i total image_path w :
  0 <= retry_count w ->
  max_retries + 1 - retry_count w <= Z.of_nat fuel ->
  exists w' new,
    retry_loop e fuel i total image_path w = Some w'
    /\ trace w' = (trace w ++ new)%list
    /\ (forall t p, (t, p) ∈ dispatches new -> p = image_path)
    /\ Z.of_nat (length (dispatches new)) <= Z.max 0 (max_retries + 1 - retry_count w).
Proof.
  revert w. induction fuel as [|fuel IH]; intros w H0 Hfuel.
  { simpl retry_loop.
    destruct (Z.leb_spec (retry_count w) max_retries); simpl; [unfold max_retries in *; lia|].
    exists w, []. rewrite app_nil_r. split_and!; try done; [|simpl; lia].
    intros ?? Hin; inversion Hin. }
  rewrite retry_loop_S.
  destruct (Z.leb_spec (retry_count w) max_retries) as [Hrc|Hrc]; cbn [negb].
  2:{ exists w, []. rewrite app_nil_r. split_and!; try done; [|simpl; lia].
      intros ?? Hin; inversion Hin. }
  destruct (pace_spec e i w)
    as (go & w1 & new1 & -> & Htr1 & (Hd1 & _ & He1) & Hc1 & Hres1 & Hrc1 & _).
  destruct go; cbn [negb].
  2:{ exists w1, new1. rewrite Hd1. split_and!; try done; [|simpl; lia].
      intros ?? Hin. inversion Hin. }
  destruct (call_remover_spec e i total image_path w1)
    as (w3 & -> & Htr3 & Hc3 & Hres3 & Hrc3 & _ & _).
  set (mid := [(now w1, Processing i total (Path.basename image_path));
               (now w1, Dispatch image_path (output_path_for e image_path))]) in *.
  assert (Hmid : dispatches mid = [(now w1, image_path)]) by done.
  assert (Hone : forall rest, dispatches rest = [] ->
            (forall t p, (t, p) ∈ dispatches (new1 ++ mid ++ rest) -> p = image_path)
            /\ Z.of_nat (length (dispatches (new1 ++ mid ++ rest)))
               <= Z.max 0 (max_retries + 1 - retry_count w)).
  { intros rest Hrest. rewrite !dispatches_app, Hd1, Hrest, Hmid. simpl. split; [|lia].
    intros t p Hin. apply list_elem_of_singleton in Hin. by inversion Hin. }
  destruct (answer (remover e (calls w1))) as [|error].
  - exists (set_result image_path (Success (output_path_for e image_path))
              (emit (image_processed image_path (output_path_for e image_path)) w3)),
      (new1 ++ mid ++ [(now w3, image_processed image_path (output_path_for e image_path))])%list.
    split; [done|]. cbn [trace set_result emit]. split.
    + rewrite Htr3, Htr1. by rewrite <- !app_assoc.
    + by apply Hone.
  - destruct (is_cancelled e w3) eqn:Hcan3.
    { exists w3, (new1 ++ mid ++ [])%list. split; [done|]. split.
      + rewrite Htr3, Htr1. by rewrite app_nil_r, <- !app_assoc.
      + by apply Hone. }
    destruct (handle_frame e error image_path w3)
      as (handled & w4 & new4 & -> & Htr4 & Hd4 & He4 & Hc4 & Hres4 & Hrc4 & _); [lia|].
    destruct (is_cancelled e w4) eqn:Hcan4.
    { exists w4, (new1 ++ mid ++ new4)%list. split; [done|]. split.
      + rewrite Htr4, Htr3, Htr1. by rewrite <- !app_assoc.
      + by apply Hone. }
    destruct handled.
    + destruct (Hrc4 eq_refl) as [Hrc4a Hrc4b].
      destruct (IH w4) as (w' & new' & -> & Htr' & Hd' & Hlen');
        [lia | rewrite Nat2Z.inj_succ in Hfuel; lia |].
      exists w', (new1 ++ mid ++ (new4 ++ new'))%list. split; [done|]. split_and!.
      * rewrite Htr', Htr4, Htr3, Htr1. by rewrite <- !app_assoc.
      * intros t p. rewrite !dispatches_app, Hd1, Hd4, Hmid. simpl.
        intros Hin. apply elem_of_cons in Hin as [Heq|Hin]; [by inversion Heq; subst|].
        by eapply Hd'.
      * rewrite !dispatches_app, Hd1, Hd4, Hmid. simpl length.
        rewrite Nat2Z.inj_succ. lia.
    + exists (set_result image_path (Failure error)
                (emit (error_occurred (failed_message image_path error) image_path) w4)),
        (new1 ++ mid ++ (new4 ++ [(now w4, error_occurred (failed_message image_path error)
                                               image_path)]))%list.
      split; [done|]. cbn [trace set_result emit]. split.
      * rewrite Htr4, Htr3, Htr1. by rewrite <- !app_assoc.
      * apply Hone. by rewrite dispatches_app, Hd4.
Qed.

Lemma run_items_bounded i total image_paths w :
  exists w' new,
    run_items e i total image_paths w = Some w'
    /\ trace w' = (trace w ++ new)%list
    /\ forall p, (length (filter (fun tp => tp.2 = p) (dispatches new))
                  <= 4 * length (filter (fun q => q = p) image_paths))%nat.
Proof.
  revert i w. induction image_paths as [|image_path rest IH]; intros i w.
  { exists w, []. rewrite app_nil_r. split_and!; try done; intros p; simpl; lia. }
  rewrite run_items_cons.
  destruct (is_cancelled e w) eqn:Hcan.
  { exists w, []. rewrite app_nil_r. split_and!; try done; intros p; simpl; lia. }
  destruct (retry_loop_bounded (Z.to_nat (max_retries + 1)) i total image_path
              (set_retry_count 0 w))
    as (w1 & new1 & -> & Htr1 & Hd1 & Hlen1); [done..|].
  cbn [trace retry_count set_retry_count] in *.
  assert (Hfor : forall p,
            (length (filter (fun tp : Z * string => tp.2 = p) (dispatches new1))
             <= 4 * length (filter (fun q => q = p) [image_path]))%nat).
  { intros p. destruct (decide (image_path = p)) as [->|Hne].
    - rewrite filter_cons_True by done. simpl.
      pose proof (length_filter (fun tp : Z * string => tp.2 = p) (dispatches new1)).
      unfold max_retries in Hlen1. lia.
    - rewrite filter_cons_False by done. rewrite filter_none; [simpl; lia|].
      intros [t q] Hin Heq. simpl in Heq. subst q. by rewrite (Hd1 t p Hin) in Hne. }
  destruct (is_cancelled e w1) eqn:Hcan1.
  { exists w1, new1. split; [done|]. split; [done|]. intros p.
    specialize (Hfor p). change (image_path :: rest) with ([image_path] ++ rest)%list.
    rewrite filter_app, length_app. lia. }
  destruct (IH (S i) w1) as (w2 & new2 & -> & Htr2 & Hlen2).
  exists w2, (new1 ++ new2)%list. split; [done|]. split.
  - rewrite Htr2, Htr1. by rewrite <- app_assoc.
  - intros p. specialize (Hfor p). specialize (Hlen2 p).
    change (image_path :: rest) with ([image_path] ++ rest)%list.
    rewrite dispatches_app, !filter_app, !length_app. lia.
Qed.

(** With nothing cancelling the run, an item ends with an entry of its own. *)
Lemma retry_loop_settles fuel i total image_path w :
  cancel_at e = None ->
  0 <= retry_count w <= max_retries ->
  max_retries + 1 - retry_count w <= Z.of_nat fuel ->
  exists w' r,
    retry_loop e fuel i total image_path w = Some w'
    /\ results w' = <[image_path := r]> (results w)
    /\ (r = Success (output_path_for e image_path) \/ exists d, r = Failure d).
Proof.
  intros Hnone. revert w. induction fuel as [|fuel IH]; intros w Hrc Hfuel.
  { simpl in Hfuel. lia. }
  destruct (answer (remover e (calls w))) as [|d] eqn:Hans.
  - destruct (retry_step_success e fuel i total image_path w)
      as (w' & new & -> & _ & _ & _ & _ & _ & Hres); [done | lia | done |].
    exists w', (Success (output_path_for e image_path)). auto.
  - destruct (is_rate_limit_error d) eqn:Herr.
    + destruct (Z.eq_dec (retry_count w) max_retries) as [Heq|Hne].
      * destruct (retry_step_exhausted e fuel i total image_path w d)
          as (w' & new & -> & _ & _ & _ & _ & _ & Hres); [done..|].
        exists w', (Failure d). eauto.
      * destruct (retry_step_backoff e fuel i total image_path w d)
          as (w4 & new & -> & _ & _ & _ & _ & _ & Hres4 & Hrc4); [done | lia | lia | done..|].
        destruct (IH w4) as (w' & r & -> & Hres & Hr);
          [lia | rewrite Nat2Z.inj_succ in Hfuel; lia|].
        exists w', r. rewrite Hres, Hres4. auto.
    + destruct (retry_step_permanent e fuel i total image_path w d)
        as (w' & new & -> & _ & _ & _ & _ & _ & Hres); [done | lia | done..|].
      exists w', (Failure d). eauto.
Qed.

Lemma run_items_settles i total image_paths w :
  cancel_at e = None ->
  exists w',
    run_items e i total image_paths w = Some w'
    /\ (forall p, p ∈ image_paths -> exists r, results w' !! p = Some r
       /\ (r = Success (output_path_for e p) \/ exists d, r = Failure d))
    /\ (forall p, p ∉ image_paths -> results w' !! p = results w !! p).
Proof.
  intros Hnone. revert i w. induction image_paths as [|image_path rest IH]; intros i w.
  { exists w. split; [done|]. split; [|done]. intros p Hin. inversion Hin. }
  rewrite run_items_cons, (never_cancelled e w Hnone).
  destruct (retry_loop_settles (Z.to_nat (max_retries + 1)) i total image_path
              (set_retry_count 0 w) Hnone)
    as (w1 & r & -> & Hres1 & Hr); [done..|].
  rewrite (never_cancelled e w1 Hnone).
  destruct (IH (S i) w1) as (w2 & -> & Hin2 & Hout2).
  exists w2. split; [done|]. cbn [results set_retry_count] in Hres1. split.
  - intros p Hp. destruct (decide (p ∈ rest)) as [Hrest|Hrest]; [by apply Hin2|].
    apply elem_of_cons in Hp as [->|Hp]; [|done].
    exists r. rewrite Hout2, Hres1, lookup_insert_eq by done. done.
  - intros p Hp. apply not_elem_of_cons in Hp as [Hne Hp].
    rewrite Hout2, Hres1 by done. by rewrite lookup_insert_ne.
Qed.

(** [k] rate-limit errors, the budget not yet spent, and then an answer. *)
Lemma retry_loop_recovers (k : nat) : forall fuel i total image_path w d,
  cancel_at e = None ->
  0 <= retry_count w -> retry_count w + Z.of_nat k <= max_retries ->
  (k < fuel)%nat ->
  (forall j, (j < k)%nat ->
     answer (remover e (calls w + j)) = Raised (d j) /\ is_rate_limit_error (d j) = true) ->
  answer (remover e (calls w + k)) = Returned ->
  exists w' new,
    retry_loop e fuel i total image_path w = Some w'
    /\ trace w' = (trace w ++ new)%list
    /\ backoffs new = (fun j => 30 * 2 ^ (retry_count w + Z.of_nat j)) <$> seq 0 k
    /\ errors new = []
    /\ (dispatches new).*2 = replicate (S k) image_path
    /\ results w' = <[image_path := Success (output_path_for e image_path)]> (results w).
Proof.
  induction k as [|k IH]; intros fuel i total image_path w d Hnone H0 Hrc Hfuel Hd Hret.
  - destruct fuel as [|fuel]; [lia|]. rewrite Nat.add_0_r in Hret.
    destruct (retry_step_success e fuel i total image_path w)
      as (w' & new & -> & Htr & Hb & He & Hdis & _ & Hres); [done | lia | done |].
    exists w', new. done.
  - destruct fuel as [|fuel]; [lia|].
    destruct (Hd 0%nat) as [Ha0 He0]; [lia|]. rewrite Nat.add_0_r in Ha0.
    destruct (retry_step_backoff e fuel i total image_path w (d 0%nat))
      as (w1 & n1 & -> & Ht1 & Hb1 & He1 & Hd1 & Hc1 & Hr1 & Hrc1); [done | lia | lia | done..|].
    destruct (IH fuel i total image_path w1 (fun j => d (S j)))
      as (w' & new & -> & Htr & Hb & He & Hdis & Hres); [done | lia | lia | lia | | |].
    { intros j Hj. replace (calls w1 + j)%nat with (calls w + S j)%nat by lia.
      apply Hd. lia. }
    { by replace (calls w1 + k)%nat with (calls w + S k)%nat by lia. }
    exists w', (n1 ++ new)%list. split; [done|]. split_and!.
    + rewrite Htr, Ht1. by rewrite <- app_assoc.
    + rewrite backoffs_app, Hb1, Hb. cbn [seq fmap list_fmap app].
      rewrite Z.add_0_r. f_equal. rewrite <- seq_shift, <- list_fmap_compose.
      apply list_fmap_ext. intros _ j _. simpl. f_equal. f_equal. lia.
    + by rewrite errors_app, He1, He.
    + rewrite dispatches_app, fmap_app, Hd1, Hdis. done.
    + by rewrite Hres, Hr1.
Qed.

(** The first image is handed over without any wait. *)
Lemma retry_loop_first_call fuel total image_path w :
  is_cancelled e w = false ->
  0 <= retry_count w <= max_retries ->
  max_retries + 1 - retry_count w <= Z.of_nat fuel ->
  exists w' new rest,
    retry_loop e fuel 1 total image_path w = Some w'
    /\ trace w' = (trace w ++ new)%list
    /\ dispatches new = (now w, image_path) :: rest.
Proof.
  intros Hcan Hrc Hfuel. destruct fuel as [|fuel]; [simpl in Hfuel; lia|].
  destruct (retry_loop_advances e (S fuel) 1 total image_path w)
    as (w' & new & Hrun & Htr & _); [lia | done | done |].
  exists w', new. rewrite Hrun. rewrite retry_loop_S in Hrun.
  destruct (Z.leb_spec (retry_count w) max_retries); [|lia]. cbn [negb] in Hrun.
  change (pace e 1 w) with (Some (true, w)) in Hrun. cbn [negb] in Hrun.
  destruct (call_remover_spec e 1 total image_path w)
    as (w3 & Hcall & Htr3 & _ & _ & Hrc3 & _). rewrite Hcall in Hrun.
  assert (Hext : exists more, trace w' = (trace w3 ++ more)%list).
  { destruct (answer (remover e (calls w))) as [|error].
    - injection Hrun as <-. simpl. eauto.
    - destruct (is_cancelled e w3) eqn:Hcan3.
      { injection Hrun as <-. exists []. by rewrite app_nil_r. }
      destruct (handle_frame e error image_path w3)
        as (handled & w4 & new4 & Hh & Htr4 & _ & _ & _ & _ & Hrc4 & _);
        [lia|].
      rewrite Hh in Hrun.
      destruct (is_cancelled e w4) eqn:Hcan4; [injection Hrun as <-; eauto|].
      destruct handled.
      + destruct (Hrc4 eq_refl) as [Hrc4a Hrc4b].
        destruct (retry_loop_advances e fuel 1 total image_path w4)
          as (w'' & new'' & Hrun'' & Htr'' & _);
          [lia | rewrite Nat2Z.inj_succ in Hfuel; lia | done |].
        rewrite Hrun'' in Hrun. injection Hrun as <-.
        exists (new4 ++ new'')%list. by rewrite Htr'', Htr4, <- app_assoc.
      + injection Hrun as <-. simpl. exists (new4 ++ [(now w4, error_occurred
          (failed_message image_path error) image_path)])%list.
        by rewrite Htr4, <- app_assoc. }
  destruct Hext as (more & Hmore). rewrite Htr3, <- app_assoc in Hmore.
  rewrite Htr in Hmore. apply app_inv_head in Hmore. subst new.
  exists (dispatches more). split; [done|]. split; [done|].
  by rewrite dispatches_app.
Qed.

End run_facts.

(** X4.  [_sleep_with_cancel] for a positive time [total], with a positive
    poll interval, when the flag is set at time [c].  If the flag is already
    set, the message is emitted and [False] is returned with no sleep.  If it
    is set during the sleep, [False] is returned at a time [t] with
    [c <= t < c + poll], and no later than the end of the sleep.  If it is
    set after the end of the sleep, the whole time is slept and [True] is
    returned. *)
Theorem cancelled_sleep_ends_within_a_poll (e : env) (total poll c : Z) (m : event)
    (w : worker) :
  0 < poll -> 0 < total ->
  cancel_at e = Some c ->
  (c <= now w -> _sleep_with_cancel e total (Some m) poll w = Some (false, emit m w))
  /\ (now w < c <= now w + total ->
      exists t,
        _sleep_with_cancel e total (Some m) poll w = Some (false, set_now t (emit m w))
        /\ c <= t < c + poll /\ t <= now w + total)
  /\ (now w + total < c ->
      _sleep_with_cancel e total (Some m) poll w
      = Some (true, set_now (now w + total) (emit m w))).
Proof.
  intros Hpoll Htot Hc.
  assert (Hfuel : now (emit m w) + total - now (emit m w)
                  <= Z.of_nat (S (Z.to_nat (total / poll))) * poll).
  { rewrite Nat2Z.inj_succ, Z2Nat.id by (apply Z.div_pos; lia).
    pose proof (Z.mul_succ_div_gt total poll Hpoll). lia. }
  unfold _sleep_with_cancel. destruct (Z.leb_spec total 0); [lia|]. split_and!.
  - intros Hle. simpl sleep_loop. unfold is_cancelled, cancelled_at. rewrite Hc. simpl.
    destruct (Z.leb_spec c (now w)); [|lia]. simpl.
    by destruct (Z.leb_spec c (now w)); [|lia].
  - intros Hin.
    destruct (sleep_loop_latency e (S (Z.to_nat (total / poll))) (now (emit m w) + total)
                poll (emit m w) c Hpoll Hfuel Hc) as (t & -> & Ht1 & Ht2); [done|].
    exists t. unfold is_cancelled, cancelled_at. rewrite Hc. simpl in *.
    destruct (Z.leb_spec c t); [done | lia].
  - intros Hlt.
    destruct (sleep_loop_spec e (S (Z.to_nat (total / poll))) (now (emit m w) + total)
                poll (emit m w) Hpoll Hfuel) as (t & -> & Hr & Hn); [lia|].
    assert (Hnc : cancelled_at e t = false).
    { unfold cancelled_at. rewrite Hc. simpl in Hr. destruct (Z.leb_spec c t); [lia|done]. }
    rewrite (Hn Hnc). unfold is_cancelled. simpl in *. rewrite <- (Hn Hnc) at 1.
    by rewrite Hnc.
Qed.


(** X1.  Whatever the transformation answers and whenever the run is
    cancelled, the run returns, its trace ends with the completion event and
    [finished_all], and the transformation is called for an image at most
    [max_retries + 1] = 4 times for each time the image is in the list. *)
Theorem no_image_called_more_than_four_times (e : env) (image_paths : list string)
    (start : Z) :
  exists w items,
    run e image_paths start = Some w
    /\ trace w = (items ++ [(now w, Complete); (now w, finished_all (results w))])%list
    /\ forall p,
         (length (filter (fun tp => tp.2 = p) (dispatches (trace w)))
          <= Z.to_nat (max_retries + 1) * length (filter (fun q => q = p) image_paths))%nat.
Proof.
  unfold run.
  destruct (run_items_bounded e 1 (length image_paths) image_paths (init start))
    as (w0 & new & -> & Htr & Hlen).
  simpl in Htr.
  eexists _, new. split; [done|]. cbn [trace results now emit]. rewrite Htr.
  split; [by rewrite <- app_assoc|].
  intros p. rewrite !dispatches_app, !app_nil_r. apply Hlen.
Qed.

(** A run that nothing cancels: the entries of the final mapping. *)
Lemma run_settles (e : env) (image_paths : list string) (start : Z) :
  cancel_at e = None ->
  exists w,
    run e image_paths start = Some w
    /\ (forall p, is_Some (results w !! p) <-> p ∈ image_paths)
    /\ (forall p out, results w !! p = Some (Success out) -> out = output_path_for e p).
Proof.
  intros Hnone. unfold run.
  destruct (run_items_settles e 1 (length image_paths) image_paths (init start) Hnone)
    as (w & -> & Hin & Hout).
  eexists. split; [done|]. cbn [results emit].
  assert (Hiff : forall p, is_Some (results w !! p) <-> p ∈ image_paths).
  { intros p. split.
    - intros Hp. destruct (decide (p ∈ image_paths)) as [|Hnot]; [done|].
      rewrite (Hout p Hnot) in Hp. simpl in Hp. rewrite lookup_empty in Hp. by destruct Hp.
    - intros Hp. destruct (Hin p Hp) as (r & -> & _). eauto. }
  split; [done|].
  intros p out Hp.
  assert (Hmem : p ∈ image_paths) by (apply Hiff; eauto).
  destruct (Hin p Hmem) as (r & Hr & [->|[d ->]]); congruence.
Qed.

(** X2.  In a run that nothing cancels, the final mapping has an entry for
    exactly the images of the list; a success entry holds the output path
    [<output_dir>/<stem>_gemini.jpg] of its image; and for a list without
    repetitions the mapping has as many entries as the list has images. *)
Theorem every_image_gets_an_entry (e : env) (image_paths : list string) (start : Z) :
  cancel_at e = None ->
  exists w,
    run e image_paths start = Some w
    /\ (forall p, is_Some (results w !! p) <-> p ∈ image_paths)
    /\ (forall p out, results w !! p = Some (Success out) -> out = output_path_for e p)
    /\ (NoDup image_paths -> size (results w) = length image_paths).
Proof.
  intros Hnone. destruct (run_settles e image_paths start Hnone) as (w & Hrun & Hiff & Hout).
  exists w. split_and!; try done.
  intros Hnd.
  assert (Hdom : dom (results w) = list_to_set (C := gset string) image_paths).
  { apply set_eq. intros p. rewrite elem_of_dom, elem_of_list_to_set. apply Hiff. }
  rewrite <- size_dom, Hdom. by apply size_list_to_set.
Qed.

(** X3.  With nothing cancelling the run: when the first [k <= 3] calls for
    an image raise rate-limit errors and the next call returns, the image is
    called [k + 1] times, the backoffs are the first [k] of 30 s, 60 s, 120 s,
    no error is reported, and the image is recorded as a success with its
    output path. *)
Theorem transient_errors_then_success (e : env) (i total : nat) (image_path : string)
    (w : worker) (k : nat) (d : nat -> string) :
  cancel_at e = None ->
  (k <= 3)%nat ->
  (forall j, (j < k)%nat ->
     answer (remover e (calls w + j)) = Raised (d j) /\ is_rate_limit_error (d j) = true) ->
  answer (remover e (calls w + k)) = Returned ->
  exists w' new,
    retry_loop e (Z.to_nat (max_retries + 1)) i total image_path (set_retry_count 0 w)
    = Some w'
    /\ trace w' = (trace w ++ new)%list
    /\ backoffs new = take k [30; 60; 120]
    /\ errors new = []
    /\ (dispatches new).*2 = replicate (S k) image_path
    /\ results w' !! image_path = Some (Success (output_path_for e image_path)).
Proof.
  intros Hnone Hk Hd Hret.
  destruct (retry_loop_recovers e k (Z.to_nat (max_retries + 1)) i total image_path
              (set_retry_count 0 w) d)
    as (w' & new & Hrun & Htr & Hb & He & Hdis & Hres);
    [done | done | unfold max_retries; simpl; lia | unfold max_retries; simpl; lia
     | done | done |].
  exists w', new. split; [exact Hrun|]. split; [exact Htr|]. split_and!; try done.
  - rewrite Hb. cbn [retry_count set_retry_count].
    destruct k as [|[|[|[|k]]]]; [reflexivity.. | lia].
  - rewrite Hres. apply lookup_insert_eq.
Qed.

(** X5.  With nothing cancelling the run, [_wait_for_rate_limit] returns
    [True] at the later of the current time and [last_request_time +
    rate_limit_delay], never later; it records that time as
    [last_request_time]; and it announces a wait, of exactly the time still
    missing, if and only if less than the delay has passed since the last
    recorded request. *)
Theorem rate_limit_wait_is_exact (e : env) (w : worker) :
  cancel_at e = None ->
  exists w',
    _wait_for_rate_limit e w = Some (true, w')
    /\ now w' = Z.max (now w) (last_request_time w + rate_limit_delay e)
    /\ last_request_time w' = now w'
    /\ trace w'
       = (trace w ++
          if now w - last_request_time w <? rate_limit_delay e
          then [(now w, RateLimitWait (rate_limit_delay e - (now w - last_request_time w)))]
          else [])%list.
Proof.
  intros Hnone. unfold _wait_for_rate_limit.
  destruct (Z.ltb_spec (now w - last_request_time w) (rate_limit_delay e)) as [Hlt|Hge].
  - destruct (sleep_with_cancel_spec e
                (rate_limit_delay e - (now w - last_request_time w))
                (RateLimitWait (rate_limit_delay e - (now w - last_request_time w)))
                200 w) as (t & -> & Hr & Hn); [lia..|].
    assert (Hc : cancelled_at e t = false) by (unfold cancelled_at; by rewrite Hnone).
    rewrite Hc. cbn [negb]. eexists. split; [done|].
    cbn [now last_request_time trace set_last_request_time set_now emit].
    rewrite (Hn Hc). split_and!; [lia | done | done].
  - eexists. split; [done|]. cbn [now last_request_time trace set_last_request_time].
    rewrite app_nil_r. split_and!; [lia | done | done].
Qed.

(** X6.  A run that is not cancelled when it starts calls the transformation
    for the first image of the list at the very time it starts: nothing is
    waited for before the first call. *)
Theorem first_image_is_not_paced (e : env) (first : string) (others : list string)
    (start : Z) :
  cancelled_at e start = false ->
  exists w rest,
    run e (first :: others) start = Some w
    /\ dispatches (trace w) = (start, first) :: rest.
Proof.
  intros Hcan. unfold run. rewrite run_items_cons.
  change (is_cancelled e (init start)) with (cancelled_at e start). rewrite Hcan.
  destruct (retry_loop_first_call e (Z.to_nat (max_retries + 1)) (length (first :: others))
              first (set_retry_count 0 (init start)))
    as (w1 & new1 & rest1 & -> & Htr1 & Hd1); [done..|].
  simpl in Htr1.
  destruct (is_cancelled e w1).
  { eexists _, _. split; [done|]. cbn [trace emit].
    rewrite Htr1, !dispatches_app, Hd1. simpl. reflexivity. }
  destruct (run_items_advances e 2 (length (first :: others)) others w1)
    as (w2 & new2 & -> & Htr2 & _).
  eexists _, _. split; [done|]. cbn [trace emit].
  rewrite Htr2, Htr1, !dispatches_app, Hd1. simpl. reflexivity.
Qed.

(** X7.  In every run, cancelled or not, the calls of the transformation
    are those for the first image of the list followed by calls for later
    images only; and the latter are each at least [rate_limit_delay] after
    the one before, the first of them at least [rate_limit_delay] after
    time 0, the initial [last_request_time]. *)
Theorem calls_after_first_image_are_spaced (e : env) (first : string)
    (others : list string) (start : Z) :
  exists w head tail,
    run e (first :: others) start = Some w
    /\ dispatches (trace w) = (head ++ tail)%list
    /\ (forall t p, (t, p) ∈ head -> p = first)
    /\ spaced (rate_limit_delay e) 0 tail.*1
    /\ (forall p, p ∈ tail.*2 -> p ∈ others).
Proof.
  unfold run. rewrite run_items_cons.
  destruct (is_cancelled e (init start)) eqn:Hcan.
  { eexists _, [], []. split; [done|]. split; [reflexivity|]. split_and!; try done.
    - intros ?? Hin. inversion Hin.
    - intros ? Hin. inversion Hin. }
  destruct (retry_loop_advances e (Z.to_nat (max_retries + 1)) 1
              (length (first :: others)) first (set_retry_count 0 (init start)))
    as (w1 & new1 & Hrun1 & Htr1 & Hd1 & _); [done..|].
  assert (Hlast1 : last_request_time w1 = 0).
  { by rewrite (retry_loop_first e _ _ _ (set_retry_count 0 (init start)) w1
                  (Z.le_refl 0) Hrun1). }
  rewrite Hrun1. simpl in Htr1.
  assert (Hhead : forall t p, (t, p) ∈ dispatches new1 -> p = first).
  { intros t p Hin. by destruct (Hd1 t p Hin). }
  destruct (is_cancelled e w1) eqn:Hcan1.
  { eexists _, (dispatches new1), []. split; [done|].
    cbn [trace emit]. rewrite Htr1, !dispatches_app, !app_nil_r.
    split; [done|]. split; [done|]. split; [by simpl|]. intros ? Hin. inversion Hin. }
  destruct (run_items_paced e 2 (length (first :: others)) others w1)
    as (w2 & new2 & Hrun2 & Htr2 & Hsp2 & _); [lia|].
  destruct (run_items_advances e 2 (length (first :: others)) others w1)
    as (w2' & new2' & Hrun2' & Htr2' & Hd2 & _).
  rewrite Hrun2 in Hrun2'. injection Hrun2' as <-.
  rewrite Htr2 in Htr2'. apply app_inv_head in Htr2'. subst new2'.
  rewrite Hrun2.
  eexists _, (dispatches new1), (dispatches new2). split; [done|].
  cbn [trace emit]. rewrite Htr2, Htr1, !dispatches_app, !app_nil_r.
  split; [done|]. split; [done|]. split; [by rewrite <- Hlast1|].
  intros p Hp. apply list_elem_of_fmap in Hp as ([t q] & -> & Hin).
  by destruct (Hd2 t q Hin).
Qed.

Lemma cancelled_sleep_ends_within_a_poll_witness :
  let w := init Samples.start in
  let m := Backoff 30 1 3 in
  (Samples.start + 10000 <= now w ->
   _sleep_with_cancel Samples.cancelled_in_backoff 30000 (Some m) 500 w
   = Some (false, emit m w))
  /\ (now w < Samples.start + 10000 <= now w + 30000 ->
      exists t,
        _sleep_with_cancel Samples.cancelled_in_backoff 30000 (Some m) 500 w
        = Some (false, set_now t (emit m w))
        /\ Samples.start + 10000 <= t < Samples.start + 10000 + 500 /\ t <= now w + 30000)
  /\ (now w + 30000 < Samples.start + 10000 ->
      _sleep_with_cancel Samples.cancelled_in_backoff 30000 (Some m) 500 w
      = Some (true, set_now (now w + 30000) (emit m w))).
Proof.
  apply (cancelled_sleep_ends_within_a_poll Samples.cancelled_in_backoff 30000 500
           (Samples.start + 10000) (Backoff 30 1 3) (init Samples.start));
    [lia | lia | reflexivity].
Defined.

Lemma every_image_gets_an_entry_witness :
  exists w,
    run Samples.throttled_at_first ["/in/a.jpg"; "/in/b.jpg"] Samples.start = Some w
    /\ (forall p, is_Some (results w !! p) <-> p ∈ ["/in/a.jpg"; "/in/b.jpg"])
    /\ (forall p out, results w !! p = Some (Success out)
          -> out = output_path_for Samples.throttled_at_first p)
    /\ (NoDup ["/in/a.jpg"; "/in/b.jpg"] -> size (results w) = length ["/in/a.jpg"; "/in/b.jpg"]).
Proof.
  apply (every_image_gets_an_entry Samples.throttled_at_first ["/in/a.jpg"; "/in/b.jpg"]
           Samples.start).
  reflexivity.
Defined.

Lemma transient_errors_then_success_witness :
  exists w' new,
    retry_loop Samples.throttled_at_first (Z.to_nat (max_retries + 1)) 1 1 "/in/a.jpg"
      (set_retry_count 0 (set_calls 2 (init Samples.start))) = Some w'
    /\ trace w' = (trace (set_calls 2 (init Samples.start)) ++ new)%list
    /\ backoffs new = take 2 [30; 60; 120]
    /\ errors new = []
    /\ (dispatches new).*2 = replicate 3 "/in/a.jpg"
    /\ results w' !! "/in/a.jpg"
       = Some (Success (output_path_for Samples.throttled_at_first "/in/a.jpg")).
Proof.
  apply (transient_errors_then_success Samples.throttled_at_first 1 1 "/in/a.jpg"
           (set_calls 2 (init Samples.start)) 2 (fun _ => "HTTP 429 Too Many Requests")).
  - reflexivity.
  - lia.
  - intros j Hj. destruct j as [|[|j]]; [split; reflexivity..|lia].
  - reflexivity.
Defined.

Lemma rate_limit_wait_is_exact_witness :
  exists w',
    _wait_for_rate_limit Samples.all_succeed
      (set_last_request_time (Samples.start - 1000) (init Samples.start)) = Some (true, w')
    /\ now w' = Z.max Samples.start (Samples.start - 1000 + 6000)
    /\ last_request_time w' = now w'
    /\ trace w' = [(Samples.start, RateLimitWait 5000)].
Proof.
  apply (rate_limit_wait_is_exact Samples.all_succeed
           (set_last_request_time (Samples.start - 1000) (init Samples.start))).
  reflexivity.
Defined.

Lemma first_image_is_not_paced_witness :
  exists w rest,
    run Samples.all_throttled ["/in/a.jpg"; "/in/b.jpg"] Samples.start = Some w
    /\ dispatches (trace w) = (Samples.start, "/in/a.jpg") :: rest.
Proof.
  apply (first_image_is_not_paced Samples.all_throttled "/in/a.jpg" ["/in/b.jpg"]
           Samples.start).
  reflexivity.
Defined.

End WorkerRuns.

(** * File names: stems, outputs, results directories *)

Module NameProofs.
Import Scanner ScannerProofs.

Lemma has_char_basename (p : string) : Str.has_char "/" (Path.basename p) = false.
Proof.
  unfold Path.basename. induction p as [|c p IH]; [done|].
  simpl. destruct (Path.rsplit_sep p) as [h t]. simpl in IH.
  destruct (Str.is_empty h); simpl; [|done].
  destruct (Ascii.eqb_spec c "/") as [->|Hc]; simpl; [done|].
  rewrite IH. by destruct (Ascii.eqb_spec c "/").
Qed.

Lemma rsplit_dot_app (t a b : string) : Path.rsplit_dot t = Some (a, b) -> t = a ++ b.
Proof.
  revert a b. induction t as [|c t IH]; intros a b; [done|].
  simpl. destruct (Path.rsplit_dot t) as [[a' b']|].
  - intros [= <- <-]. rewrite append_cons. f_equal. by apply IH.
  - destruct (Ascii.eqb c "."); [|done]. by intros [= <- <-].
Qed.

Lemma has_char_stem (y : string) :
  Str.has_char "/" y = false -> Str.has_char "/" (Path.splitext y).1 = false.
Proof.
  intros Hy. unfold Path.splitext. rewrite rsplit_sep_plain by done.
  destruct (Path.rsplit_dot y) as [[a b]|] eqn:Hdot; [|done].
  destruct (Str.all_char "." a); [done|]. simpl. rewrite append_nil_l.
  apply rsplit_dot_app in Hdot. subst y. rewrite has_char_app in Hy.
  by apply orb_false_iff in Hy as [? _].
Qed.

(** The stem of an image's name, with a suffix, is a name. *)
Lemma stem_name_ok (p suffix : string) :
  Str.is_empty suffix = false -> Str.has_char "/" suffix = false ->
  name_ok ((Path.splitext (Path.basename p)).1 ++ suffix) = true.
Proof.
  intros He Hs. unfold name_ok.
  rewrite is_empty_app_r, has_char_app, Hs by done.
  by rewrite has_char_stem by apply has_char_basename.
Qed.

Lemma lower_app (a b : string) : Str.lower (a ++ b) = Str.lower a ++ Str.lower b.
Proof. induction a as [|c a IH]; [done|]. rewrite append_cons. simpl. by rewrite IH. Qed.

Lemma contains_app_r (needle a b : string) :
  Str.contains needle b = true -> Str.contains needle (a ++ b) = true.
Proof.
  intros Hb. induction a as [|c a IH]; [done|].
  rewrite append_cons. simpl. rewrite IH. apply orb_true_r.
Qed.

Lemma prefix_app (needle a b : string) :
  String.prefix needle a = true -> String.prefix needle (a ++ b) = true.
Proof.
  revert a. induction needle as [|c needle IH]; intros a; [by destruct (a ++ b)|].
  destruct a as [|d a]; [done|]. rewrite append_cons. cbn [String.prefix].
  destruct (ascii_dec c d); [apply IH|done].
Qed.

Lemma contains_app_l (needle a b : string) :
  Str.contains needle a = true -> Str.contains needle (a ++ b) = true.
Proof.
  induction a as [|c a IH].
  - simpl. rewrite orb_false_r. intros H. destruct needle; [|done].
    rewrite append_nil_l. by destruct b.
  - rewrite append_cons. cbn [Str.contains]. intros H.
    apply orb_true_iff in H as [H|H].
    + change (String c (a ++ b)) with (String c a ++ b). by rewrite prefix_app.
    + rewrite IH by done. apply orb_true_r.
Qed.

Lemma contains_lower_gemini (a ext : string) :
  Str.contains "gemini" (Str.lower (a ++ "_gemini" ++ ext)) = true.
Proof. rewrite !lower_app. by apply contains_app_r, contains_app_l. Qed.

(** The members of the list that [_find_existing_result] goes through. *)
Lemma elem_of_result_candidates (p x : string) :
  x ∈ (directory ← filter (fun d => Str.is_empty d = false) (candidate_dirs p);
       (fun ext => Path.join directory ((Path.splitext (Path.basename p)).1 ++ "_gemini")
                   ++ ext) <$> output_extensions)
  <-> exists dir ext,
        dir ∈ candidate_dirs p /\ Str.is_empty dir = false /\ ext ∈ output_extensions
        /\ x = Path.join dir ((Path.splitext (Path.basename p)).1 ++ "_gemini") ++ ext.
Proof.
  rewrite list_elem_of_bind. split.
  - intros (dir & Hx & Hdir). apply list_elem_of_filter in Hdir as [Hne Hdir].
    apply list_elem_of_fmap in Hx as (ext & -> & Hext). by exists dir, ext.
  - intros (dir & ext & Hdir & Hne & Hext & ->). exists dir. split.
    + apply list_elem_of_fmap. by exists ext.
    + by apply list_elem_of_filter.
Qed.

(** A candidate of [_find_existing_result] is named as a result file is. *)
Lemma result_candidate_name (p dir ext : string) :
  ext ∈ output_extensions ->
  Path.basename (Path.join dir ((Path.splitext (Path.basename p)).1 ++ "_gemini") ++ ext)
  = (Path.splitext (Path.basename p)).1 ++ "_gemini" ++ ext.
Proof.
  intros Hext.
  assert (Hok : name_ok ((Path.splitext (Path.basename p)).1 ++ "_gemini" ++ ext) = true).
  { apply stem_name_ok; unfold output_extensions in Hext;
      repeat (apply elem_of_cons in Hext as [->|Hext]; [done|]); inversion Hext. }
  rewrite join_name by (by apply stem_name_ok).
  rewrite !append_assoc, <- (join_name dir) by done.
  by apply basename_join.
Qed.

End NameProofs.

(** * The folder scanner: what it finds *)

Module ScanCoverage.
Import Scanner ScannerProofs NameProofs.

Lemma find_existing_result_cases (e : env) (p : string) :
  let stem := (Path.splitext (Path.basename p)).1 ++ "_gemini" in
  let tried dir ext :=
    dir ∈ candidate_dirs p /\ Str.is_empty dir = false /\ ext ∈ output_extensions in
  (forall r, _find_existing_result e p = Some r ->
     path_exists e r = true
     /\ (exists dir ext, tried dir ext /\ r = Path.join dir stem ++ ext)
     /\ _is_result_file (Path.basename r) = true)
  /\ (_find_existing_result e p = None <->
      forall dir ext, tried dir ext -> path_exists e (Path.join dir stem ++ ext) = false).
Proof.
  intros stem tried. unfold _find_existing_result. fold stem.
  set (l := filter _ _ ≫= _).
  assert (Hl : forall x, x ∈ l <-> exists dir ext, tried dir ext /\ x = Path.join dir stem ++ ext).
  { intros x. unfold l, stem. rewrite elem_of_result_candidates. unfold tried. split.
    - intros (dir & ext & ? & ? & ? & ->). by exists dir, ext.
    - intros (dir & ext & (? & ? & ?) & ->). by exists dir, ext. }
  split.
  - intros r Hr. destruct (list_find (path_exists e) l) as [[i x]|] eqn:Hfind; [|done].
    simpl in Hr. injection Hr as ->.
    apply list_find_Some in Hfind as (Hi & Hx & _).
    apply list_elem_of_lookup_2 in Hi. apply Hl in Hi as (dir & ext & Htried & ->).
    split; [by apply Is_true_true|]. split; [by exists dir, ext|].
    unfold _is_result_file, stem. destruct Htried as (_ & _ & Hext).
    rewrite result_candidate_name by done. apply contains_lower_gemini.
  - destruct (list_find (path_exists e) l) as [[i x]|] eqn:Hfind; simpl.
    + split; [done|]. intros Hnone.
      apply list_find_Some in Hfind as (Hi & Hx & _).
      apply list_elem_of_lookup_2 in Hi. apply Hl in Hi as (dir & ext & Htried & ->).
      rewrite (Hnone dir ext Htried) in Hx. done.
    + split; [|done]. intros _ dir ext Htried.
      apply list_find_None in Hfind. rewrite Forall_forall in Hfind.
      apply not_true_is_false. intros Hex.
      apply (Hfind (Path.join dir stem ++ ext)); [|by apply Is_true_true].
      apply Hl. by exists dir, ext.
Qed.

(** X8.  What [_find_existing_result] returns for an image [p].  A result
    [r] exists on disk, is [<dir>/<stem>_gemini<ext>] for a candidate
    directory [dir] that is not empty and one of the four output extensions,
    and has a name that [_is_result_file] accepts.  [None] is returned if
    and only if no such path exists on disk. *)
Theorem find_existing_result_spec (e : env) (p : string) :
  let stem := (Path.splitext (Path.basename p)).1 ++ "_gemini" in
  let tried dir ext :=
    dir ∈ candidate_dirs p /\ Str.is_empty dir = false /\ ext ∈ output_extensions in
  (forall r, _find_existing_result e p = Some r ->
     path_exists e r = true
     /\ (exists dir ext, tried dir ext /\ r = Path.join dir stem ++ ext)
     /\ _is_result_file (Path.basename r) = true)
  /\ (_find_existing_result e p = None <->
      forall dir ext, tried dir ext -> path_exists e (Path.join dir stem ++ ext) = false).
Proof. apply find_existing_result_cases. Qed.

(** An output named as the worker names it, in one of the directories that
    [_find_existing_result] tries, is found. *)
Lemma output_in_candidate_dir_found (e : env) (p dir : string) :
  dir ∈ candidate_dirs p -> Str.is_empty dir = false ->
  path_exists e (Path.join dir ((Path.splitext (Path.basename p)).1 ++ "_gemini.jpg")) = true ->
  is_Some (_find_existing_result e p).
Proof.
  intros Hdir Hne Hex.
  destruct (_find_existing_result e p) as [r|] eqn:Hfind; [eauto|].
  destruct (find_existing_result_cases e p) as [_ [Hnone _]].
  specialize (Hnone Hfind dir ".jpg"). clear Hfind. rename Hnone into Hfind.
  rewrite join_name in Hfind by (by apply stem_name_ok).
  rewrite join_name in Hex by (by apply stem_name_ok).
  rewrite !append_assoc in Hfind. change ("_gemini" ++ ".jpg") with "_gemini.jpg" in Hfind.
  rewrite Hfind in Hex; [done|]. split; [done|]. split; [done|].
  unfold output_extensions. left.
Qed.

Lemma is_empty_join (a y : string) :
  name_ok y = true -> Str.is_empty (Path.join a y) = false.
Proof.
  intros Hy. rewrite join_name by done. apply is_empty_app_r.
  by apply name_ok_inv in Hy as [? _].
Qed.

Lemma is_result_directory_suffix (root a : string) :
  Str.has_char "/" a = false ->
  _is_result_directory (Path.join root (a ++ "_gemini_results")) = true.
Proof.
  intros Ha.
  assert (Hok : name_ok (a ++ "_gemini_results") = true).
  { unfold name_ok. by rewrite is_empty_app_r, has_char_app, Ha. }
  rewrite is_result_directory_join by done. unfold is_result_name.
  rewrite lower_app. rewrite (contains_app_r "gemini_results"); [|done].
  apply orb_true_r.
Qed.

Section coverage.
Variable e : env.
Hypothesis not_cancelled : cancel_after e = None.
Hypothesis no_fault : fault_at e = None.

Lemma filed_scan_file p root file sc :
  Tree.filed e p sc -> Tree.filed e p (scan_file e root file sc).
Proof.
  unfold Tree.filed. intros Hp.
  destruct (scan_file_cases e root file sc)
    as [[-> _]|[[-> _]|(_ & _ & [(r & _ & ->)|[_ ->]])]]; try done;
    destruct (_find_existing_result e p); simpl; try done;
    apply elem_of_app; by left.
Qed.

Lemma filed_walk p n root sc : Tree.filed e p sc -> Tree.filed e p (walk e root n sc).2.
Proof.
  apply (walk_inv e (Tree.filed e p) (fun _ _ => True)); try done.
  intros. by apply filed_scan_file.
Qed.

Lemma scan_file_files root file sc :
  _is_result_file file = false -> has_image_extension file = true ->
  Tree.filed e (Path.join root file) (scan_file e root file sc).
Proof.
  intros Hres Hext. unfold Tree.filed, scan_file. rewrite Hres, Hext. simpl.
  destruct (_find_existing_result e (Path.join root file)); simpl;
    apply elem_of_app; right; by apply list_elem_of_singleton.
Qed.

Lemma scan_files_cons root file rest sc :
  scan_files e root (file :: rest) sc = scan_files e root rest (scan_file e root file (bump_reads sc)).
Proof.
  simpl. unfold is_cancelled, raises. by rewrite not_cancelled, no_fault.
Qed.

Lemma scan_files_next root files sc : (scan_files e root files sc).1 = Next.
Proof.
  revert sc. induction files as [|file rest IH]; intros sc; [done|].
  by rewrite scan_files_cons.
Qed.

Lemma scan_files_filed p root files sc :
  Tree.filed e p sc -> Tree.filed e p (scan_files e root files sc).2.
Proof.
  revert sc. induction files as [|file rest IH]; intros sc Hp; [done|].
  rewrite scan_files_cons. by apply IH, filed_scan_file.
Qed.

Lemma scan_files_reaches root files file sc :
  file ∈ files ->
  _is_result_file file = false -> has_image_extension file = true ->
  Tree.filed e (Path.join root file) (scan_files e root files sc).2.
Proof.
  intros Hin Hres Hext. revert sc.
  induction files as [|file' rest IH]; intros sc; [inversion Hin|].
  rewrite scan_files_cons. apply elem_of_cons in Hin as [->|Hin].
  - by apply scan_files_filed, scan_file_files.
  - by apply IH.
Qed.

Lemma walk_dirs_next f root entries sc :
  Forall (fun child => forall path sc, (f path child sc).1 = Next) entries ->
  (walk_dirs f root entries sc).1 = Next.
Proof.
  revert sc. induction entries as [|child rest IH]; intros sc Hall; [done|].
  apply Forall_cons in Hall as [Hhead Hall].
  destruct child as [f0|d listing]; [by apply IH|].
  rewrite walk_dirs_dir.
  destruct (_is_result_directory (Path.join root d)); [by apply IH|].
  specialize (Hhead (Path.join root d) sc).
  destruct (f (Path.join root d) (Dir d listing) sc) as [s sc']. simpl in Hhead. subst s.
  by apply IH.
Qed.

Lemma walk_listed root d entries sc :
  _is_result_directory root = false ->
  walk e root (Dir d (Some entries)) sc
  = let dirs := dir_names entries in
    let kept := filter (fun d => _is_result_directory (Path.join root d) = false) dirs in
    let sc2 := add_skipped_dirs (length dirs - length kept) (bump_reads sc) in
    walk_dirs (walk e) root entries (scan_files e root (file_names entries) sc2).2.
Proof.
  intros Hroot. cbn [walk]. unfold is_cancelled, raises.
  rewrite not_cancelled, no_fault, Hroot. cbv zeta.
  set (sc2 := add_skipped_dirs _ _).
  pose proof (scan_files_next root (file_names entries) sc2) as Hnext.
  destruct (scan_files e root (file_names entries) sc2) as [s sc3].
  simpl in Hnext. by subst s.
Qed.

Lemma walk_next n : forall root sc, (walk e root n sc).1 = Next.
Proof.
  induction n as [f|d|d entries IH] using node_induction; intros root sc; [done..|].
  destruct (_is_result_directory root) eqn:Hroot.
  - cbn [walk]. unfold is_cancelled, raises. by rewrite not_cancelled, no_fault, Hroot.
  - rewrite walk_listed by done. by apply walk_dirs_next.
Qed.

(** The loop over the directories comes to each of them that is kept. *)
Lemma walk_dirs_reaches (Q : scanner -> Prop) root entries d listing sc :
  Dir d listing ∈ entries ->
  _is_result_directory (Path.join root d) = false ->
  (forall sc, Q (walk e (Path.join root d) (Dir d listing) sc).2) ->
  (forall path child sc, Q sc -> Q (walk e path child sc).2) ->
  Q (walk_dirs (walk e) root entries sc).2.
Proof.
  intros Hin Hres Hhere Hmono. revert sc.
  assert (Hkeep : forall l sc, Q sc -> Q (walk_dirs (walk e) root l sc).2).
  { induction l as [|child rest IH]; intros sc Hsc; [done|].
    destruct child as [f0|d' listing']; [by apply IH|].
    rewrite walk_dirs_dir.
    destruct (_is_result_directory (Path.join root d')); [by apply IH|].
    pose proof (walk_next (Dir d' listing') (Path.join root d') sc) as Hnext.
    pose proof (Hmono (Path.join root d') (Dir d' listing') sc Hsc) as Hsc'.
    destruct (walk e (Path.join root d') (Dir d' listing') sc) as [s sc'].
    simpl in Hnext. subst s. by apply IH. }
  induction entries as [|child rest IH]; intros sc; [inversion Hin|].
  apply elem_of_cons in Hin as [<-|Hin].
  - rewrite walk_dirs_dir, Hres.
    pose proof (walk_next (Dir d listing) (Path.join root d) sc) as Hnext.
    pose proof (Hhere sc) as Hsc'.
    destruct (walk e (Path.join root d) (Dir d listing) sc) as [s sc'].
    simpl in Hnext. subst s. by apply Hkeep.
  - destruct child as [f0|d' listing']; [by apply IH|].
    rewrite walk_dirs_dir.
    destruct (_is_result_directory (Path.join root d')); [by apply IH|].
    pose proof (walk_next (Dir d' listing') (Path.join root d') sc) as Hnext.
    destruct (walk e (Path.join root d') (Dir d' listing') sc) as [s sc'].
    simpl in Hnext. subst s. by apply IH.
Qed.

Lemma holds_file file d entries :
  Tree.holds [] file (Dir d (Some entries)) = true -> File file ∈ entries.
Proof.
  simpl. intros H. apply existsb_exists in H as ([f|d' l] & Hin & Heq); [|done].
  apply String.eqb_eq in Heq as ->. by apply list_elem_of_In.
Qed.

Lemma holds_dir d0 rest file d entries :
  Tree.holds (d0 :: rest) file (Dir d (Some entries)) = true ->
  exists listing, Dir d0 listing ∈ entries /\ Tree.holds rest file (Dir d0 listing) = true.
Proof.
  cbn [Tree.holds]. intros H. apply existsb_exists in H as ([f|d' l] & Hin & Heq); [done|].
  apply andb_true_iff in Heq as [Hd Hrest]. apply String.eqb_eq in Hd as ->.
  exists l. split; [by apply list_elem_of_In|done].
Qed.

(** The walk files every image that it is to find. *)
Lemma walk_reaches file dirs : forall n root sc,
  _is_result_directory root = false ->
  entries_ok n = true ->
  Tree.holds dirs file n = true ->
  forallb (fun d => negb (is_result_name (Str.lower d))) dirs = true ->
  _is_result_file file = false -> has_image_extension file = true ->
  Tree.filed e (descend root (dirs ++ [file])) (walk e root n sc).2.
Proof.
  induction dirs as [|d rest IH]; intros n root sc Hroot Hok Hholds Hdirs Hres Hext.
  - destruct n as [f|d' [entries|]]; [done| |done]. apply holds_file in Hholds.
    rewrite walk_listed by done. cbv zeta.
    apply (walk_dirs_inv (Tree.filed e (descend root ([] ++ [file]))) (fun _ _ => True));
      [|done|].
    + apply Forall_forall. intros child _ path sc' _. apply filed_walk.
    + apply scan_files_reaches; [|done..].
      unfold file_names. apply list_elem_of_omap. by exists (File file).
  - destruct n as [f|d' [entries|]]; [done| |done].
    apply holds_dir in Hholds as (listing & Hin & Hholds).
    cbn [forallb] in Hdirs. apply andb_true_iff in Hdirs as [Hd Hdirs].
    apply negb_true_iff in Hd.
    destruct (entries_ok_dir d' entries d listing Hok Hin) as [Hname Hsub].
    assert (Hjoin : _is_result_directory (Path.join root d) = false).
    { by rewrite is_result_directory_join. }
    rewrite walk_listed by done. cbv zeta.
    apply (walk_dirs_reaches _ root entries d listing); [done..| |].
    + intros sc'. by apply IH.
    + intros path child sc'. apply filed_walk.
Qed.

End coverage.

(** X9.  A scan that is neither cancelled nor interrupted by an exception
    misses no candidate.  For a file of the tree whose name is ASCII, has an
    image extension and does not contain "gemini", reached from a scanned
    folder that is no results directory through directories none of which is
    one, the scan emits the pending list and then the total, and the file's
    path is in the already-processed list, with the result that
    [_find_existing_result] gives, if there is one, and in the pending list
    otherwise.  (Of a name that is not ASCII the code may make a result file
    where [_is_result_file] here does not: "GEMIN" followed by U+0130 is
    "gemini" and U+0307 in lower case.) *)
Theorem scan_reports_every_candidate (e : env) (folder_path : string) (top : node)
    (dirs : list string) (file : string) :
  cancel_after e = None -> fault_at e = None ->
  entries_ok top = true ->
  _is_result_directory folder_path = false ->
  Tree.holds dirs file top = true ->
  forallb (fun d => negb (is_result_name (Str.lower d))) dirs = true ->
  Str.isascii file = true ->
  _is_result_file file = false -> has_image_extension file = true ->
  let p := descend folder_path (dirs ++ [file]) in
  exists l,
    (run e folder_path top).1
    = [files_found l; scan_finished (length l + length (run e folder_path top).2)]
    /\ match _find_existing_result e p with
       | Some r => (p, r) ∈ (run e folder_path top).2
       | None => p ∈ l
       end.
Proof.
  intros Hcan Hfault Hok Hroot Hholds Hdirs _ Hres Hext p.
  destruct (run_emits e folder_path top Hfault) as (l & Hrun & ->).
  { unfold is_cancelled. by rewrite Hcan. }
  destruct (run_reports e folder_path top) as [Hproc _].
  exists (image_files (walk e folder_path top init).2). split; [by rewrite Hrun at 1|].
  rewrite Hproc.
  by apply (walk_reaches e Hcan Hfault file dirs top folder_path init).
Qed.

Lemma scan_reports_every_candidate_witness :
  exists l,
    (run Samples.quiet_scan "/data/photos" Samples.photos).1
    = [files_found l;
       scan_finished (length l + length (run Samples.quiet_scan "/data/photos" Samples.photos).2)]
    /\ match _find_existing_result Samples.quiet_scan
               (descend "/data/photos" (["sub"] ++ ["c.jpeg"])) with
       | Some r => (descend "/data/photos" (["sub"] ++ ["c.jpeg"]), r)
                   ∈ (run Samples.quiet_scan "/data/photos" Samples.photos).2
       | None => descend "/data/photos" (["sub"] ++ ["c.jpeg"]) ∈ l
       end.
Proof.
  apply (scan_reports_every_candidate Samples.quiet_scan "/data/photos" Samples.photos
           ["sub"] "c.jpeg"); reflexivity.
Defined.

(** X10.  The file that the worker writes for an image, in whatever output
    directory, has a name that [_is_result_file] accepts; so no scan ever
    lists it as pending or as the input of an already-processed pair. *)
Theorem worker_outputs_never_scanned (we : Worker.env) (se : env) (folder_path : string)
    (top : node) (image_path : string) :
  entries_ok top = true ->
  let out := Worker.output_path_for we image_path in
  _is_result_file (Path.basename out) = true
  /\ (forall l, files_found l ∈ (run se folder_path top).1 -> out ∉ l)
  /\ out ∉ ((run se folder_path top).2).*1.
Proof.
  intros Hok out.
  assert (Hres : _is_result_file (Path.basename out) = true).
  { unfold out, Worker.output_path_for, _is_result_file.
    rewrite basename_join by (by apply stem_name_ok).
    apply (contains_lower_gemini _ ".jpg"). }
  assert (Hnot : ~ candidate folder_path out).
  { intros (dirs & file & Heq & _ & Hname & Hfile & _).
    rewrite Heq, descend_snoc, basename_join in Hres by done. congruence. }
  split; [done|]. split.
  - intros l Hl Hp. apply Hnot, (run_candidates se folder_path top out Hok). left. eauto.
  - intros Hp. apply Hnot, (run_candidates se folder_path top out Hok). by right.
Qed.

Lemma worker_outputs_never_scanned_witness :
  let out := Worker.output_path_for Samples.all_succeed "/data/photos/b.jpg" in
  _is_result_file (Path.basename out) = true
  /\ (forall l, files_found l ∈ (run Samples.quiet_scan "/out" Samples.photos).1 -> out ∉ l)
  /\ out ∉ ((run Samples.quiet_scan "/out" Samples.photos).2).*1.
Proof.
  apply (worker_outputs_never_scanned Samples.all_succeed Samples.quiet_scan "/out"
           Samples.photos "/data/photos/b.jpg").
  reflexivity.
Defined.

Lemma auto_output_dir_cases (image_paths : list string) :
  _is_result_directory (Window.auto_output_dir image_paths) = true
  /\ Str.is_empty (Window.auto_output_dir image_paths) = false.
Proof.
  unfold Window.auto_output_dir.
  destruct image_paths as [|p [|q rest]].
  - simpl. split; reflexivity.
  - split.
    + apply is_result_directory_suffix, has_char_stem, has_char_basename.
    + apply is_empty_join. by apply stem_name_ok.
  - destruct (elements _) as [|input_dir [|other more]].
    + split; [by rewrite is_result_directory_join|by apply is_empty_join].
    + split.
      * apply is_result_directory_suffix, has_char_basename.
      * apply is_empty_join. unfold name_ok.
        by rewrite is_empty_app_r, has_char_app, has_char_basename.
    + split; [by rewrite is_result_directory_join|by apply is_empty_join].
Qed.

(** X11.  The output directory that [start_processing] chooses when it saves
    by itself is never the empty string and always has a name that
    [_is_result_directory] accepts, so a later scan prunes it.  For a single
    image it is the directory that [get_expected_output_path] assumes when
    it is given no directory. *)
Theorem auto_output_dir_is_pruned (image_paths : list string) (e : Window.env)
    (image_path : string) :
  _is_result_directory (Window.auto_output_dir image_paths) = true
  /\ Str.is_empty (Window.auto_output_dir image_paths) = false
  /\ Window.get_expected_output_path e image_path None
     = Window.get_expected_output_path e image_path
         (Some (Window.auto_output_dir [image_path])).
Proof.
  destruct (auto_output_dir_cases image_paths) as [Hres Hne]. split; [done|]. split; [done|].
  unfold Window.get_expected_output_path.
  destruct (auto_output_dir_cases [image_path]) as [_ ->]. done.
Qed.

(** X12.  An output written by a worker into the directory that
    [start_processing] chose by itself is found again by
    [_find_existing_result] for its image, when the image was processed
    alone, or when the directory of its directory is not empty and is that
    of the first image of the batch. *)
Theorem auto_saved_output_is_found (we : Worker.env) (se : env) (image_paths : list string)
    (p : string) :
  Worker.output_dir we = Window.auto_output_dir image_paths ->
  p ∈ image_paths ->
  length image_paths = 1%nat
  \/ (Str.is_empty (Path.dirname (Path.dirname p)) = false
      /\ Path.dirname (Path.dirname p)
         = Path.dirname (Path.dirname (default "" (head image_paths)))) ->
  path_exists se (Worker.output_path_for we p) = true ->
  is_Some (_find_existing_result se p).
Proof.
  intros Hdir Hp Hcase Hex. unfold Worker.output_path_for in Hex. rewrite Hdir in Hex.
  destruct (auto_output_dir_cases image_paths) as [_ Hne].
  apply (output_in_candidate_dir_found se p (Window.auto_output_dir image_paths));
    [|done..].
  clear Hex Hne Hdir. unfold Window.auto_output_dir, candidate_dirs.
  destruct image_paths as [|q [|q2 rest]]; [inversion Hp|..].
  - apply list_elem_of_singleton in Hp as ->. right. left.
  - destruct Hcase as [Hlen|[Hparent Heq]]; [done|]. rewrite Hparent.
    destruct (elements _) as [|input_dir [|other more]] eqn:Hel.
    + simpl in *. rewrite <- Heq. do 3 right. left.
    + assert (Hin : Path.dirname p ∈ [input_dir]).
      { rewrite <- Hel. apply elem_of_elements, elem_of_list_to_set.
        apply list_elem_of_fmap. by exists p. }
      apply list_elem_of_singleton in Hin as <-. do 2 right. left.
    + simpl in *. rewrite <- Heq. do 3 right. left.
Qed.

Lemma auto_saved_output_is_found_witness :
  let we := {| Worker.rate_limit_delay := 6000;
               Worker.output_dir := Window.auto_output_dir ["/data/photos/sub/c.jpeg"];
               Worker.remover := fun _ => Samples.succeeds; Worker.cancel_at := None |} in
  let se := {| path_exists := String.eqb "/data/photos/sub/c_gemini_results/c_gemini.jpg";
               cancel_after := None; fault_at := None |} in
  is_Some (_find_existing_result se "/data/photos/sub/c.jpeg").
Proof.
  apply (auto_saved_output_is_found
           {| Worker.rate_limit_delay := 6000;
              Worker.output_dir := Window.auto_output_dir ["/data/photos/sub/c.jpeg"];
              Worker.remover := fun _ => Samples.succeeds; Worker.cancel_at := None |}
           {| path_exists := String.eqb "/data/photos/sub/c_gemini_results/c_gemini.jpg";
              cancel_after := None; fault_at := None |}
           ["/data/photos/sub/c.jpeg"] "/data/photos/sub/c.jpeg").
  - reflexivity.
  - left.
  - left. reflexivity.
  - reflexivity.
Defined.

Lemma find_walk_listed (root d : string) (entries : list node) (p : string) :
  p ∈ Methods.find_walk root (Dir d (Some entries))
  <-> (exists file, File file ∈ entries /\ has_image_extension file = true
                   /\ p = Path.join root file)
      \/ (exists d' listing, Dir d' listing ∈ entries
                             /\ p ∈ Methods.find_walk (Path.join root d') (Dir d' listing)).
Proof.
  cbn [Methods.find_walk]. rewrite elem_of_app.
  match goal with |- ?A \/ ?B <-> ?C \/ ?D =>
    cut ((A <-> C) /\ (B <-> D)); [tauto|split] end.
  - rewrite list_elem_of_fmap. split.
    + intros (file & -> & Hin). apply list_elem_of_filter in Hin as [Hext Hin].
      exists file. split; [|done]. unfold file_names in Hin.
      apply list_elem_of_omap in Hin as ([f|] & Hin & Heq); by simplify_eq.
    + intros (file & Hin & Hext & ->). exists file. split; [done|].
      apply list_elem_of_filter. split; [done|]. unfold file_names.
      apply list_elem_of_omap. by exists (File file).
  - induction entries as [|child rest IH].
    { split; [intros Hin; inversion Hin|intros (? & ? & Hin & _); inversion Hin]. }
    destruct child as [f|d' listing].
    + rewrite IH. split; intros (d2 & l2 & Hin & Hp); exists d2, l2; (split; [|done]).
      * by right.
      * by apply elem_of_cons in Hin as [?|?].
    + rewrite elem_of_app, IH. split.
      * intros [Hp|(d2 & l2 & Hin & Hp)]; [exists d', listing; split; [left|done]|].
        exists d2, l2. split; [by right|done].
      * intros (d2 & l2 & Hin & Hp). apply elem_of_cons in Hin as [[= -> ->]|Hin];
          [by left|]. right. by exists d2, l2.
Qed.

(** X14.  [find_images_recursive] returns a sorted list, and every path that
    a scan of the same folder reports, as pending or as already processed,
    is in it: the scanner of the window only narrows what the finder of the
    command line finds. *)
Theorem scanner_reports_what_finder_finds (e : env) (folder_path : string) (top : node)
    (p : string) :
  StronglySorted String.le (Methods.find_images_recursive folder_path top)
  /\ ((exists l, files_found l ∈ (run e folder_path top).1 /\ p ∈ l)
      \/ p ∈ ((run e folder_path top).2).*1 ->
      p ∈ Methods.find_images_recursive folder_path top).
Proof.
  unfold Methods.find_images_recursive, Consumer.sorted. split.
  { apply Sorted_StronglySorted; [apply _|]. apply Sorted_merge_sort; apply _. }
  intros Hp. rewrite merge_sort_Permutation.
  destruct (run_reports e folder_path top) as [Hproc Hfound].
  assert (Hrep : reported p (walk e folder_path top init).2).
  { destruct Hp as [(l & Hl & Hp)|Hp]; [left; by rewrite <- (Hfound l Hl)|right].
    by rewrite <- Hproc. }
  clear Hp. revert p Hrep.
  apply (walk_inv e
           (fun sc => forall p, reported p sc -> p ∈ Methods.find_walk folder_path top)
           (fun root n => forall p, p ∈ Methods.find_walk root n
                                    -> p ∈ Methods.find_walk folder_path top));
    try done.
  - intros root d entries file sc HR _ Hin Hsc p.
    destruct (scan_file_cases e root file sc)
      as [[-> _]|[[-> _]|(_ & Hext & Hadd)]]; try apply Hsc.
    assert (Hhere : Path.join root file ∈ Methods.find_walk folder_path top).
    { apply HR, find_walk_listed. left. by exists file. }
    destruct Hadd as [(r & _ & ->)|[_ ->]]; unfold reported; simpl.
    + rewrite fmap_app, elem_of_app. simpl. rewrite list_elem_of_singleton.
      intros [Hq|[Hq| ->]]; [apply Hsc; by left|apply Hsc; by right|done].
    + rewrite elem_of_app, list_elem_of_singleton.
      intros [[Hq| ->]|Hq]; [apply Hsc; by left|done|apply Hsc; by right].
  - intros root d entries d' listing HR _ Hin _ p Hp.
    apply HR, find_walk_listed. right. by exists d', listing.
  - intros q [Hq|Hq]; inversion Hq.
Qed.

End ScanCoverage.

(** * From the scan to the window *)

Module ConsumerProofs.
Import Scanner ScannerProofs NameProofs ScanCoverage.

Lemma filter_all {A} (P : A -> Prop) `{!forall x, Decision (P x)} (l : list A) :
  (forall x, x ∈ l -> P x) -> filter P l = l.
Proof.
  induction l as [|x l IH]; intros Hl; [done|].
  rewrite filter_cons_True by (apply Hl; left).
  f_equal. apply IH. intros y Hy. apply Hl. by right.
Qed.

Section processed.
Variable path_exists : string -> bool.

Lemma processed_map_fold l : Consumer.processed_map path_exists l = foldl (Window.keep_result path_exists) ∅ l.
Proof. reflexivity. Qed.

Lemma processed_map_sound l : forall m p r,
  foldl (Window.keep_result path_exists) m l !! p = Some r ->
  m !! p = Some r
  \/ ((p, r) ∈ l /\ path_exists r = true
      /\ Str.is_empty p = false /\ Str.is_empty r = false).
Proof.
  induction l as [|[q s] l IH]; intros m p r Hlook; [by left|].
  simpl in Hlook. apply IH in Hlook as [Hm|(Hin & ?)]; [|right; split; [by right|done]].
  unfold Window.keep_result in Hm. simpl in Hm.
  destruct (Str.is_empty q) eqn:Hq; simpl in Hm; [by left|].
  destruct (Str.is_empty s) eqn:Hs; simpl in Hm; [by left|].
  destruct (path_exists s) eqn:Hex; simpl in Hm; [|by left].
  destruct (decide (q = p)) as [->|Hne].
  - rewrite lookup_insert_eq in Hm. injection Hm as ->. right. split; [left|done].
  - rewrite lookup_insert_ne in Hm by done. by left.
Qed.

Lemma processed_map_keeps l : forall m p r,
  (forall r', (p, r') ∈ l -> r' = r) ->
  m !! p = Some r -> foldl (Window.keep_result path_exists) m l !! p = Some r.
Proof.
  induction l as [|[q s] l IH]; intros m p r Hfun Hm; [done|].
  simpl. apply IH; [intros r' Hr'; apply Hfun; by right|].
  unfold Window.keep_result. simpl. destruct (_ && _); [|done].
  destruct (decide (q = p)) as [->|Hne].
  - rewrite lookup_insert_eq. f_equal. apply Hfun. left.
  - by rewrite lookup_insert_ne.
Qed.

Lemma processed_map_complete l : forall m p r,
  (forall r', (p, r') ∈ l -> r' = r) ->
  (p, r) ∈ l -> path_exists r = true ->
  Str.is_empty p = false -> Str.is_empty r = false ->
  foldl (Window.keep_result path_exists) m l !! p = Some r.
Proof.
  induction l as [|[q s] l IH]; intros m p r Hfun Hin Hex Hp Hr; [inversion Hin|].
  assert (Hfun' : forall r', (p, r') ∈ l -> r' = r) by (intros r' Hr'; apply Hfun; by right).
  simpl. apply elem_of_cons in Hin as [[= <- <-]|Hin]; [|by apply IH].
  apply processed_map_keeps; [done|].
  unfold Window.keep_result. simpl. rewrite Hp, Hr, Hex. simpl. apply lookup_insert_eq.
Qed.

End processed.

(** X13.  When a scan emits its pending list, [on_folder_scanned] keeps all
    of it: the input list of the window is the emitted list, sorted, with
    nothing removed.  The map of earlier results holds exactly the
    already-processed pairs whose result still exists. *)
Theorem scan_handed_over_whole (e : env) (folder_path : string) (top : node)
    (image_files : list string) (still_exists : string -> bool) :
  entries_ok top = true ->
  files_found image_files ∈ (run e folder_path top).1 ->
  let already_processed := (run e folder_path top).2 in
  let handed := Consumer.on_folder_scanned still_exists already_processed image_files in
  handed.2 = Consumer.sorted image_files
  /\ (forall p r, handed.1 !! p = Some r <->
                  (p, r) ∈ already_processed /\ still_exists r = true).
Proof.
  intros Hok Hfound. simpl.
  destruct (run_reports e folder_path top) as [Hproc Himg].
  rewrite (Himg _ Hfound) in *. rewrite Hproc.
  destruct (walk_classified e top folder_path init) as (_ & Hpend & Hdone).
  { split_and!; [done|intros ? Hq; inversion Hq|intros ?? Hq; inversion Hq]. }
  set (sc := (walk e folder_path top init).2) in *.
  rewrite processed_map_fold.
  split.
  - f_equal. apply filter_all. intros p Hp.
    destruct (foldl _ ∅ (Scanner.already_processed sc) !! p) as [r|] eqn:Hlook; [|done].
    apply processed_map_sound in Hlook as [Hempty|(Hin & _)]; [by rewrite lookup_empty in Hempty|].
    specialize (Hpend p Hp). rewrite (Hdone p r Hin) in Hpend. done.
  - intros p r. split.
    + intros Hlook.
      apply processed_map_sound in Hlook as [Hempty|(Hin & Hex & _)];
        [by rewrite lookup_empty in Hempty|done].
    + intros [Hin Hex]. apply processed_map_complete; [|done..| |].
      * intros r' Hr'. pose proof (Hdone p r Hin). pose proof (Hdone p r' Hr'). congruence.
      * assert (Hc : candidate folder_path p).
        { apply (run_candidates e folder_path top p Hok). right. rewrite Hproc.
          apply list_elem_of_fmap. by exists (p, r). }
        destruct Hc as (dirs & file & -> & _ & Hname & _).
        rewrite descend_snoc. by apply is_empty_join.
      * destruct (find_existing_result_cases e p) as [Hsome _].
        destruct (Hsome r (Hdone p r Hin)) as (_ & (dir & ext & (_ & _ & Hext) & ->) & _).
        apply is_empty_app_r. unfold output_extensions in Hext.
        repeat (apply elem_of_cons in Hext as [->|Hext]; [done|]). inversion Hext.
Qed.

Lemma scan_handed_over_whole_witness :
  let found := ["/data/photos/b.jpg"; "/data/photos/a.PNG"; "/data/photos/sub/deep/d.webp"] in
  let already_processed := (run Samples.quiet_scan "/data/photos" Samples.photos).2 in
  let handed := Consumer.on_folder_scanned Samples.on_disk already_processed found in
  handed.2 = Consumer.sorted found
  /\ (forall p r, handed.1 !! p = Some r <->
                  (p, r) ∈ already_processed /\ Samples.on_disk r = true).
Proof.
  apply (scan_handed_over_whole Samples.quiet_scan "/data/photos" Samples.photos
           ["/data/photos/b.jpg"; "/data/photos/a.PNG"; "/data/photos/sub/deep/d.webp"]
           Samples.on_disk).
  - reflexivity.
  - vm_compute. left.
Defined.

End ConsumerProofs.

(** * The prompt processor: what an optimized prompt looks like *)

Module PromptProofs.
Import Prompt ScannerProofs.

Lemma endswith_app_r (a b suffix : string) :
  Str.endswith b suffix = true -> Str.endswith (a ++ b) suffix = true.
Proof.
  intros Hb. induction a as [|c a IH]; [done|].
  rewrite append_cons, endswith_cons, IH. apply orb_true_r.
Qed.

Lemma ends_sentence_app_r (a b : string) :
  ends_sentence b = true -> ends_sentence (a ++ b) = true.
Proof.
  unfold ends_sentence. intros H.
  apply orb_true_iff in H as [H|H]; [apply orb_true_iff in H as [H|H]|];
    rewrite (endswith_app_r a b _ H); by rewrite ?orb_true_r.
Qed.

Lemma length_app (a b : string) :
  String.length (a ++ b) = (String.length a + String.length b)%nat.
Proof. induction a as [|c a IH]; [done|]. rewrite append_cons. simpl. by rewrite IH. Qed.

Lemma length_lstrip (s : string) : (String.length (lstrip s) <= String.length s)%nat.
Proof. induction s as [|c s IH]; [done|]. simpl. destruct (is_space c); simpl; lia. Qed.

Lemma length_rstrip (s : string) : (String.length (rstrip s) <= String.length s)%nat.
Proof.
  induction s as [|c s IH]; [done|]. simpl.
  destruct (Str.is_empty (rstrip s) && is_space c); simpl; lia.
Qed.

Lemma collapse_cons (c : ascii) (rest : string) :
  collapse (String c rest)
  = if is_space c then
      match rest with
      | EmptyString => String " " EmptyString
      | String d _ => if is_space d then collapse rest else String " " (collapse rest)
      end
    else String c (collapse rest).
Proof. reflexivity. Qed.

Lemma length_collapse (s : string) : (String.length (collapse s) <= String.length s)%nat.
Proof.
  induction s as [|c s IH]; [done|]. rewrite collapse_cons.
  destruct (is_space c); [|simpl; lia].
  destruct s as [|d s']; [simpl; lia|].
  destruct (is_space d); simpl in *; lia.
Qed.

Lemma length_substring (n : nat) (s : string) :
  String.length (substring 0 n s) = Nat.min n (String.length s).
Proof.
  revert n. induction s as [|c s IH]; intros [|n]; simpl; try done. by rewrite IH.
Qed.

Lemma rstrip_cons (c : ascii) (rest : string) :
  rstrip (String c rest)
  = if Str.is_empty (rstrip rest) && is_space c then EmptyString
    else String c (rstrip rest).
Proof. reflexivity. Qed.

Lemma rstrip_idem (s : string) : rstrip (rstrip s) = rstrip s.
Proof.
  induction s as [|c s IH]; [done|]. rewrite rstrip_cons.
  destruct (Str.is_empty (rstrip s) && is_space c) eqn:Hc; [done|].
  by rewrite rstrip_cons, IH, Hc.
Qed.

Lemma starts_space_lstrip (s : string) : starts_space (lstrip s) = false.
Proof.
  induction s as [|c s IH]; [done|]. simpl. by destruct (is_space c) eqn:Hc; [|simpl].
Qed.

Lemma starts_space_rstrip (s : string) :
  starts_space s = false -> starts_space (rstrip s) = false.
Proof.
  destruct s as [|c s]; [done|]. simpl. intros Hc. rewrite Hc, andb_false_r. done.
Qed.

Lemma starts_space_collapse (s : string) :
  starts_space s = false -> starts_space (collapse s) = false.
Proof. destruct s as [|c s]; [done|]. simpl. intros Hc. by rewrite Hc. Qed.

(** Collapsing a text that does not end in white space leaves single
    spaces only. *)
Lemma single_spaced_collapse (s : string) :
  rstrip s = s -> single_spaced (collapse s) = true.
Proof.
  induction s as [|c s IH]; [done|]. rewrite rstrip_cons.
  destruct (Str.is_empty (rstrip s) && is_space c) eqn:Hc; [done|].
  intros [= Hs]. specialize (IH Hs). rewrite Hs in Hc. rewrite collapse_cons.
  destruct (is_space c) eqn:Hsp; [|simpl; by rewrite Hsp].
  destruct s as [|d s']; [done|]. clear Hc.
  destruct (is_space d) eqn:Hd; [done|].
  rewrite collapse_cons, Hd in IH |- *. simpl in *. by rewrite Hd in IH |- *.
Qed.

Lemma tidy_normal (s : string) : tidy (collapse (strip s)) = true.
Proof.
  unfold tidy, strip.
  rewrite starts_space_collapse by apply starts_space_rstrip, starts_space_lstrip.
  by rewrite single_spaced_collapse by apply rstrip_idem.
Qed.

Lemma single_spaced_dot (s : string) :
  single_spaced s = true -> single_spaced (s ++ ".") = true.
Proof.
  induction s as [|c s IH]; [done|]. rewrite append_cons. simpl.
  destruct (is_space c); [|done].
  intros H. apply andb_true_iff in H as [H Hs]. apply andb_true_iff in H as [H Hst].
  apply andb_true_iff in H as [Hc Hne]. rewrite Hc, (IH Hs). simpl.
  destruct s as [|d s']; [done|]. rewrite append_cons. simpl in *. by rewrite Hst.
Qed.

Lemma tidy_dot (s : string) : tidy s = true -> tidy (s ++ ".") = true.
Proof.
  unfold tidy. intros H. apply andb_true_iff in H as [Hst Hs].
  rewrite (single_spaced_dot s Hs), andb_true_r.
  destruct s as [|c s]; [done|]. by rewrite append_cons.
Qed.

Lemma strip_tidy (s : string) : tidy s = true -> strip s = s.
Proof.
  unfold tidy, strip. intros H. apply andb_true_iff in H as [Hst Hs].
  assert (Hl : lstrip s = s).
  { destruct s as [|c s]; [done|]. simpl in *. by destruct (is_space c). }
  rewrite Hl. clear Hl Hst.
  induction s as [|c s IH]; [done|]. simpl in Hs. rewrite rstrip_cons.
  destruct (is_space c).
  - apply andb_true_iff in Hs as [H Hs]. apply andb_true_iff in H as [H _].
    apply andb_true_iff in H as [_ Hne]. rewrite (IH Hs).
    destruct s; [done|]. done.
  - by rewrite (IH Hs), andb_false_r.
Qed.

Lemma collapse_tidy (s : string) : tidy s = true -> collapse s = s.
Proof.
  unfold tidy. intros H. apply andb_true_iff in H as [_ Hs].
  induction s as [|c s IH]; [done|]. simpl in Hs. rewrite collapse_cons.
  destruct (is_space c).
  - apply andb_true_iff in Hs as [H Hs]. apply andb_true_iff in H as [H Hst].
    apply andb_true_iff in H as [Hc Hne]. apply Ascii.eqb_eq in Hc as ->.
    destruct s as [|d s']; [done|]. simpl in Hst. apply negb_true_iff in Hst.
    rewrite Hst. by rewrite (IH Hs).
  - by rewrite (IH Hs).
Qed.

Lemma tidy_fixed (s : string) : tidy s = true -> collapse (strip s) = s.
Proof. intros H. by rewrite (strip_tidy s H), (collapse_tidy s H). Qed.

(** The text that [_optimize_prompt] normalizes, and what it does when
    the text was cut. *)
Lemma lstrip_dots (t : string) : exists t', lstrip (t ++ "...") = t' ++ "..."
  /\ (String.length t' <= String.length t)%nat.
Proof.
  induction t as [|c t (t' & IH & Hlen)]; [by exists ""|].
  rewrite append_cons. simpl. destruct (is_space c).
  - exists t'. split; [done|]. lia.
  - exists (String c t). split; [done|]. simpl. lia.
Qed.

Lemma rstrip_dots (t : string) : rstrip (t ++ "...") = t ++ "...".
Proof.
  induction t as [|c t IH]; [done|]. rewrite append_cons, rstrip_cons, IH.
  destruct t; done.
Qed.

Lemma collapse_dots (t : string) : exists t', collapse (t ++ "...") = t' ++ "...".
Proof.
  induction t as [|c t (t' & IH)]; [by exists ""|].
  rewrite append_cons, collapse_cons. destruct (is_space c).
  - destruct t as [|d t2]; [by exists " "|].
    rewrite append_cons in IH |- *. destruct (is_space d).
    + by exists t'.
    + exists (String " " t'). by rewrite IH.
  - exists (String c t'). by rewrite IH.
Qed.

Lemma normal_dots (t : string) : ends_sentence (collapse (strip (t ++ "..."))) = true.
Proof.
  unfold strip. destruct (lstrip_dots t) as (t1 & -> & _). rewrite rstrip_dots.
  destruct (collapse_dots t1) as (t2 & ->). by apply ends_sentence_app_r.
Qed.

Lemma length_normal (s : string) :
  (String.length (collapse (strip s)) <= String.length s)%nat.
Proof.
  unfold strip. pose proof (length_collapse (rstrip (lstrip s))).
  pose proof (length_rstrip (lstrip s)). pose proof (length_lstrip s). lia.
Qed.

Lemma optimize_prompt_cases (max_length : Z) (prompt : string) :
  exists cut,
    cut = (if max_length <? Z.of_nat (String.length prompt)
           then slice_to (max_length - 3) prompt ++ "..." else prompt)
    /\ (_optimize_prompt max_length prompt = collapse (strip cut)
        /\ ends_sentence (collapse (strip cut)) = true
        \/ _optimize_prompt max_length prompt = collapse (strip cut) ++ "."
           /\ ends_sentence (collapse (strip cut)) = false).
Proof.
  eexists. split; [reflexivity|]. unfold _optimize_prompt.
  set (normal := collapse (strip _)).
  destruct (ends_sentence normal); simpl; auto.
Qed.

(** X23.  Whatever the prompt and the maximal length, [_optimize_prompt]
    returns a text that is not empty, ends with ".", "!" or "?", has no
    white space at either end, and has no white space inside but single
    spaces. *)
Theorem optimized_prompt_is_a_tidy_sentence (max_length : Z) (prompt : string) :
  ends_sentence (_optimize_prompt max_length prompt) = true
  /\ tidy (_optimize_prompt max_length prompt) = true
  /\ Str.is_empty (_optimize_prompt max_length prompt) = false.
Proof.
  destruct (optimize_prompt_cases max_length prompt) as (cut & _ & [[-> Hend]|[-> Hend]]).
  - split; [done|]. split; [apply tidy_normal|].
    destruct (collapse (strip cut)); [done|done].
  - split; [by apply ends_sentence_app_r|]. split; [apply tidy_dot, tidy_normal|].
    by apply is_empty_app_r.
Qed.

(** X24.  With a maximal length of at least 3, the text that
    [_optimize_prompt] returns is at most one character longer than the
    maximum, and within the maximum whenever the prompt was longer than it
    and got cut. *)
Theorem optimized_prompt_length (max_length : Z) (prompt : string) :
  3 <= max_length ->
  Z.of_nat (String.length (_optimize_prompt max_length prompt)) <= max_length + 1
  /\ (max_length < Z.of_nat (String.length prompt) ->
      Z.of_nat (String.length (_optimize_prompt max_length prompt)) <= max_length).
Proof.
  intros Hmax.
  destruct (optimize_prompt_cases max_length prompt) as (cut & Hcut & Hcases).
  destruct (Z.ltb_spec max_length (Z.of_nat (String.length prompt))) as [Hlong|Hshort].
  - assert (Hlen : Z.of_nat (String.length cut) <= max_length).
    { rewrite Hcut, length_app. unfold slice_to.
      destruct (Z.ltb_spec (max_length - 3) 0); [lia|].
      rewrite length_substring. simpl. lia. }
    assert (Hend : ends_sentence (collapse (strip cut)) = true)
      by (rewrite Hcut; apply normal_dots).
    destruct Hcases as [[-> _]|[_ Hno]]; [|congruence].
    pose proof (length_normal cut). lia.
  - subst cut. pose proof (length_normal prompt).
    destruct Hcases as [[-> _]|[-> _]]; [lia|]. rewrite length_app. simpl. lia.
Qed.

(** X25.  An optimized prompt that is within the maximal length is left as
    it is when it is optimized again. *)
Theorem optimize_prompt_idempotent (max_length : Z) (prompt : string) :
  Z.of_nat (String.length (_optimize_prompt max_length prompt)) <= max_length ->
  _optimize_prompt max_length (_optimize_prompt max_length prompt)
  = _optimize_prompt max_length prompt.
Proof.
  intros Hlen.
  assert (Htidy : tidy (_optimize_prompt max_length prompt) = true).
  { destruct (optimize_prompt_cases max_length prompt) as (cut & _ & [[-> _]|[-> _]]);
      [apply tidy_normal|apply tidy_dot, tidy_normal]. }
  assert (Hend : ends_sentence (_optimize_prompt max_length prompt) = true).
  { destruct (optimize_prompt_cases max_length prompt) as (cut & _ & [[-> H]|[-> _]]);
      [done|by apply ends_sentence_app_r]. }
  set (o := _optimize_prompt max_length prompt) in *.
  unfold _optimize_prompt at 1.
  destruct (Z.ltb_spec max_length (Z.of_nat (String.length o))); [lia|].
  by rewrite (tidy_fixed o Htidy), Hend.
Qed.

Lemma optimize_prompt_tidy (max_length : Z) (prompt : string) :
  tidy (_optimize_prompt max_length prompt) = true.
Proof.
  destruct (optimize_prompt_cases max_length prompt) as (cut & _ & [[-> _]|[-> _]]);
    [apply tidy_normal|apply tidy_dot, tidy_normal].
Qed.

(** X26.  [get_prompt] for a prompt type that the processor does not know
    gives what it gives for ['default']; it raises, for want of a key, if
    and only if neither the type nor ['default'] is known; and with
    optimization enabled what it returns is never empty, ends a sentence and
    has no white space but single spaces inside. *)
Theorem get_prompt_falls_back (pp : processor) (prompt_type : string) :
  (prompts_data pp !! prompt_type = None ->
   get_prompt pp prompt_type = get_prompt pp "default")
  /\ (get_prompt pp prompt_type = None <->
      prompts_data pp !! prompt_type = None /\ prompts_data pp !! "default" = None)
  /\ (forall prompt, get_prompt pp prompt_type = Some prompt ->
        enable_optimization pp = true ->
        tidy prompt = true /\ ends_sentence prompt = true
        /\ Str.is_empty prompt = false).
Proof.
  unfold get_prompt. split_and!.
  - intros ->. destruct (prompts_data pp !! "default") as [data|] eqn:Hdata;
      by rewrite Hdata.
  - destruct (prompts_data pp !! prompt_type) as [data|] eqn:Hdata.
    + rewrite Hdata. split; [done|]. by intros [? _].
    + destruct (prompts_data pp !! "default"); split; try done. by intros [_ ?].
  - intros prompt Hprompt Hopt. rewrite Hopt in Hprompt.
    assert (Hopt' : exists text, prompt = _optimize_prompt (max_prompt_length pp) text).
    { destruct (prompts_data pp !! prompt_type) as [data|] eqn:Hdata.
      - rewrite Hdata in Hprompt. injection Hprompt as <-. eauto.
      - destruct (prompts_data pp !! "default"); [|done]. injection Hprompt as <-. eauto. }
    destruct Hopt' as (text & ->).
    destruct (optimize_prompt_cases (max_prompt_length pp) text)
      as (cut & _ & [[-> Hend]|[-> Hend]]).
    + split; [apply tidy_normal|]. split; [done|]. by destruct (collapse (strip cut)).
    + split; [apply tidy_dot, tidy_normal|]. split; [by apply ends_sentence_app_r|].
      by apply is_empty_app_r.
Qed.

(** X27.  When [load_preset_prompt] has put the prompt of the current preset
    in the editor, optimization being enabled, [start_processing] takes the
    prompt for the preset's own: the worker gets the type of the preset and
    no custom prompt. *)
Theorem loaded_preset_is_not_custom (c : Window.controls) (pp : processor)
    (preset_name : string) :
  Window.prompt_processor c = Some pp ->
  enable_optimization pp = true ->
  Window.current_preset c = preset_name ->
  let prompt_type := default "default" (Dict.get preset_name Window.preset_to_type) in
  is_Some (get_prompt pp prompt_type) ->
  Window.chosen_prompt (Window.load_preset_prompt preset_name c) = (prompt_type, None).
Proof.
  intros Hpp Hopt Hpreset prompt_type [prompt Hprompt].
  unfold Window.load_preset_prompt. rewrite Hpp. fold prompt_type. rewrite Hprompt.
  unfold Window.chosen_prompt.
  cbn [Window.current_preset Window.prompt_edit Window.prompt_processor].
  rewrite Hpreset. fold prompt_type. rewrite Hprompt. cbn [default].
  assert (Htidy : tidy prompt = true).
  { unfold get_prompt in Hprompt. rewrite Hopt in Hprompt.
    destruct (prompts_data pp !! _) as [data|]; [|done].
    injection Hprompt as <-. apply optimize_prompt_tidy. }
  by rewrite (strip_tidy prompt Htidy), String.eqb_refl.
Qed.

Lemma optimized_prompt_length_witness :
  Z.of_nat (String.length (_optimize_prompt 10 "hello   world  again")) <= 10 + 1
  /\ (10 < Z.of_nat (String.length "hello   world  again") ->
      Z.of_nat (String.length (_optimize_prompt 10 "hello   world  again")) <= 10).
Proof. apply (optimized_prompt_length 10 "hello   world  again"). lia. Defined.

Lemma optimize_prompt_idempotent_witness :
  _optimize_prompt 500 (_optimize_prompt 500 "  Remove   the sky ")
  = _optimize_prompt 500 "  Remove   the sky ".
Proof.
  apply (optimize_prompt_idempotent 500 "  Remove   the sky ").
  vm_compute. discriminate.
Defined.

Lemma loaded_preset_is_not_custom_witness :
  Window.chosen_prompt (Window.load_preset_prompt "Default Sky Removal" Desk.controls)
  = ("default", None).
Proof.
  apply (loaded_preset_is_not_custom Desk.controls Desk.processor "Default Sky Removal").
  - reflexivity.
  - reflexivity.
  - reflexivity.
  - vm_compute. eauto.
Defined.

End PromptProofs.

(** * The main window: what is queued, skipped and retried *)

Module WindowProofs.
Import Scanner ScannerProofs NameProofs Window.

Section dict_facts.
Context {V : Type}.
Implicit Types (d : Dict.t V) (k : string) (v : V).

Lemma get_set_eq k v d : Dict.get k (Dict.set k v d) = Some v.
Proof.
  induction d as [|[k' v'] d IH]; simpl; [by rewrite String.eqb_refl|].
  destruct (String.eqb_spec k' k) as [->|Hne]; simpl.
  - by rewrite String.eqb_refl.
  - by destruct (String.eqb_spec k' k).
Qed.

Lemma get_set_ne k k' v d : k <> k' -> Dict.get k' (Dict.set k v d) = Dict.get k' d.
Proof.
  intros Hne. induction d as [|[k0 v0] d IH]; simpl.
  - by destruct (String.eqb_spec k k').
  - destruct (String.eqb_spec k0 k) as [->|Hk]; simpl.
    + by destruct (String.eqb_spec k k').
    + by rewrite IH.
Qed.

Lemma get_del_eq k d : Dict.get k (Dict.del k d) = None.
Proof.
  unfold Dict.del, Dict.t. induction d as [|[k' v'] d IH]; [done|].
  destruct (decide (k' = k)) as [->|Hne].
  - by rewrite filter_cons_False by (simpl; auto).
  - rewrite filter_cons_True by done. simpl. by destruct (String.eqb_spec k' k).
Qed.

Lemma get_del_ne k k' d : k <> k' -> Dict.get k' (Dict.del k d) = Dict.get k' d.
Proof.
  intros Hne. unfold Dict.del, Dict.t. induction d as [|[k0 v0] d IH]; [done|].
  destruct (decide (k0 = k)) as [->|Hk].
  - rewrite filter_cons_False by (simpl; auto). simpl.
    by destruct (String.eqb_spec k k').
  - rewrite filter_cons_True by done. simpl. by rewrite IH.
Qed.

Lemma get_Some_keys k v d : Dict.get k d = Some v -> k ∈ Dict.keys d.
Proof.
  unfold Dict.keys. induction d as [|[k' v'] d IH]; [done|]. simpl.
  destruct (String.eqb_spec k' k) as [->|Hne]; [left|]. intros H. right. by apply IH.
Qed.

Lemma get_None_keys k d : Dict.get k d = None <-> k ∉ Dict.keys d.
Proof.
  unfold Dict.keys. induction d as [|[k' v'] d IH]; simpl.
  - split; [intros _ Hin; inversion Hin|done].
  - rewrite not_elem_of_cons. destruct (String.eqb_spec k' k) as [->|Hne].
    + split; [done|]. by intros [? _].
    + rewrite IH. split; [by split|by intros [_ ?]].
Qed.

End dict_facts.

Import ScanCoverage ConsumerProofs.

Lemma expected_output_nonempty (e : env) (image_path : string) (output_dir : option string) :
  Str.is_empty (get_expected_output_path e image_path output_dir) = false.
Proof.
  unfold get_expected_output_path.
  destruct output_dir as [d|]; [destruct (negb (Str.is_empty d))|];
    apply is_empty_join; by apply stem_name_ok.
Qed.

Lemma filter_existing_outputs_fold (e : env) (output_dir : option string)
    (image_paths : list string) : forall acc : list string * list (string * string),
  foldl (fun (acc : list string * list (string * string)) image_path =>
           let expected_output := get_expected_output_path e image_path output_dir in
           if negb (Str.is_empty expected_output) && path_exists e expected_output
           then (acc.1, (acc.2 ++ [(image_path, expected_output)])%list)
           else ((acc.1 ++ [image_path])%list, acc.2))
        acc image_paths
  = ((acc.1 ++ filter (fun p => path_exists e (get_expected_output_path e p output_dir) = false)
                 image_paths)%list,
     (acc.2 ++ ((fun p => (p, get_expected_output_path e p output_dir))
                <$> filter (fun p => path_exists e (get_expected_output_path e p output_dir)
                                     = true) image_paths))%list).
Proof.
  induction image_paths as [|p rest IH]; intros [pending skipped].
  { simpl. by rewrite !app_nil_r. }
  simpl foldl. rewrite IH. rewrite expected_output_nonempty. simpl.
  destruct (path_exists e (get_expected_output_path e p output_dir)) eqn:Hex; simpl.
  - rewrite filter_cons_False by congruence. rewrite filter_cons_True by done.
    by rewrite fmap_cons, <- app_assoc.
  - rewrite filter_cons_True by done. rewrite filter_cons_False by congruence.
    by rewrite <- app_assoc.
Qed.

Lemma fst_pairs {A B} (f : A -> B) (l : list A) : ((fun x => (x, f x)) <$> l).*1 = l.
Proof. induction l as [|x l IH]; [done|]. rewrite !fmap_cons. simpl. by f_equal. Qed.

Lemma filter_existing_outputs_eq (e : env) (image_paths : list string)
    (output_dir : option string) :
  filter_existing_outputs e image_paths output_dir
  = (filter (fun p => path_exists e (get_expected_output_path e p output_dir) = false)
       image_paths,
     (fun p => (p, get_expected_output_path e p output_dir))
     <$> filter (fun p => path_exists e (get_expected_output_path e p output_dir) = true)
           image_paths).
Proof. unfold filter_existing_outputs. by rewrite filter_existing_outputs_fold. Qed.

(** X15.  [filter_existing_outputs] splits its list in two and loses
    nothing: [pending] is the images whose expected output does not exist,
    [skipped] is the others, each paired with its expected output, both in
    the order of the list; together they are a permutation of the list. *)
Theorem filter_existing_outputs_partitions (e : env) (image_paths : list string)
    (output_dir : option string) :
  let expected p := get_expected_output_path e p output_dir in
  let split := filter_existing_outputs e image_paths output_dir in
  split.1 = filter (fun p => path_exists e (expected p) = false) image_paths
  /\ split.2 = (fun p => (p, expected p))
               <$> filter (fun p => path_exists e (expected p) = true) image_paths
  /\ image_paths ≡ₚ split.1 ++ split.2.*1.
Proof.
  intros expected split. unfold split, filter_existing_outputs.
  rewrite filter_existing_outputs_fold. simpl. split; [done|]. split; [done|].
  rewrite fst_pairs.
  induction image_paths as [|p rest IH]; [done|].
  destruct (path_exists e (get_expected_output_path e p output_dir)) eqn:Hex.
  - rewrite filter_cons_False by congruence. rewrite filter_cons_True by done.
    rewrite <- Permutation_middle. by constructor.
  - rewrite filter_cons_True by done. rewrite filter_cons_False by congruence.
    simpl. by constructor.
Qed.

Lemma fromkeys_fold (l : list string) : forall acc,
  NoDup acc ->
  exists new,
    foldl (fun (keys : list string) k =>
             if bool_decide (k ∈ keys) then keys else (keys ++ [k])%list) acc l
    = (acc ++ new)%list
    /\ NoDup (acc ++ new)
    /\ new `sublist_of` l
    /\ (forall p, p ∈ new <-> p ∈ l /\ p ∉ acc).
Proof.
  induction l as [|k l IH]; intros acc Hnd.
  { exists []. rewrite app_nil_r. split_and!; try done.
    intros p. split; [intros Hin; inversion Hin|intros [Hin _]; inversion Hin]. }
  simpl. destruct (bool_decide_reflect (k ∈ acc)) as [Hk|Hk].
  - destruct (IH acc Hnd) as (new & -> & Hnd' & Hsub & Hmem).
    exists new. split_and!; try done; [by apply sublist_cons|].
    intros p. rewrite Hmem, elem_of_cons. split; [intros [? ?]; auto|].
    intros [[->|Hin] Hnot]; [done|auto].
  - destruct (IH (acc ++ [k])%list) as (new & -> & Hnd' & Hsub & Hmem).
    { apply NoDup_app. split_and!; [done| |apply NoDup_singleton].
      intros x Hx Hx'. apply list_elem_of_singleton in Hx'. by subst. }
    exists (k :: new). rewrite <- app_assoc in *. split_and!; try done.
    + by apply sublist_skip.
    + intros p. rewrite elem_of_cons, Hmem, elem_of_cons, not_elem_of_app.
      rewrite list_elem_of_singleton. split.
      * intros [->|(Hin & Hnot & _)]; auto.
      * intros [[->|Hin] Hnot]; [by left|].
        destruct (decide (p = k)) as [->|Hne]; [by left|right; auto].
Qed.

Lemma fromkeys_nodup_fold (l : list string) : forall acc,
  NoDup (acc ++ l) ->
  foldl (fun (keys : list string) k =>
           if bool_decide (k ∈ keys) then keys else (keys ++ [k])%list) acc l
  = (acc ++ l)%list.
Proof.
  induction l as [|k l IH]; intros acc Hnd; [by rewrite app_nil_r|].
  simpl. destruct (bool_decide_reflect (k ∈ acc)) as [Hk|Hk].
  - apply NoDup_app in Hnd as (_ & Hdis & _). destruct (Hdis k Hk). left.
  - rewrite IH; [by rewrite <- app_assoc|]. by rewrite <- app_assoc.
Qed.

Lemma given_paths_nodup (image_paths : list string) : NoDup (given_paths image_paths).
Proof.
  unfold given_paths, fromkeys.
  destruct (fromkeys_fold (filter (fun p => Str.is_empty p = false) image_paths) [])
    as (new & -> & Hnd & _); [constructor|done].
Qed.

Lemma given_paths_elem (image_paths : list string) (p : string) :
  p ∈ given_paths image_paths <-> p ∈ image_paths /\ Str.is_empty p = false.
Proof.
  unfold given_paths, fromkeys.
  destruct (fromkeys_fold (filter (fun p => Str.is_empty p = false) image_paths) [])
    as (new & -> & _ & _ & Hmem); [constructor|].
  simpl. rewrite Hmem, list_elem_of_filter. split.
  - intros [[? ?] _]. done.
  - intros [? ?]. split; [done|]. intros Hin. inversion Hin.
Qed.

(** X16.  The list that [start_processing] makes of the paths it is given
    ([list(dict.fromkeys(path for path in image_paths if path))]) has no
    repetition, is a sublist of the given list, holds exactly its paths that
    are not empty, is extended and not reordered when paths are appended,
    and is the given list itself when that has no repetition and no empty
    path. *)
Theorem given_paths_spec (image_paths : list string) :
  NoDup (given_paths image_paths)
  /\ given_paths image_paths `sublist_of` image_paths
  /\ (forall p, p ∈ given_paths image_paths <-> p ∈ image_paths /\ Str.is_empty p = false)
  /\ (forall more, given_paths image_paths `prefix_of` given_paths (image_paths ++ more))
  /\ (NoDup image_paths -> Forall (fun p => Str.is_empty p = false) image_paths ->
      given_paths image_paths = image_paths).
Proof.
  unfold given_paths, fromkeys. split_and!.
  - destruct (fromkeys_fold (filter (fun p => Str.is_empty p = false) image_paths) [])
      as (new & -> & Hnd & _); [constructor|done].
  - destruct (fromkeys_fold (filter (fun p => Str.is_empty p = false) image_paths) [])
      as (new & -> & _ & Hsub & _); [constructor|].
    simpl. etrans; [exact Hsub|]. apply sublist_filter.
  - intros p.
    destruct (fromkeys_fold (filter (fun p => Str.is_empty p = false) image_paths) [])
      as (new & -> & _ & _ & Hmem); [constructor|].
    simpl. rewrite Hmem, list_elem_of_filter. split.
    + intros [[? ?] _]. done.
    + intros [? ?]. split; [done|]. intros Hin. inversion Hin.
  - intros more. rewrite filter_app, foldl_app.
    destruct (fromkeys_fold (filter (fun p => Str.is_empty p = false) image_paths) [])
      as (new & -> & Hnd & _); [constructor|]. simpl in *.
    destruct (fromkeys_fold (filter (fun p => Str.is_empty p = false) more) new Hnd)
      as (new' & -> & _). by exists new'.
  - intros Hnd Hall. rewrite filter_all by (by apply Forall_forall).
    by apply fromkeys_nodup_fold.
Qed.

Lemma forget_failure_spec (p : string) (st : state) :
  output_files (forget_failure p st) = output_files st
  /\ Dict.get p (failed_inputs (forget_failure p st)) = None
  /\ (forall q, q <> p ->
        Dict.get q (failed_inputs (forget_failure p st)) = Dict.get q (failed_inputs st))
  /\ (forall q, Dict.get q (failed_inputs st) = None ->
        Dict.get q (failed_inputs (forget_failure p st)) = None).
Proof.
  unfold forget_failure, Dict.mem.
  destruct (Dict.get p (failed_inputs st)) as [m|] eqn:Hget; simpl.
  - split_and!; [done|apply get_del_eq|intros; by apply get_del_ne|].
    intros q Hq. destruct (decide (p = q)) as [->|Hne]; [apply get_del_eq|].
    by rewrite get_del_ne.
  - done.
Qed.

(** One step of the loop over the skipped outputs. *)
Lemma skip_output_step (ip op : string) (st : state) :
  let st1 := forget_failure ip st in
  let st2 := match output_files st1 !! ip with
             | Some _ => st1
             | None => add_result_to_tree ip op st1
             end in
  is_Some (output_files st2 !! ip)
  /\ Dict.get ip (failed_inputs st2) = None
  /\ (forall q, q <> ip ->
        output_files st2 !! q = output_files st !! q
        /\ Dict.get q (failed_inputs st2) = Dict.get q (failed_inputs st))
  /\ (forall q, Dict.get q (failed_inputs st) = None -> Dict.get q (failed_inputs st2) = None)
  /\ (forall q o, output_files st !! q = Some o -> output_files st2 !! q = Some o).
Proof.
  intros st1 st2. destruct (forget_failure_spec ip st) as (Hout & Hget & Hne & Hnone).
  fold st1 in Hout, Hget, Hne, Hnone. unfold st2.
  destruct (output_files st1 !! ip) as [o|] eqn:Hlook.
  - split_and!; [by rewrite Hlook|done| |done|].
    + intros q Hq. rewrite Hout. split; [done|by apply Hne].
    + intros q o' Hq. by rewrite Hout.
  - unfold add_result_to_tree. simpl. split_and!.
    + rewrite lookup_insert_eq. eauto.
    + done.
    + intros q Hq. rewrite lookup_insert_ne by done. rewrite Hout. split; [done|by apply Hne].
    + done.
    + intros q o' Hq. destruct (decide (ip = q)) as [->|Hq'].
      * rewrite Hout in Hlook. congruence.
      * rewrite lookup_insert_ne by done. by rewrite Hout.
Qed.

Lemma skip_outputs_spec (skipped : list (string * string)) : forall st,
  (forall p, p ∈ skipped.*1 ->
     is_Some (output_files (skip_outputs skipped st) !! p)
     /\ Dict.get p (failed_inputs (skip_outputs skipped st)) = None)
  /\ (forall p, p ∉ skipped.*1 ->
        output_files (skip_outputs skipped st) !! p = output_files st !! p
        /\ Dict.get p (failed_inputs (skip_outputs skipped st))
           = Dict.get p (failed_inputs st))
  /\ (forall p, Dict.get p (failed_inputs st) = None ->
        Dict.get p (failed_inputs (skip_outputs skipped st)) = None)
  /\ (forall p o, output_files st !! p = Some o ->
        output_files (skip_outputs skipped st) !! p = Some o).
Proof.
  unfold skip_outputs.
  induction skipped as [|[ip op] rest IH]; intros st.
  { simpl. split_and!; try done. intros p Hp. inversion Hp. }
  simpl foldl. destruct (skip_output_step ip op st) as (Hin & Hget & Hne & Hnone & Hkeep).
  cbv zeta in Hin, Hget, Hne, Hnone, Hkeep.
  set (st2 := match output_files (forget_failure ip st) !! ip with
              | Some _ => forget_failure ip st
              | None => add_result_to_tree ip op (forget_failure ip st)
              end) in *.
  destruct (IH st2) as (IHin & IHout & IHnone & IHkeep).
  split_and!.
  - intros p Hp. destruct (decide (p ∈ rest.*1)) as [Hrest|Hrest]; [by apply IHin|].
    rewrite fmap_cons in Hp. apply elem_of_cons in Hp as [->|Hp]; [|done]. simpl.
    destruct (IHout ip Hrest) as [-> ->]. done.
  - intros p Hp. rewrite fmap_cons in Hp. apply not_elem_of_cons in Hp as [Hp Hrest].
    destruct (IHout p Hrest) as [-> ->]. by apply Hne.
  - intros p Hp. by apply IHnone, Hnone.
  - intros p o Hp. by apply IHkeep, Hkeep.
Qed.

(** [start_processing] leaves everything as it is, or it sorts the images
    it is asked for and starts a worker on those that are pending. *)
Lemma start_processing_cases (e : env) (c : controls) (given : option (list string))
    (preserve_outputs : bool) (st st' : state) (started : option launch) :
  start_processing e c given preserve_outputs st = (st', started) ->
  let requested := match given with None => file_list c | Some g => given_paths g end in
  let saved_to := if auto_save c then Some (auto_output_dir requested) else None in
  let expected p := get_expected_output_path e p saved_to in
  let pending := filter (fun p => path_exists e (expected p) = false) requested in
  let skipped :=
    (fun p => (p, expected p)) <$> filter (fun p => path_exists e (expected p) = true)
                                     requested in
  let st1 := if preserve_outputs then st
             else restore_preexisting_results e (clear_results st) in
  (st' = st /\ started = None
   /\ (api_status c = false \/ requested = []
       \/ exists d, saved_to = Some d /\ makedirs e d = false))
  \/ (api_status c = true /\ requested <> []
      /\ st' = skip_outputs skipped st1
      /\ match started with
         | None => pending = []
         | Some l =>
             pending <> []
             /\ l = {| image_paths := pending; output_dir := default "" saved_to;
                       prompt_type := (chosen_prompt c).1;
                       custom_prompt := (chosen_prompt c).2;
                       rate_limit_delay := delay (checked_tier c) |}
         end).
Proof.
  intros Hstart requested saved_to expected pending skipped st1.
  unfold start_processing in Hstart.
  destruct (api_status c); [|left; injection Hstart as <- <-; auto].
  simpl in Hstart. fold requested in Hstart.
  unfold pending, skipped, expected, saved_to. clearbody requested.
  destruct requested as [|p0 rest]; [left; injection Hstart as <- <-; auto|].
  set (requested := p0 :: rest) in *.
  destruct (auto_save c).
  - destruct (makedirs e (auto_output_dir requested)) eqn:Hmk; simpl in Hstart.
    2:{ left. injection Hstart as <- <-. split_and!; try done. right. right. eauto. }
    destruct (chosen_prompt c) as [ptype custom].
    rewrite filter_existing_outputs_eq in Hstart.
    right. split; [done|]. split; [done|].
    destruct (filter _ requested) as [|q pending']; injection Hstart as <- <-; done.
  - simpl in Hstart. destruct (chosen_prompt c) as [ptype custom].
    rewrite filter_existing_outputs_eq in Hstart.
    right. split; [done|]. split; [done|].
    destruct (filter _ requested) as [|q pending']; injection Hstart as <- <-; done.
Qed.

(** X17.  When [start_processing] starts a worker: the API is connected;
    the worker's list is the requested images whose expected output does not
    exist, in order, and is not empty; its output directory is the one
    chosen, or the empty string without auto-save; its delay is that of the
    checked tier; with auto-save no output that the worker will write exists
    yet; and every requested image that is not queued is shown with an
    output and with no failure. *)
Theorem start_processing_queues_new_work (e : env) (c : controls)
    (given : option (list string)) (preserve_outputs : bool) (st st' : state) (l : launch) :
  start_processing e c given preserve_outputs st = (st', Some l) ->
  let requested := match given with None => file_list c | Some g => given_paths g end in
  let saved_to := if auto_save c then Some (auto_output_dir requested) else None in
  api_status c = true
  /\ image_paths l
     = filter (fun p => path_exists e (get_expected_output_path e p saved_to) = false)
         requested
  /\ image_paths l <> []
  /\ output_dir l = default "" saved_to
  /\ rate_limit_delay l = delay (checked_tier c)
  /\ (auto_save c = true ->
      forall remover cancel_at p, p ∈ image_paths l ->
        path_exists e (Worker.output_path_for (worker_env l remover cancel_at) p) = false)
  /\ (forall p, p ∈ requested -> p ∉ image_paths l ->
        is_Some (output_files st' !! p) /\ Dict.get p (failed_inputs st') = None).
Proof.
  intros Hstart requested saved_to.
  destruct (start_processing_cases e c given preserve_outputs st st' (Some l) Hstart)
    as [(_ & ? & _)|(Hapi & Hreq & -> & Hpending & ->)]; [done|].
  fold requested saved_to in Hpending |- *. simpl.
  split; [done|]. split; [done|]. split; [done|]. split; [done|]. split; [done|]. split.
  - intros Hauto remover cancel_at p Hp. unfold Worker.output_path_for. simpl.
    apply list_elem_of_filter in Hp as [Hex _].
    unfold saved_to in *. rewrite Hauto in *. simpl.
    unfold get_expected_output_path in Hex.
    destruct (auto_output_dir_cases requested) as [_ Hne]. by rewrite Hne in Hex.
  - intros p Hp Hnot.
    match goal with |- context [skip_outputs ?sk ?s] =>
      destruct (skip_outputs_spec sk s) as (Hin & _) end.
    apply Hin. rewrite fst_pairs. apply list_elem_of_filter. split; [|done].
    apply not_false_is_true. intros Hex. apply Hnot.
    by apply list_elem_of_filter.
Qed.

(** X18.  When [start_processing] starts no worker, either it has changed
    nothing, because the API is not connected, no image is requested or the
    output directory cannot be made; or every requested image already has
    its expected output on disk, and is then shown with an output and with
    no failure. *)
Theorem start_processing_nothing_new (e : env) (c : controls)
    (given : option (list string)) (preserve_outputs : bool) (st st' : state) :
  start_processing e c given preserve_outputs st = (st', None) ->
  let requested := match given with None => file_list c | Some g => given_paths g end in
  let saved_to := if auto_save c then Some (auto_output_dir requested) else None in
  (st' = st
   /\ (api_status c = false \/ requested = []
       \/ exists d, saved_to = Some d /\ makedirs e d = false))
  \/ (requested <> []
      /\ forall p, p ∈ requested ->
           path_exists e (get_expected_output_path e p saved_to) = true
           /\ is_Some (output_files st' !! p)
           /\ Dict.get p (failed_inputs st') = None).
Proof.
  intros Hstart requested saved_to.
  destruct (start_processing_cases e c given preserve_outputs st st' None Hstart)
    as [(-> & _ & Hwhy)|(Hapi & Hreq & -> & Hpending)]; [by left|].
  fold requested saved_to in Hpending |- *. right. split; [done|].
  intros p Hp.
  assert (Hex : path_exists e (get_expected_output_path e p saved_to) = true).
  { apply not_false_is_true. intros Hex.
    assert (Hin : p ∈ filter (fun p => path_exists e (get_expected_output_path e p saved_to)
                                       = false) requested)
      by (by apply list_elem_of_filter).
    rewrite Hpending in Hin. inversion Hin. }
  split; [done|].
  match goal with |- context [skip_outputs ?sk ?s] =>
    destruct (skip_outputs_spec sk s) as (Hin & _) end.
  apply Hin. rewrite fst_pairs. by apply list_elem_of_filter.
Qed.

Lemma restore_fold (e : env) (items : list (string * string)) : forall st,
  let st' :=
    foldl (fun st item =>
             let '(input_path, output_path) := item in
             if Str.is_empty output_path || negb (path_exists e output_path) then st
             else if bool_decide (output_files st !! input_path = Some output_path) then st
             else add_result_to_tree input_path output_path st)
          st items in
  failed_inputs st' = failed_inputs st
  /\ (forall p o, output_files st' !! p = Some o ->
        output_files st !! p = Some o \/ ((p, o) ∈ items /\ path_exists e o = true)).
Proof.
  induction items as [|[ip op] items IH]; intros st; [by split; auto|].
  cbv zeta. cbn [foldl].
  set (st1 := if Str.is_empty op || negb (path_exists e op) then st
              else if bool_decide (output_files st !! ip = Some op) then st
              else add_result_to_tree ip op st).
  destruct (IH st1) as [Hfailed Hout]. cbv zeta in Hfailed, Hout.
  assert (Hst1 : failed_inputs st1 = failed_inputs st
                 /\ forall p o, output_files st1 !! p = Some o ->
                      output_files st !! p = Some o \/ ((p, o) = (ip, op)
                                                        /\ path_exists e o = true)).
  { unfold st1. destruct (Str.is_empty op); simpl; [by auto|].
    destruct (path_exists e op) eqn:Hex; simpl; [|by auto].
    destruct (bool_decide _); [by auto|]. split; [done|]. simpl.
    intros p o. destruct (decide (ip = p)) as [->|Hne].
    - rewrite lookup_insert_eq. intros [= <-]. by right.
    - rewrite lookup_insert_ne by done. auto. }
  destruct Hst1 as [Hf1 Ho1]. split; [by rewrite Hfailed|].
  intros p o Hp. destruct (Hout p o Hp) as [Hold|[Hin Hex]].
  - destruct (Ho1 p o Hold) as [?|[[= -> ->] ?]]; [by left|]. right. split; [left|done].
  - right. split; [by right|done].
Qed.

Lemma skip_outputs_origin (skipped : list (string * string)) : forall st,
  (failed_inputs st = [] -> failed_inputs (skip_outputs skipped st) = [])
  /\ (forall p o, output_files (skip_outputs skipped st) !! p = Some o ->
        output_files st !! p = Some o \/ (p, o) ∈ skipped).
Proof.
  unfold skip_outputs.
  induction skipped as [|[ip op] rest IH]; intros st; [by split; auto|].
  cbn [foldl].
  set (st1 := forget_failure ip st).
  set (st2 := match output_files st1 !! ip with
              | Some _ => st1
              | None => add_result_to_tree ip op st1
              end).
  destruct (IH st2) as [Hfailed Hout].
  assert (Hst1 : output_files st1 = output_files st
                 /\ (failed_inputs st = [] -> failed_inputs st1 = [])).
  { unfold st1, forget_failure. destruct (Dict.mem ip (failed_inputs st)) eqn:Hmem; [|done].
    split; [done|]. intros Hnil. by rewrite Hnil in Hmem. }
  destruct Hst1 as [Ho1 Hf1].
  assert (Hst2 : (failed_inputs st = [] -> failed_inputs st2 = [])
                 /\ forall p o, output_files st2 !! p = Some o ->
                      output_files st !! p = Some o \/ (p, o) = (ip, op)).
  { unfold st2. destruct (output_files st1 !! ip) eqn:Hlook.
    - split; [done|]. intros p o. rewrite Ho1. auto.
    - split; [done|]. simpl. intros p o. destruct (decide (ip = p)) as [->|Hne].
      + rewrite lookup_insert_eq. intros [= <-]. by right.
      + rewrite lookup_insert_ne by done. rewrite Ho1. auto. }
  destruct Hst2 as [Hf2 Ho2]. split; [auto|].
  intros p o Hp. destruct (Hout p o Hp) as [Hold|Hin]; [|right; by right].
  destruct (Ho2 p o Hold) as [?|[= -> ->]]; [by left|right; left].
Qed.

(** What the two loops of a fresh run keep: the results of the scan are
    not touched, an output that is listed stays listed, and the results
    of the scan that are on disk get listed. *)
Lemma restore_keeps (e : env) (items : list (string * string)) : forall st,
  let st' :=
    foldl (fun st item =>
             let '(input_path, output_path) := item in
             if Str.is_empty output_path || negb (path_exists e output_path) then st
             else if bool_decide (output_files st !! input_path = Some output_path) then st
             else add_result_to_tree input_path output_path st)
          st items in
  pre_existing_results st' = pre_existing_results st
  /\ (forall p, is_Some (output_files st !! p) -> is_Some (output_files st' !! p))
  /\ (forall p o, (p, o) ∈ items -> Str.is_empty o = false -> path_exists e o = true ->
        is_Some (output_files st' !! p)).
Proof.
  induction items as [|[ip op] items IH]; intros st.
  { cbv zeta. simpl. split_and!; try done. intros p o Hin. inversion Hin. }
  cbv zeta. cbn [foldl].
  set (st1 := if Str.is_empty op || negb (path_exists e op) then st
              else if bool_decide (output_files st !! ip = Some op) then st
              else add_result_to_tree ip op st).
  destruct (IH st1) as (Hpre & Hkeep & Hnew). cbv zeta in Hpre, Hkeep, Hnew.
  assert (Hst1 : pre_existing_results st1 = pre_existing_results st
                 /\ (forall p, is_Some (output_files st !! p) ->
                                is_Some (output_files st1 !! p))
                 /\ (Str.is_empty op = false -> path_exists e op = true ->
                     is_Some (output_files st1 !! ip))).
  { unfold st1. destruct (Str.is_empty op); simpl; [by split_and!|].
    destruct (path_exists e op) eqn:Hex; simpl; [|by split_and!].
    destruct (bool_decide_reflect (output_files st !! ip = Some op)) as [Heq|Hne].
    - split_and!; try done; intros _ _; rewrite Heq; eauto.
    - split_and!; try done; simpl.
      + intros p Hp. destruct (decide (ip = p)) as [->|Hp'].
        * rewrite lookup_insert_eq. eauto.
        * by rewrite lookup_insert_ne.
      + intros _ _. rewrite lookup_insert_eq. eauto. }
  destruct Hst1 as (Hpre1 & Hkeep1 & Hnew1). split_and!.
  - by rewrite Hpre.
  - intros p Hp. by apply Hkeep, Hkeep1.
  - intros p o Hin Hne Hex. apply elem_of_cons in Hin as [[= -> ->]|Hin].
    + by apply Hkeep, Hnew1.
    + by apply (Hnew p o).
Qed.

Lemma skip_outputs_keeps (skipped : list (string * string)) : forall st,
  pre_existing_results (skip_outputs skipped st) = pre_existing_results st.
Proof.
  unfold skip_outputs.
  induction skipped as [|[ip op] rest IH]; intros st; [done|].
  cbn [foldl]. rewrite IH.
  assert (Hst1 : pre_existing_results (forget_failure ip st) = pre_existing_results st).
  { unfold forget_failure. by destruct (Dict.mem ip (failed_inputs st)). }
  by destruct (output_files (forget_failure ip st) !! ip).
Qed.

(** The early returns of [start_processing]. *)
Lemma start_processing_early (e : env) (c : controls) (given : option (list string))
    (preserve_outputs : bool) (st : state) :
  let requested := match given with None => file_list c | Some g => given_paths g end in
  let saved_to := if auto_save c then Some (auto_output_dir requested) else None in
  api_status c = false \/ requested = []
  \/ (exists d, saved_to = Some d /\ makedirs e d = false) ->
  start_processing e c given preserve_outputs st = (st, None).
Proof.
  intros requested saved_to Hcause. unfold start_processing.
  destruct (api_status c); [|done]. simpl. fold requested.
  destruct Hcause as [?|[Hnil|(d & Hd & Hmk)]]; [done | by rewrite Hnil |].
  unfold saved_to in Hd. clearbody requested.
  destruct requested as [|p0 rest]; [done|].
  set (requested := p0 :: rest) in *.
  destruct (auto_save c); [|done].
  assert (d = auto_output_dir requested) as -> by congruence. by rewrite Hmk.
Qed.

(** X19.  [start_processing] without [preserve_outputs].  When the API is
    not connected, no image is requested or the output directory cannot be
    made, it returns early: nothing is changed and no worker is started.
    Otherwise it starts afresh: no failure is left from earlier runs; the
    results of the scan are kept as they are; every output the window lists
    exists on disk, and is a result of the scan or the expected output of a
    requested image; and every result of the scan that is on disk, and the
    expected output of every requested image that has one on disk, is
    listed. *)
Theorem fresh_run_lists_existing_outputs (e : env) (c : controls)
    (given : option (list string)) (st st' : state) (started : option launch) :
  start_processing e c given false st = (st', started) ->
  let requested := match given with None => file_list c | Some g => given_paths g end in
  let saved_to := if auto_save c then Some (auto_output_dir requested) else None in
  (api_status c = false \/ requested = []
   \/ (exists d, saved_to = Some d /\ makedirs e d = false) ->
   st' = st /\ started = None)
  /\ (api_status c = true -> requested <> [] ->
      (forall d, saved_to = Some d -> makedirs e d = true) ->
      failed_inputs st' = []
      /\ pre_existing_results st' = pre_existing_results st
      /\ (forall p o, output_files st' !! p = Some o ->
            path_exists e o = true
            /\ ((p, o) ∈ pre_existing_results st
                \/ (p ∈ requested /\ o = get_expected_output_path e p saved_to)))
      /\ (forall p o, (p, o) ∈ pre_existing_results st ->
            Str.is_empty o = false -> path_exists e o = true ->
            is_Some (output_files st' !! p))
      /\ (forall p, p ∈ requested ->
            path_exists e (get_expected_output_path e p saved_to) = true ->
            is_Some (output_files st' !! p))).
Proof.
  intros Hstart requested saved_to. split.
  { intros Hcause.
    rewrite (start_processing_early e c given false st Hcause) in Hstart.
    by injection Hstart as <- <-. }
  intros Hapi Hreq Hmk.
  destruct (start_processing_cases e c given false st st' started Hstart)
    as [(_ & _ & Hcause)|(_ & _ & -> & _)].
  { exfalso. fold requested saved_to in Hcause.
    destruct Hcause as [?|[?|(d & Hd & Hno)]]; [congruence | done |].
    rewrite (Hmk d Hd) in Hno. discriminate Hno. }
  fold requested saved_to.
  match goal with |- context [skip_outputs ?sk ?s] =>
    destruct (skip_outputs_origin sk s) as (Hfailed & Hout);
    destruct (skip_outputs_spec sk s) as (Hin & _ & _ & Hkept);
    pose proof (skip_outputs_keeps sk s) as Hpre;
    set (skipped := sk) in *; set (st1 := s) in * end.
  destruct (restore_fold e (pre_existing_results (clear_results st)) (clear_results st))
    as [Hf1 Ho1]. cbv zeta in Hf1, Ho1.
  destruct (restore_keeps e (pre_existing_results (clear_results st)) (clear_results st))
    as (Hpre1 & _ & Hnew1). cbv zeta in Hpre1, Hnew1.
  split_and!.
  - by apply Hfailed.
  - rewrite Hpre. exact Hpre1.
  - intros p o Hp. destruct (Hout p o Hp) as [Hold|Hsk].
    + destruct (Ho1 p o Hold) as [Hempty|[Hitem Hex]]; [|by auto].
      simpl in Hempty. by rewrite lookup_empty in Hempty.
    + unfold skipped in Hsk. apply list_elem_of_fmap in Hsk as (q & [= -> ->] & Hq).
      apply list_elem_of_filter in Hq as [Hex Hq]. auto.
  - intros p o Hitem Hne Hex.
    destruct (Hnew1 p o Hitem Hne Hex) as [o' Ho']. exists o'. by apply Hkept.
  - intros p Hp Hex. apply Hin. unfold skipped. rewrite fst_pairs.
    by apply list_elem_of_filter.
Qed.

Lemma sort_failed_fold (e : env) (ks : list string) :
  forall (existing missing : list string) (failed : Dict.t string),
  (foldl (sort_one e) (existing, missing, failed) ks).1.1
  = (existing ++ filter (fun p => path_exists e p = true) ks)%list
  /\ (foldl (sort_one e) (existing, missing, failed) ks).1.2
     = (missing ++ filter (fun p => path_exists e p = false) ks)%list
  /\ (forall p, Dict.get p (foldl (sort_one e) (existing, missing, failed) ks).2
                = if bool_decide (p ∈ ks) && negb (path_exists e p) then None
                  else Dict.get p failed).
Proof.
  induction ks as [|k ks IH]; intros existing missing failed.
  { simpl. by rewrite !app_nil_r. }
  cbn [foldl]. unfold sort_one at 2 4 6. destruct (path_exists e k) eqn:Hk.
  - destruct (IH (existing ++ [k])%list missing failed) as (-> & -> & Hget).
    rewrite filter_cons_True by done. rewrite filter_cons_False by congruence.
    rewrite <- app_assoc. split; [done|]. split; [done|].
    intros p. rewrite Hget.
    destruct (decide (p = k)) as [->|Hne].
    + rewrite Hk. by rewrite !andb_false_r.
    + assert (Heq : bool_decide (p ∈ k :: ks) = bool_decide (p ∈ ks)).
      { apply bool_decide_ext. rewrite elem_of_cons. by intuition. }
      by rewrite Heq.
  - destruct (IH existing (missing ++ [k])%list (Dict.del k failed)) as (-> & -> & Hget).
    rewrite filter_cons_False by congruence. rewrite filter_cons_True by done.
    rewrite <- app_assoc. split; [done|]. split; [done|].
    intros p. rewrite Hget.
    destruct (decide (p = k)) as [->|Hne].
    + rewrite Hk, get_del_eq. rewrite (bool_decide_true (k ∈ k :: ks)) by left. simpl.
      by destruct (bool_decide (k ∈ ks)).
    + rewrite get_del_ne by done.
      assert (Heq : bool_decide (p ∈ k :: ks) = bool_decide (p ∈ ks)).
      { apply bool_decide_ext. rewrite elem_of_cons. by intuition. }
      by rewrite Heq.
Qed.

Lemma sort_failed_spec (e : env) (failed : Dict.t string) :
  (sort_failed e failed).1.1 = filter (fun p => path_exists e p = true) (Dict.keys failed)
  /\ (sort_failed e failed).1.2
     = filter (fun p => path_exists e p = false) (Dict.keys failed)
  /\ (forall p, Dict.get p (sort_failed e failed).2
                = if path_exists e p then Dict.get p failed else None).
Proof.
  unfold sort_failed.
  destruct (sort_failed_fold e (Dict.keys failed) [] [] failed) as (H1 & H2 & H3).
  split; [done|]. split; [done|].
  intros p. rewrite H3. destruct (path_exists e p); simpl.
  - by rewrite andb_false_r.
  - rewrite andb_true_r. destruct (bool_decide_reflect (p ∈ Dict.keys failed)) as [|Hnot];
      [done|]. by apply get_None_keys.
Qed.

(** X20.  [retry_failed_images] forgets every failure whose image file is
    gone and invents none; and a worker it starts gets, without repetition,
    only images that exist on disk and had failed, with their failures kept
    until the worker reports. *)
Theorem retry_failed_images_spec (e : env) (c : controls) (st st' : state)
    (started : option launch) :
  retry_failed_images e c st = (st', started) ->
  (forall p, path_exists e p = false -> Dict.get p (failed_inputs st') = None)
  /\ (forall p m, Dict.get p (failed_inputs st') = Some m ->
                  Dict.get p (failed_inputs st) = Some m)
  /\ (forall l, started = Some l ->
        NoDup (image_paths l)
        /\ forall p, p ∈ image_paths l ->
             path_exists e p = true
             /\ is_Some (Dict.get p (failed_inputs st))
             /\ Dict.get p (failed_inputs st') = Dict.get p (failed_inputs st)).
Proof.
  unfold retry_failed_images. intros Hretry.
  destruct (failed_inputs st) as [|item items] eqn:Hfailed.
  { injection Hretry as <- <-. rewrite Hfailed. split_and!; try done. }
  rewrite <- Hfailed in *. clear Hfailed item items.
  destruct (sort_failed_spec e (failed_inputs st)) as (Hex & _ & Hget).
  destruct (sort_failed e (failed_inputs st)) as [[existing missing] failed].
  simpl in Hex, Hget.
  set (st1 := set_failed_inputs failed st) in *.
  assert (Hdrop : forall p, path_exists e p = false -> Dict.get p (failed_inputs st1) = None).
  { intros p Hp. simpl. by rewrite Hget, Hp. }
  assert (Hkeep : forall p m, Dict.get p (failed_inputs st1) = Some m ->
                              Dict.get p (failed_inputs st) = Some m).
  { intros p m. simpl. rewrite Hget. by destruct (path_exists e p). }
  destruct existing as [|x xs] eqn:Hexisting.
  { injection Hretry as <- <-. split_and!; try done. }
  rewrite <- Hexisting in *. clear Hexisting x xs.
  destruct (start_processing_cases e c (Some existing) true st1 st' started Hretry)
    as [(-> & -> & _)|(_ & _ & -> & Hstarted)]; [split_and!; done|].
  cbv zeta in Hstarted.
  match goal with |- context [skip_outputs ?sk ?s] =>
    destruct (skip_outputs_spec sk s) as (_ & Hout & Hnone & _);
    set (skipped := sk) in * end.
  split_and!.
  - intros p Hp. by apply Hnone, Hdrop.
  - intros p m Hm. apply Hkeep.
    destruct (decide (p ∈ skipped.*1)) as [Hin|Hin].
    + destruct (skip_outputs_spec skipped st1) as (Hsk & _).
      destruct (Hsk p Hin) as [_ Hno]. congruence.
    + destruct (Hout p Hin) as [_ <-]. done.
  - intros l ->. destruct Hstarted as [_ ->]. simpl. split.
    + apply NoDup_filter. apply given_paths_nodup.
    + intros p Hp. apply list_elem_of_filter in Hp as [Hpend Hp].
      apply given_paths_elem in Hp as [Hp _]. rewrite Hex in Hp.
      apply list_elem_of_filter in Hp as [Hpex Hkey].
      assert (Hsome : is_Some (Dict.get p (failed_inputs st))).
      { destruct (Dict.get p (failed_inputs st)) eqn:Hg; [eauto|].
        by apply get_None_keys in Hg. }
      split; [done|]. split; [done|].
      assert (Hin : p ∉ skipped.*1).
      { unfold skipped. rewrite fst_pairs. intros Hin.
        apply list_elem_of_filter in Hin as [Hyes _]. congruence. }
      destruct (Hout p Hin) as [_ ->]. simpl. by rewrite Hget, Hpex.
Qed.

Section signals.
Import Worker WorkerProofs.
Variable e : Worker.env.

Lemma replay_app (a b : list (Z * event)) (st : state) :
  replay (a ++ b) st = replay b (replay a st).
Proof. apply foldl_app. Qed.

(** The pacing wait sends the window nothing that it keeps. *)
Lemma pace_silent i w :
  exists b w' new,
    pace e i w = Some (b, w')
    /\ trace w' = (trace w ++ new)%list
    /\ forall st, replay new st = st.
Proof.
  unfold pace. destruct (1 <? i)%nat; [|exists true, w, []; by rewrite app_nil_r].
  unfold _wait_for_rate_limit.
  destruct (Z.ltb_spec (now w - last_request_time w) (rate_limit_delay e)) as [Hlt|Hge].
  - destruct (sleep_with_cancel_spec e
                (rate_limit_delay e - (now w - last_request_time w))
                (RateLimitWait (rate_limit_delay e - (now w - last_request_time w)))
                200 w) as (t & -> & _); [lia..|].
    destruct (cancelled_at e t) eqn:Hc; simpl.
    + by eexists false, _, [_].
    + destruct (is_cancelled e _); by eexists _, _, [_].
  - cbn [negb]. destruct (is_cancelled e _); eexists _, _, []; by rewrite app_nil_r.
Qed.

(** One item, as the window sees it: nothing comes of it, or it is added
    to the results, or it is noted as failed. *)
Lemma retry_loop_replay fuel i total image_path w :
  0 <= retry_count w ->
  max_retries + 1 - retry_count w <= Z.of_nat fuel ->
  exists w' new,
    retry_loop e fuel i total image_path w = Some w'
    /\ trace w' = (trace w ++ new)%list
    /\ forall st,
         (results w' = results w /\ replay new st = st)
         \/ (results w' = <[image_path := Success (output_path_for e image_path)]> (results w)
             /\ replay new st = add_result image_path (output_path_for e image_path) st)
         \/ (exists d,
               results w' = <[image_path := Failure d]> (results w)
               /\ (replay new st = handle_error (failed_message image_path d) image_path st
                   \/ replay new st
                      = handle_error (failed_message image_path d) image_path
                          (handle_error exhausted_message image_path st))).
Proof.
  revert w. induction fuel as [|fuel IH]; intros w H0 Hfuel.
  { simpl retry_loop.
    destruct (Z.leb_spec (retry_count w) max_retries); simpl; [unfold max_retries in *; lia|].
    exists w, []. rewrite app_nil_r. split_and!; try done. by left. }
  rewrite retry_loop_S.
  destruct (Z.leb_spec (retry_count w) max_retries) as [Hrc|Hrc]; cbn [negb].
  2:{ exists w, []. rewrite app_nil_r. split_and!; try done. by left. }
  destruct (pace_silent i w) as (go & w1 & new1 & Hpace & Htr1 & Hq1).
  destruct (pace_spec e i w) as (go' & w1' & _ & Hpace' & _ & _ & _ & Hres1 & Hrc1 & _).
  rewrite Hpace in Hpace'. injection Hpace' as <- <-. rewrite Hpace.
  destruct go; cbn [negb].
  2:{ exists w1, new1. split_and!; try done. left. by rewrite Hq1. }
  destruct (call_remover_spec e i total image_path w1)
    as (w3 & -> & Htr3 & Hc3 & Hres3 & Hrc3 & _ & _).
  set (mid := [(now w1, Processing i total (Path.basename image_path));
               (now w1, Dispatch image_path (output_path_for e image_path))]) in *.
  assert (Hpre : forall rest st, replay (new1 ++ mid ++ rest) st = replay rest st).
  { intros rest st. by rewrite !replay_app, Hq1. }
  destruct (answer (remover e (calls w1))) as [|error].
  - eexists _, (new1 ++ mid ++ [(now w3, image_processed image_path
                                              (output_path_for e image_path))])%list.
    split; [done|]. cbn [trace results set_result emit]. split.
    + rewrite Htr3, Htr1. by rewrite <- !app_assoc.
    + intros st. right. left. rewrite Hpre, Hres3, Hres1. done.
  - destruct (is_cancelled e w3) eqn:Hcan3.
    { exists w3, (new1 ++ mid ++ [])%list. split; [done|]. split.
      + rewrite Htr3, Htr1. by rewrite app_nil_r, <- !app_assoc.
      + intros st. left. rewrite Hpre, Hres3, Hres1. done. }
    destruct (is_rate_limit_error error) eqn:Herr.
    + destruct (Z.le_gt_cases (retry_count w3 + 1) max_retries) as [Hle|Hgt].
      * destruct (handle_backoff e error image_path w3 Herr) as (t & -> & _); [lia..|].
        set (w4 := set_now t _).
        assert (Htr4 : trace w4 = (trace w3 ++ [(now w3, Backoff (30 * 2 ^ retry_count w3)
                                                   (retry_count w3 + 1) max_retries)])%list)
          by done.
        change (is_cancelled e w4) with (cancelled_at e t).
        destruct (cancelled_at e t) eqn:Hc4; cbn [negb].
        { exists w4, (new1 ++ mid ++ [(now w3, Backoff (30 * 2 ^ retry_count w3)
                                              (retry_count w3 + 1) max_retries)])%list.
          split; [done|]. split.
          + rewrite Htr4, Htr3, Htr1. by rewrite <- !app_assoc.
          + intros st. left. rewrite Hpre. split; [|done].
            change (results w4) with (results w3). by rewrite Hres3, Hres1. }
        destruct (IH w4) as (w' & new' & -> & Htr' & Hcases).
        { change (retry_count w4) with (retry_count w3 + 1). lia. }
        { change (retry_count w4) with (retry_count w3 + 1).
          rewrite Nat2Z.inj_succ in Hfuel. lia. }
        exists w', (new1 ++ mid ++ ([(now w3, Backoff (30 * 2 ^ retry_count w3)
                                            (retry_count w3 + 1) max_retries)] ++ new'))%list.
        split; [done|]. split.
        { rewrite Htr', Htr4, Htr3, Htr1. by rewrite <- !app_assoc. }
        intros st. rewrite Hpre, replay_app.
        change (results w4) with (results w3) in Hcases. rewrite Hres3, Hres1 in Hcases.
        apply Hcases.
      * rewrite handle_exhausted by (done || lia).
        set (w4 := emit _ _).
        change (is_cancelled e w4) with (is_cancelled e w3). rewrite Hcan3.
        eexists _, (new1 ++ mid ++ [(now w3, error_occurred exhausted_message image_path);
                                    (now w3, error_occurred (failed_message image_path error)
                                               image_path)])%list.
        split; [done|]. cbn [trace results set_result emit set_retry_count w4]. split.
        { rewrite Htr3, Htr1. by rewrite <- !app_assoc. }
        intros st. right. right. exists error. rewrite Hpre, Hres3, Hres1.
        split; [done|]. by right.
    + rewrite handle_permanent by done. rewrite Hcan3.
      eexists _, (new1 ++ mid ++ [(now w3, error_occurred (failed_message image_path error)
                                             image_path)])%list.
      split; [done|]. cbn [trace results set_result emit]. split.
      { rewrite Htr3, Htr1. by rewrite <- !app_assoc. }
      intros st. right. right. exists error. rewrite Hpre, Hres3, Hres1.
      split; [done|]. by left.
Qed.

Lemma shows_add_result results st0 st p out :
  shows results st0 st ->
  shows (<[p := Success out]> results) st0 (add_result p out st).
Proof.
  intros Hsh q. unfold add_result.
  destruct (forget_failure_spec p (add_result_to_tree p out st)) as (Hout & Hget & Hne & _).
  destruct (decide (p = q)) as [<-|Hq].
  - rewrite lookup_insert_eq, Hout. simpl. by rewrite lookup_insert_eq.
  - rewrite lookup_insert_ne, Hout, Hne by done. simpl. rewrite lookup_insert_ne by done.
    apply Hsh.
Qed.

Lemma shows_handle_error results st0 st p d :
  shows results st0 st ->
  shows (<[p := Failure d]> results) st0 (handle_error (failed_message p d) p st).
Proof.
  intros Hsh q. unfold handle_error. simpl.
  destruct (decide (p = q)) as [<-|Hq].
  - by rewrite lookup_insert_eq, get_set_eq.
  - rewrite lookup_insert_ne, get_set_ne by done. apply Hsh.
Qed.

Lemma shows_handle_errors results st0 st p d m :
  shows results st0 st ->
  shows (<[p := Failure d]> results) st0
    (handle_error (failed_message p d) p (handle_error m p st)).
Proof.
  intros Hsh q. unfold handle_error. simpl.
  destruct (decide (p = q)) as [<-|Hq].
  - by rewrite lookup_insert_eq, get_set_eq.
  - rewrite lookup_insert_ne, !get_set_ne by done. apply Hsh.
Qed.

Lemma run_items_replay i total image_paths w :
  exists w' new,
    run_items e i total image_paths w = Some w'
    /\ trace w' = (trace w ++ new)%list
    /\ forall st0 st, shows (results w) st0 st -> shows (results w') st0 (replay new st).
Proof.
  revert i w. induction image_paths as [|image_path rest IH]; intros i w.
  { exists w, []. by rewrite app_nil_r. }
  rewrite run_items_cons.
  destruct (is_cancelled e w); [exists w, []; by rewrite app_nil_r|].
  destruct (retry_loop_replay (Z.to_nat (max_retries + 1)) i total image_path
              (set_retry_count 0 w))
    as (w1 & new1 & -> & Htr1 & Hcases); [done..|].
  cbn [trace results set_retry_count] in *.
  assert (Hstep : forall st0 st, shows (results w) st0 st ->
                                 shows (results w1) st0 (replay new1 st)).
  { intros st0 st Hsh.
    destruct (Hcases st) as [[-> ->]|[[-> ->]|(d & -> & [-> | ->])]]; [done|..].
    - by apply shows_add_result.
    - by apply shows_handle_error.
    - by apply shows_handle_errors. }
  destruct (is_cancelled e w1); [by exists w1, new1|].
  destruct (IH (S i) w1) as (w2 & new2 & -> & Htr2 & Hsh2).
  exists w2, (new1 ++ new2)%list. split; [done|]. split.
  - rewrite Htr2, Htr1. by rewrite <- app_assoc.
  - intros st0 st Hsh. rewrite replay_app. by apply Hsh2, Hstep.
Qed.

End signals.

(** X21.  The signals of any run, delivered in order to [add_result] and
    [handle_error], leave the window agreeing with the final mapping: an
    image recorded as a success is listed with its output and has no failure;
    one recorded as failed has the failure message of its last error; and
    what the window showed for any other image is untouched.  (The flag is
    set at a moment in time, and emitting a signal takes none.) *)
Theorem window_shows_results (e : Worker.env) (image_paths : list string) (start : Z)
    (st : state) :
  exists w,
    Worker.run e image_paths start = Some w
    /\ shows (Worker.results w) st (replay (Worker.trace w) st).
Proof.
  unfold Worker.run.
  destruct (run_items_replay e 1 (length image_paths) image_paths (Worker.init start))
    as (w & new & -> & Htr & Hsh).
  eexists. split; [done|]. cbn [Worker.trace Worker.results Worker.emit].
  rewrite Htr. simpl. rewrite <- app_assoc, replay_app. simpl.
  apply Hsh. intros p. simpl. by rewrite lookup_empty.
Qed.

Lemma length_filter_fmap {A B} (f : A -> B) (P : B -> Prop) `{!forall y, Decision (P y)}
    (l : list A) :
  length (filter P (f <$> l)) = length (filter (fun x => P (f x)) l).
Proof.
  induction l as [|x l IH]; [done|]. rewrite fmap_cons.
  destruct (decide (P (f x))) as [Hx|Hx].
  - rewrite !filter_cons_True by done. simpl. by rewrite IH.
  - by rewrite !filter_cons_False by done.
Qed.

(** X22.  For a run that nothing cancels, on a list without repetitions,
    [processing_finished] counts as total the number of images requested and
    as successes the images of the list that the mapping records as
    successes. *)
Theorem processing_finished_counts (e : Worker.env) (image_paths : list string)
    (start : Z) :
  Worker.cancel_at e = None ->
  NoDup image_paths ->
  exists w,
    Worker.run e image_paths start = Some w
    /\ processing_finished (Worker.results w)
       = (length (filter (fun p => succeeded <$> Worker.results w !! p = Some true)
                    image_paths),
          length image_paths).
Proof.
  intros Hnone Hnd.
  destruct (WorkerRuns.run_settles e image_paths start Hnone) as (w & Hrun & Hiff & Hout).
  exists w. split; [done|]. unfold processing_finished.
  set (m := Worker.results w) in *.
  set (l := (fun p => (p, default (Worker.Failure "") (m !! p))) <$> image_paths).
  assert (Hfst : l.*1 = image_paths) by apply fst_pairs.
  assert (Hm : map_to_list m ≡ₚ l).
  { assert (Heq : m = list_to_map l).
    { apply map_eq. intros p. destruct (decide (p ∈ image_paths)) as [Hp|Hp].
      - destruct (proj2 (Hiff p) Hp) as [r Hr]. rewrite Hr. symmetry.
        apply elem_of_list_to_map; [by rewrite Hfst|].
        apply list_elem_of_fmap. exists p. by rewrite Hr.
      - assert (Hno : m !! p = None).
        { destruct (m !! p) eqn:Hlook; [|done]. destruct Hp. apply Hiff. eauto. }
        rewrite Hno. symmetry. apply not_elem_of_list_to_map. by rewrite Hfst. }
    rewrite Heq at 1. apply map_to_list_to_map. by rewrite Hfst. }
  f_equal.
  - rewrite Hm. unfold l. rewrite length_filter_fmap. f_equal.
    apply list_filter_iff. intros p. simpl.
    destruct (m !! p) as [[out|d]|] eqn:Hlook; simpl; [done|..].
    + split; [done|]. by intros [=].
    + split; [done|]. by intros [=].
  - rewrite <- size_dom.
    assert (Hdom : dom m = list_to_set (C := gset string) image_paths).
    { apply set_eq. intros p. rewrite elem_of_dom, elem_of_list_to_set. apply Hiff. }
    rewrite Hdom. by apply size_list_to_set.
Qed.

Lemma start_processing_queues_new_work_witness :
  let l := {| image_paths := ["/data/photos/b.jpg"];
              output_dir := "/data/photos_gemini_results";
              prompt_type := "default"; custom_prompt := None;
              rate_limit_delay := 2000 |} in
  let st' := (start_processing Desk.disk Desk.controls None false Desk.state).1 in
  let requested := file_list Desk.controls in
  let saved_to := Some (auto_output_dir requested) in
  api_status Desk.controls = true
  /\ image_paths l
     = filter (fun p => path_exists Desk.disk
                          (get_expected_output_path Desk.disk p saved_to) = false)
         requested
  /\ image_paths l <> []
  /\ output_dir l = default "" saved_to
  /\ rate_limit_delay l = delay (checked_tier Desk.controls)
  /\ (auto_save Desk.controls = true ->
      forall remover cancel_at p, p ∈ image_paths l ->
        path_exists Desk.disk (Worker.output_path_for (worker_env l remover cancel_at) p)
        = false)
  /\ (forall p, p ∈ requested -> p ∉ image_paths l ->
        is_Some (output_files st' !! p) /\ Dict.get p (failed_inputs st') = None).
Proof.
  apply (start_processing_queues_new_work Desk.disk Desk.controls None false Desk.state).
  vm_compute. reflexivity.
Defined.

Lemma start_processing_nothing_new_witness :
  let st' := (start_processing Desk.full_disk Desk.controls None true Desk.state).1 in
  let requested := file_list Desk.controls in
  let saved_to := Some (auto_output_dir requested) in
  (st' = Desk.state
   /\ (api_status Desk.controls = false \/ requested = []
       \/ exists d, saved_to = Some d /\ makedirs Desk.full_disk d = false))
  \/ (requested <> []
      /\ forall p, p ∈ requested ->
           path_exists Desk.full_disk (get_expected_output_path Desk.full_disk p saved_to)
           = true
           /\ is_Some (output_files st' !! p)
           /\ Dict.get p (failed_inputs st') = None).
Proof.
  apply (start_processing_nothing_new Desk.full_disk Desk.controls None true Desk.state).
  vm_compute. reflexivity.
Defined.

Lemma fresh_run_lists_existing_outputs_witness :
  let e := Desk.disk in
  let c := Desk.controls in
  let st := Desk.state in
  let st' := (start_processing e c None false st).1 in
  let started := (start_processing e c None false st).2 in
  let requested := file_list c in
  let saved_to := if auto_save c then Some (auto_output_dir requested) else None in
  (api_status c = false \/ requested = []
   \/ (exists d, saved_to = Some d /\ makedirs e d = false) ->
   st' = st /\ started = None)
  /\ (api_status c = true -> requested <> [] ->
      (forall d, saved_to = Some d -> makedirs e d = true) ->
      failed_inputs st' = []
      /\ pre_existing_results st' = pre_existing_results st
      /\ (forall p o, output_files st' !! p = Some o ->
            path_exists e o = true
            /\ ((p, o) ∈ pre_existing_results st
                \/ (p ∈ requested /\ o = get_expected_output_path e p saved_to)))
      /\ (forall p o, (p, o) ∈ pre_existing_results st ->
            Str.is_empty o = false -> path_exists e o = true ->
            is_Some (output_files st' !! p))
      /\ (forall p, p ∈ requested ->
            path_exists e (get_expected_output_path e p saved_to) = true ->
            is_Some (output_files st' !! p))).
Proof.
  apply (fresh_run_lists_existing_outputs Desk.disk Desk.controls None Desk.state _
           (start_processing Desk.disk Desk.controls None false Desk.state).2).
  vm_compute. reflexivity.
Defined.

Lemma retry_failed_images_spec_witness :
  let st' := (retry_failed_images Desk.disk Desk.controls Desk.state).1 in
  let started := (retry_failed_images Desk.disk Desk.controls Desk.state).2 in
  (forall p, path_exists Desk.disk p = false -> Dict.get p (failed_inputs st') = None)
  /\ (forall p m, Dict.get p (failed_inputs st') = Some m ->
                  Dict.get p (failed_inputs Desk.state) = Some m)
  /\ (forall l, started = Some l ->
        NoDup (image_paths l)
        /\ forall p, p ∈ image_paths l ->
             path_exists Desk.disk p = true
             /\ is_Some (Dict.get p (failed_inputs Desk.state))
             /\ Dict.get p (failed_inputs st') = Dict.get p (failed_inputs Desk.state)).
Proof.
  apply (retry_failed_images_spec Desk.disk Desk.controls Desk.state).
  vm_compute. reflexivity.
Defined.

Lemma processing_finished_counts_witness :
  exists w,
    Worker.run Samples.throttled_at_first ["/in/a.jpg"; "/in/b.jpg"] Samples.start = Some w
    /\ processing_finished (Worker.results w)
       = (length (filter (fun p => succeeded <$> Worker.results w !! p = Some true)
                    ["/in/a.jpg"; "/in/b.jpg"]),
          length ["/in/a.jpg"; "/in/b.jpg"]).
Proof.
  apply (processing_finished_counts Samples.throttled_at_first ["/in/a.jpg"; "/in/b.jpg"]
           Samples.start).
  - reflexivity.
  - apply (bool_decide_unpack _). vm_compute. exact I.
Defined.

End WindowProofs.
